(** * SlideRenderer: the slide layout and font-sizing engine

    A shallow embedding of [components/SlideRenderer.tsx] (with the [Slide]
    record of [types.ts]) and the properties its specification states about
    the text/math segmenter [SmartText], the font-size estimator
    [getDynamicFontSize] and the layout dispatcher [renderLayout].

    Conventions of the embedding.
    - A JavaScript string is the list of its UTF-16 code units, so [length]
      is the [.length] of the source and [++] is string concatenation.
    - A JavaScript number is a binary64 double: a [spec_float] of the
      Standard Library, with its correctly rounded operations at precision
      53 and exponent bound 1024, NaN, the infinities and the signed zeros
      included.  Lengths, counts and indices are integers far below 2^53,
      on which the arithmetic of doubles is exact: they are computed in
      [Z] (the half of a length in [Q]) and enter the doubles where the
      source first divides.
    - JSX is kept up to the data the properties speak about: which template
      is chosen, which text goes into which slot, and at which font size.
      Class names and decorations are left out. *)

From Stdlib Require Import String Ascii.
From Stdlib Require Import ZArith QArith Qround Qpower Qminmax.
From Stdlib Require Import List Bool Arith Lia Lqa.
From Stdlib Require SpecFloat.
Import ListNotations.

Set Implicit Arguments.

(** ** JavaScript strings and arrays *)

Module JS.

Definition code_unit := N.
Definition jsstring := list code_unit.

(** A string literal of the source, as code units. *)
Definition lit (s : string) : jsstring :=
  map N_of_ascii (list_ascii_of_string s).

Fixpoint eqb (s t : jsstring) : bool :=
  match s, t with
  | [], [] => true
  | c :: s', d :: t' => (c =? d)%N && eqb s' t'
  | _, _ => false
  end.

(** [is_prefix search text]: [search] is an initial segment of [text]. *)
Fixpoint is_prefix (search text : jsstring) : bool :=
  match search, text with
  | [], _ => true
  | c :: search', d :: text' => (c =? d)%N && is_prefix search' text'
  | _ :: _, [] => false
  end.

(** [String.prototype.startsWith] and [endsWith], one argument. *)
Definition startsWith (text search : jsstring) : bool :=
  is_prefix search text.

Definition endsWith (text search : jsstring) : bool :=
  is_prefix (rev search) (rev text).

(** [slice(start, end)] of strings and of arrays alike: a negative index
    counts from the end, and both are clamped to the length. *)
Definition slice {A : Type} (l : list A) (start end_ : Z) : list A :=
  let len := Z.of_nat (length l) in
  let from := if (start <? 0)%Z then Z.max (len + start) 0
              else Z.min start len in
  let final := if (end_ <? 0)%Z then Z.max (len + end_) 0
               else Z.min end_ len in
  firstn (Z.to_nat (final - from)) (skipn (Z.to_nat from) l).

(** [slice(start)]: the end defaults to the length. *)
Definition slice_from {A : Type} (l : list A) (start : Z) : list A :=
  slice l start (Z.of_nat (length l)).

(** [content.join('')]. *)
Definition join (content : list jsstring) : jsstring := concat content.

(** The line terminators of ECMAScript, which [.] does not match:
    LF, CR, LINE SEPARATOR, PARAGRAPH SEPARATOR. *)
Definition isLineTerminator (c : code_unit) : bool :=
  ((c =? 10) || (c =? 13) || (c =? 8232) || (c =? 8233))%N.

(** [Math.ceil] of the half of a length, which is an integer. *)
Definition Math_ceil (x : Q) : Q := inject_Z (Qceiling x).

(** The number of elements of an array or code units of a string, as a
    number. *)
Definition len {A : Type} (l : list A) : Q := inject_Z (Z.of_nat (length l)).

(** An integral number used as an index. *)
Definition index (x : Q) : Z := Qfloor x.

End JS.
Import JS.

(** ** JavaScript numbers

    The binary64 doubles of the source and their operations. *)

Module Double.
Import SpecFloat.

Definition double : Type := spec_float.

(** The triples that are doubles: the mantissa of a finite one is
    canonical. *)
Definition is_double (x : double) : bool := valid_binary 53 1024 x.

(** [Number.isFinite(x)]. *)
Definition isFinite (x : double) : bool :=
  match x with
  | S754_zero _ | S754_finite _ _ _ => true
  | _ => false
  end.

(** An integer literal, or an integer that the source has computed. *)
Definition of_Z (z : Z) : double := binary_normalize 53 1024 z 0 false.

(** [x * y], [x / y], [x - y], [x < y], [x <= y] and [x === y]. *)
Definition mul : double -> double -> double := SFmul 53 1024.
Definition div : double -> double -> double := SFdiv 53 1024.
Definition sub : double -> double -> double := SFsub 53 1024.
Definition ltb : double -> double -> bool := SFltb.
Definition leb : double -> double -> bool := SFleb.
Definition eqb : double -> double -> bool := SFeqb.

(** A decimal literal [m / d], [d] a power of ten: the nearest double. *)
Definition decimal (m d : Z) : double := div (of_Z m) (of_Z d).

(** [Math.max(x, y)]: NaN if either is NaN, and [+0] is above [-0]. *)
Definition Math_max (x y : double) : double :=
  match SFcompare x y with
  | None => S754_nan
  | Some Lt => y
  | Some Gt => x
  | Some Eq =>
      match x, y with
      | S754_zero true, S754_zero false => y
      | _, _ => x
      end
  end.

(** [Math.floor(x)]: the greatest integer that is not above [x]; NaN, the
    infinities and the zeros are returned as they are.  A double with a
    negative exponent is below 2^53 in magnitude, so its floor is an
    integer that [of_Z] represents exactly. *)
Definition Math_floor (x : double) : double :=
  match x with
  | S754_finite s m e =>
      if (0 <=? e)%Z then x
      else
        let q := (Zpos m / 2 ^ (- e))%Z in
        let r := (Zpos m mod 2 ^ (- e))%Z in
        if s then of_Z (- (if (r =? 0)%Z then q else q + 1))
        else
          match q with
          | 0%Z => S754_zero false
          | _ => of_Z q
          end
  | _ => x
  end.

End Double.
Import Double.

Arguments of_Z z%_Z.
Arguments decimal (m d)%_Z.

(** ** The values of the doubles

    The rationals that the doubles stand for, and the rounding to nearest
    with ties to even that every operation of the source ends with.  The
    operations themselves are those of [SpecFloat]; these definitions only
    state what they compute. *)

Module Binary64.
Import SpecFloat.
Local Open Scope Q_scope.

(** The power of two of an exponent. *)
Definition p2 (e : Z) : Q := 2 ^ e.

(** The value of a mantissa and an exponent. *)
Definition F2Q (m e : Z) : Q := inject_Z m * p2 e.

(** The magnitude of a positive number: [p2 (mag x - 1) <= x < p2 (mag x)]. *)
Definition mag (x : Q) : Z :=
  let k := (Z.log2 (Qnum x) - Z.log2 (Zpos (Qden x)))%Z in
  if Qle_bool (p2 k) x then (k + 1)%Z else k.

(** The exponent of the doubles of a magnitude: 53 bits of mantissa, and
    -1074 for the subnormal ones. *)
Definition fexp64 (k : Z) : Z := Z.max (k - 53) (-1074).

(** Rounding to the nearest integer, ties to even. *)
Definition rne (x : Q) : Z :=
  let f := Qfloor x in
  match Qcompare (x - inject_Z f) (1 # 2) with
  | Lt => f
  | Eq => if Z.even f then f else (f + 1)%Z
  | Gt => (f + 1)%Z
  end.

(** Rounding to the format, without a bound on the exponent. *)
Definition RN (x : Q) : Q :=
  let E := fexp64 (mag x) in inject_Z (rne (x / p2 E)) * p2 E.

(** The place of a number in [m, m + 1), as the round and the sticky bit
    of a shift record tell it. *)
Definition inb (x : Q) (mrs : shr_record) : Prop :=
  let m := inject_Z (shr_m mrs) in
  match shr_r mrs, shr_s mrs with
  | false, false => x == m
  | false, true => m < x /\ x < m + (1 # 2)
  | true, false => x == m + (1 # 2)
  | true, true => m + (1 # 2) < x /\ x < m + 1
  end.

(** What a rounding to the format returns for the exact value [r] of the
    rounding without a bound on the exponent. *)
Definition rounds_to (sx : bool) (r : Q) (f : spec_float) : Prop :=
  match f with
  | S754_zero s => s = sx /\ r == 0
  | S754_finite s m e =>
      s = sx /\ bounded 53 1024 m e = true /\ r == F2Q (Zpos m) e
  | S754_infinity s => s = sx /\ p2 1024 <= r
  | S754_nan => False
  end.

(** The doubles that are not negative: a zero, a finite double with a
    canonical mantissa, or [+Infinity]. *)
Definition good (f : spec_float) : Prop :=
  match f with
  | S754_zero _ => True
  | S754_finite false m e => bounded 53 1024 m e = true
  | S754_infinity false => True
  | _ => False
  end.

(** Their values; [+Infinity] stands at 2^1024. *)
Definition val (f : spec_float) : Q :=
  match f with
  | S754_finite false m e => F2Q (Zpos m) e
  | S754_infinity false => p2 1024
  | _ => 0
  end.

(** A double that is neither an infinity nor NaN. *)
Definition finite (f : spec_float) : Prop :=
  match f with
  | S754_zero _ | S754_finite _ _ _ => True
  | _ => False
  end.

(** A negative double, [-0] or [-Infinity]. *)
Definition negish (f : spec_float) : Prop :=
  match f with
  | S754_zero true | S754_finite true _ _ | S754_infinity true => True
  | _ => False
  end.

(** A finite positive double. *)
Definition positive_double (x : spec_float) : Prop :=
  good x /\ finite x /\ 0 < val x.

End Binary64.
Import Binary64.

Definition dollar : code_unit := 36%N.

(** ** Regular expressions

    The fragment of ECMAScript patterns that the source uses: literal
    characters, the lazy quantifier [.*?], sequence, alternation and a
    capturing group.  [rmatch] is the backtracking matcher: it tries the
    alternatives from left to right and a lazy star from the shortest
    repetition upward, and calls the continuation [k] on what is left of the
    input; the first success is the match. *)

Module Regex.

Inductive regex : Type :=
| Chr (c : code_unit)
| LazyDotStar
| Seq (r1 r2 : regex)
| Alt (r1 r2 : regex)
| Group (r : regex).

Section Matcher.
Variable A : Type.

Fixpoint lazy_dots (k : jsstring -> option A) (s : jsstring) : option A :=
  match k s with
  | Some e => Some e
  | None =>
      match s with
      | [] => None
      | c :: s' => if isLineTerminator c then None else lazy_dots k s'
      end
  end.

Fixpoint rmatch (r : regex) (s : jsstring)
         (k : jsstring -> option A) : option A :=
  match r with
  | Chr c =>
      match s with
      | d :: s' => if (c =? d)%N then k s' else None
      | [] => None
      end
  | LazyDotStar => lazy_dots k s
  | Seq r1 r2 => rmatch r1 s (fun s1 => rmatch r2 s1 k)
  | Alt r1 r2 =>
      match rmatch r1 s k with
      | Some e => Some e
      | None => rmatch r2 s k
      end
  | Group r1 => rmatch r1 s k
  end.
End Matcher.

(** A match anchored at the start of [s]: the matched text and the rest.
    The patterns of this development have one group, around the whole
    pattern, so the captured text is the matched text. *)
Definition exec (r : regex) (s : jsstring) : option (jsstring * jsstring) :=
  match rmatch r s (fun rest => Some rest) with
  | Some rest => Some (firstn (length s - length rest) s, rest)
  | None => None
  end.

(** The loop of [RegExp.prototype[Symbol.split]] with no limit: [piece]
    is the text since the end of the last match (the substring from [p] to
    [q]), [s] the text from [q] on.  A match that ends where the current
    piece starts is skipped; otherwise the piece and the capture are
    emitted.  [fuel] bounds the iterations. *)
Fixpoint split_loop (r : regex) (fuel : nat) (piece s : jsstring)
  : list jsstring :=
  match fuel with
  | O => [piece ++ s]
  | S fuel' =>
      match s with
      | [] => [piece]
      | c :: s' =>
          match exec r s with
          | None => split_loop r fuel' (piece ++ [c]) s'
          | Some (matched, rest) =>
              match matched, piece with
              | [], [] => split_loop r fuel' (piece ++ [c]) s'
              | _, _ => piece :: matched :: split_loop r fuel' [] rest
              end
          end
      end
  end.

(** The iterations that the loop can take: every iteration but an empty
    match in the middle of a piece consumes a code unit, and such a match
    is followed by an iteration that does. *)
Definition iterations (piece s : jsstring) : nat :=
  2 * length s + match piece with [] => 0 | _ => 1 end.

(** [text.split(r)]. *)
Definition split (r : regex) (text : jsstring) : list jsstring :=
  match text with
  | [] => match exec r [] with Some _ => [] | None => [[]] end
  | _ => split_loop r (iterations [] text) [] text
  end.

End Regex.
Import Regex.

(** ** SmartText: the text/math segmenter *)

(** The typed segments of a text field.  [BlockMath math] stands for the
    scrollable [<div>] around [<BlockMath math=.../>], [InlineMath math] for
    [<InlineMath math=.../>], [PlainText part] for [<span>part</span>]. *)
Inductive Segment : Type :=
| PlainText (part : jsstring)
| InlineMath (math : jsstring)
| BlockMath (math : jsstring).

(** What [SmartText] returns: [null], the block of a text that is one
    formula, or a [<span>] of classified parts. *)
Inductive SmartTextView : Type :=
| Null
| WholeBlock (math : jsstring)
| Parts (children : list Segment).

(** [/(\$\$.*?\$\$|\$.*?\$)/g] *)
Definition math_pattern : regex :=
  Group (Alt (Seq (Chr dollar) (Seq (Chr dollar)
                (Seq LazyDotStar (Seq (Chr dollar) (Chr dollar)))))
             (Seq (Chr dollar) (Seq LazyDotStar (Chr dollar)))).

(** The body of [parts.map((part, i) => ...)]. *)
Definition render_part (part : jsstring) : Segment :=
  if startsWith part (lit "$$") && endsWith part (lit "$$") then
    BlockMath (slice part 2 (-2))
  else if startsWith part (lit "$") && endsWith part (lit "$") then
    InlineMath (slice part 1 (-1))
  else PlainText part.

(** [text] is [None] for [undefined] (a missing subtitle, [content[0]] of
    an empty list), which [!text] rejects like the empty string. *)
Definition SmartText (text : option jsstring) : SmartTextView :=
  match text with
  | None => Null
  | Some [] => Null
  | Some text =>
      if startsWith text (lit "$$") && endsWith text (lit "$$") then
        WholeBlock (slice text 2 (-2))
      else
        let parts := split math_pattern text in
        Parts (map render_part parts)
  end.

(** The ordered segment sequence of a text field. *)
Definition segments_of (v : SmartTextView) : list Segment :=
  match v with
  | Null => []
  | WholeBlock math => [BlockMath math]
  | Parts children => children
  end.

Definition segment (text : jsstring) : list Segment :=
  segments_of (SmartText (Some text)).

(** ** getDynamicFontSize: the font-size estimator *)

(** The size token [`${n}px`], by its number. *)
Inductive FontSize : Type := px (n : double).

Definition px_value (f : FontSize) : double := match f with px n => n end.

(** The lengths, the line weight and the two thresholds are integers; the
    doubles begin at the division. *)
Definition getDynamicFontSize (isThumbnail : bool)
           (content : list jsstring) (baseSize minSize : double) : FontSize :=
  if isThumbnail then px (mul baseSize (decimal 4 10)) else
  let textLength := Z.of_nat (length (join content)) in
  let lineCount := Z.of_nat (length content) in
  let complexity := (textLength + (lineCount * 40))%Z in
  let easyThreshold := 300%Z in
  let hardLimit := 1200%Z in
  if (complexity <=? easyThreshold)%Z then px baseSize else
  let scale :=
    Math_max (div minSize baseSize)
             (sub (of_Z 1)
                  (mul (div (of_Z (complexity - easyThreshold))
                            (of_Z (hardLimit - easyThreshold)))
                       (decimal 6 10))) in
  px (Math_floor (mul baseSize scale)).

(** ** Slides and their layouts *)

(** [Slide] of [types.ts].  The layout tag is typed as a union of six
    literals, but it arrives as a string of the generated JSON, and
    [renderLayout] has a [default] arm for any other value.  An optional
    field is [None] when it is [undefined]; [slide.subtitle && ...] and
    [slide.imageUrl ? ... : ...] take [undefined] and the empty string as
    false. *)
Record Slide : Type := {
  id : jsstring;
  title : jsstring;
  subtitle : option jsstring;
  content : list jsstring;
  layout : jsstring;
  notes : option jsstring;
  imageUrl : option jsstring;
  imagePrompt : option jsstring
}.

(** [content[0]]. *)
Definition first_entry (content : list jsstring) : option jsstring :=
  nth_error content 0.

(** The heading classes switched on [isThumbnail]. *)
Inductive HeadingClass : Type := text_sm | text_3xl.

(** The image half of the two image layouts. *)
Inductive ImagePane : Type :=
| Picture (src alt : jsstring) (loadingOverlay : bool)
| Placeholder.

(** A text block: its [fontSize] style and its text. *)
Record TextBlock : Type := {
  fontSize : FontSize;
  text : SmartTextView
}.

(** A bullet list: the [fontSize] style of the [<ul>] and its items. *)
Record BulletList : Type := {
  listFontSize : FontSize;
  items : list SmartTextView
}.

(** The structural arrangement that [renderLayout] returns, one constructor
    per [return] of the [switch]. *)
Inductive Template : Type :=
| TitleCard (heading : TextBlock) (sub : option TextBlock)
| QuoteCard (quoteMark : bool) (body : TextBlock) (attribution : TextBlock)
| ImageCard (isLeft : bool) (image : ImagePane) (headingClass : HeadingClass)
            (heading : SmartTextView) (bullets : BulletList)
| SplitCard (headingClass : HeadingClass) (heading : SmartTextView)
            (left right : BulletList)
| ContentCard (heading : TextBlock) (bullets : BulletList).

Definition bullet_items (l : list jsstring) : list SmartTextView :=
  map (fun item => SmartText (Some item)) l.

Section SlideRenderer.
(** The props and the state of one render. *)
Variable slide : Slide.
Variable isThumbnail : bool.
Variable imgLoaded : bool.

Definition renderLayout : Template :=
  if JS.eqb (layout slide) (lit "title") then
    TitleCard
      {| fontSize := getDynamicFontSize isThumbnail [title slide]
                       (of_Z (if isThumbnail then 24 else 64))
                       (of_Z (if isThumbnail then 12 else 32));
         text := SmartText (Some (title slide)) |}
      (match subtitle slide with
       | Some (c :: sub) =>
           Some {| fontSize := getDynamicFontSize isThumbnail [c :: sub]
                                 (of_Z (if isThumbnail then 12 else 28))
                                 (of_Z (if isThumbnail then 8 else 16));
                   text := SmartText (Some (c :: sub)) |}
       | _ => None
       end)
  else if JS.eqb (layout slide) (lit "quote") then
    QuoteCard (negb isThumbnail)
      {| fontSize := getDynamicFontSize isThumbnail (content slide)
                       (of_Z (if isThumbnail then 14 else 40))
                       (of_Z (if isThumbnail then 10 else 20));
         text := SmartText (first_entry (content slide)) |}
      {| fontSize := if isThumbnail then px (of_Z 10) else px (of_Z 20);
         text := SmartText (Some (title slide)) |}
  else if JS.eqb (layout slide) (lit "image-left")
          || JS.eqb (layout slide) (lit "image-right") then
    let isLeft := JS.eqb (layout slide) (lit "image-left") in
    ImageCard isLeft
      (match imageUrl slide with
       | Some (c :: url) => Picture (c :: url) (title slide) (negb imgLoaded)
       | _ => Placeholder
       end)
      (if isThumbnail then text_sm else text_3xl)
      (SmartText (Some (title slide)))
      {| listFontSize := getDynamicFontSize isThumbnail (content slide)
                           (of_Z (if isThumbnail then 10 else 20))
                           (of_Z (if isThumbnail then 8 else 12));
         items := bullet_items (content slide) |}
  else if JS.eqb (layout slide) (lit "split") then
    let leftContent :=
      slice (content slide) 0
            (index (Math_ceil (len (content slide) / 2))) in
    let rightContent :=
      slice_from (content slide)
                 (index (Math_ceil (len (content slide) / 2))) in
    let splitFontSize :=
      getDynamicFontSize isThumbnail (content slide)
        (of_Z (if isThumbnail then 9 else 18))
        (of_Z (if isThumbnail then 7 else 12)) in
    SplitCard (if isThumbnail then text_sm else text_3xl)
      (SmartText (Some (title slide)))
      {| listFontSize := splitFontSize; items := bullet_items leftContent |}
      {| listFontSize := splitFontSize; items := bullet_items rightContent |}
  else
    ContentCard
      {| fontSize := if isThumbnail then px (of_Z 16) else px (of_Z 44);
         text := SmartText (Some (title slide)) |}
      {| listFontSize := getDynamicFontSize isThumbnail (content slide)
                           (of_Z (if isThumbnail then 11 else 26))
                           (of_Z (if isThumbnail then 9 else 14));
         items := bullet_items (content slide) |}.

End SlideRenderer.

(** ** The specification's vocabulary *)

(** Total character count: the character counts of the strings, summed. *)
Definition charCount (content : list jsstring) : nat :=
  list_sum (map (@length code_unit) content).

(** [complexity = textLength + lineCount * 40]. *)
Definition complexity (content : list jsstring) : Z :=
  Z.of_nat (charCount content) + Z.of_nat (length content) * 40.

(** The linear shrink factor at a complexity above the easy threshold:
    [1 - ((complexity - 300) / (1200 - 300)) * 0.6]. *)
Definition linear (complexity : Z) : double :=
  sub (of_Z 1)
      (mul (div (of_Z (complexity - 300)) (of_Z (1200 - 300)))
           (decimal 6 10)).

(** [estimateSize(content, baseSize, minSize, isThumbnailMode)], the size in
    pixel units. *)
Definition estimateSize (content : list jsstring) (baseSize minSize : double)
           (isThumbnailMode : bool) : double :=
  px_value (getDynamicFontSize isThumbnailMode content baseSize minSize).

(** The closed set of layout tags. *)
Definition layoutTags : list jsstring :=
  [lit "title"; lit "content"; lit "split"; lit "quote";
   lit "image-left"; lit "image-right"].

(** The slide [s] under another layout tag. *)
Definition with_layout (s : Slide) (tag : jsstring) : Slide :=
  {| id := id s; title := title s; subtitle := subtitle s;
     content := content s; layout := tag; notes := notes s;
     imageUrl := imageUrl s; imagePrompt := imagePrompt s |}.

(** [selectTemplate(layoutTag)]: the arrangement in which a slide is laid
    out under that tag. *)
Definition selectTemplate (layoutTag : jsstring)
           (s : Slide) (isThumbnail imgLoaded : bool) : Template :=
  renderLayout (with_layout s layoutTag) isThumbnail imgLoaded.

(** A slide to evaluate the renderer on: the given layout tag and content
    under the title "Title". *)
Definition sample_slide (tag : string) (entries : list jsstring) : Slide :=
  {| id := lit "slide-1"; title := lit "Title"; subtitle := None;
     content := entries; layout := lit tag; notes := None;
     imageUrl := None; imagePrompt := None |}.

(** ceil(n/2), as the source computes it. *)
Definition ceil_half (n : nat) : nat :=
  Z.to_nat (Qceiling (inject_Z (Z.of_nat n) / 2)).

(** The trimmed form of a string: without the white space and the line
    terminators at its two ends.  The specification speaks of it; the
    source has no counterpart. *)
Definition isWhiteSpace (c : code_unit) : bool :=
  ((c =? 9) || (c =? 11) || (c =? 12) || (c =? 32) || (c =? 160)
   || (c =? 5760) || ((8192 <=? c) && (c <=? 8202)) || (c =? 8239)
   || (c =? 8287) || (c =? 12288) || (c =? 65279))%N
  || isLineTerminator c.

Fixpoint trimStart (s : jsstring) : jsstring :=
  match s with
  | c :: s' => if isWhiteSpace c then trimStart s' else s
  | [] => []
  end.

Definition spec_trimmed (s : jsstring) : jsstring :=
  rev (trimStart (rev (trimStart s))).

(** A string is wrapped by [$$] at both ends. *)
Definition wrapped (s : jsstring) : bool :=
  startsWith s (lit "$$") && endsWith s (lit "$$").

(** A segment with its delimiters restored, and a segment sequence
    concatenated back to a string. *)
Definition restore (seg : Segment) : jsstring :=
  match seg with
  | PlainText part => part
  | InlineMath math => lit "$" ++ math ++ lit "$"
  | BlockMath math => lit "$$" ++ math ++ lit "$$"
  end.

Definition unsegment (segs : list Segment) : jsstring :=
  concat (map restore segs).

Definition no_dollar (s : jsstring) : bool :=
  forallb (fun c => negb (c =? dollar)%N) s.

(** The payload of a math span: a non-empty expression without [$]. *)
Definition expression (p : jsstring) : bool :=
  match p with
  | [] => false
  | _ => no_dollar p
  end.

(** A payload on one line: without line terminators. *)
Definition single_line (p : jsstring) : bool :=
  forallb (fun c => negb (isLineTerminator c)) p.

(** Balanced delimiters: the string is a sequence of plain characters other
    than [$], inline spans [$p$] and block spans [$$p$$], with the payloads
    [p] admitted by [payload]. *)
Inductive balanced (payload : jsstring -> bool) : jsstring -> Prop :=
| balanced_end : balanced payload []
| balanced_plain c s :
    c <> dollar -> balanced payload s -> balanced payload (c :: s)
| balanced_inline p s :
    payload p = true -> balanced payload s ->
    balanced payload (dollar :: p ++ dollar :: s)
| balanced_block p s :
    payload p = true -> balanced payload s ->
    balanced payload (dollar :: dollar :: p ++ dollar :: dollar :: s).

Definition one_line_expression (p : jsstring) : bool :=
  expression p && single_line p.

(** A text with a block formula on two lines, in the middle of a
    sentence. *)
Definition two_line_formula : jsstring :=
  lit "x $$a" ++ [10%N] ++ lit "b$$ y".

(** Two quote slides with the same title and the same first content entry:
    one has that entry alone, the other eight more entries after it. *)
Definition quote_alone : Slide :=
  sample_slide "quote" [lit "To be"].

Definition quote_with_extras : Slide :=
  sample_slide "quote" (lit "To be" :: repeat (lit "extra") 8).

(** * The application: App.tsx and services/geminiService.ts *)

(** ** More of the string and array library *)

Module JSText.

(** [s.trim()]. *)
Definition trim (s : jsstring) : jsstring :=
  rev (trimStart (rev (trimStart s))).

(** [s.split(sep)] for a separator of one code unit: the empty string
    gives one empty piece. *)
Fixpoint splitOn (sep : code_unit) (s : jsstring) : list jsstring :=
  match s with
  | [] => [[]]
  | c :: s' =>
      if (c =? sep)%N then [] :: splitOn sep s'
      else match splitOn sep s' with
           | piece :: pieces => (c :: piece) :: pieces
           | [] => [[c]]
           end
  end.

(** [arr.join(sep)]. *)
Fixpoint joinWith (sep : jsstring) (arr : list jsstring) : jsstring :=
  match arr with
  | [] => []
  | [x] => x
  | x :: rest => x ++ sep ++ joinWith sep rest
  end.

(** [s.includes(search)]. *)
Fixpoint includes (s search : jsstring) : bool :=
  is_prefix search s
  || match s with
     | [] => false
     | _ :: s' => includes s' search
     end.

(** [x || d] on an optional string: [undefined] and the empty string give
    the default. *)
Definition orElse (x : option jsstring) (d : jsstring) : jsstring :=
  match x with
  | Some (c :: s) => c :: s
  | _ => d
  end.

(** [s || undefined]. *)
Definition orUndefined (s : jsstring) : option jsstring :=
  match s with
  | [] => None
  | _ => Some s
  end.

(** [arr[i] = v] for an index inside the array (at the length, it
    appends). *)
Definition assign {A : Type} (arr : list A) (i : nat) (v : A) : list A :=
  firstn i arr ++ v :: skipn (S i) arr.

(** [arr.splice(start, 0, v)]: the start is clamped to the length. *)
Definition spliceIn {A : Type} (arr : list A) (start : nat) (v : A) : list A :=
  firstn start arr ++ v :: skipn start arr.

(** [arr.map((x, idx) => f(x, idx))]. *)
Fixpoint mapi_from {A B : Type} (f : A -> nat -> B) (idx : nat) (arr : list A)
  : list B :=
  match arr with
  | [] => []
  | x :: rest => f x idx :: mapi_from f (S idx) rest
  end.

Definition mapi {A B : Type} (f : A -> nat -> B) (arr : list A) : list B :=
  mapi_from f 0 arr.

End JSText.
Import JSText.

(** ** The documents of types.ts *)

Inductive PresentationStyle : Type :=
| Professional | Creative | Minimalist | Futuristic | Organic.

Module Palette.
Record ColorPalette : Type := {
  name : jsstring;
  primary : jsstring;
  secondary : jsstring;
  accent : jsstring;
  bg : jsstring;
  text : jsstring
}.
End Palette.

Module Source.
Record GroundingSource : Type := {
  title : jsstring;
  uri : jsstring
}.
End Source.

Module Deck.
Record Presentation : Type := {
  id : jsstring;
  title : jsstring;
  slides : list Slide;
  theme : PresentationStyle;
  palette : Palette.ColorPalette;
  sources : option (list Source.GroundingSource)
}.
End Deck.

(** [{ ...p, slides }]. *)
Definition with_slides (p : Deck.Presentation) (slides : list Slide)
  : Deck.Presentation :=
  {| Deck.id := Deck.id p; Deck.title := Deck.title p; Deck.slides := slides;
     Deck.theme := Deck.theme p; Deck.palette := Deck.palette p;
     Deck.sources := Deck.sources p |}.

(** ** The state of the App component

    The state variables that the handlers below read or write.  The
    spinners, the menus and the export progress are left out.  The slide
    index is only ever set to 0, to an array index, or moved by one behind
    a guard: it is a natural number. *)
Record AppState : Type := {
  presentation : option Deck.Presentation;
  currentSlideIndex : nat;
  editTitle : jsstring;
  editSubtitle : jsstring;
  editContentText : jsstring;
  isModified : bool;
  newSlideTitle : jsstring;
  newSlideLayout : jsstring;
  isAddingSlide : bool;
  editPrompt : jsstring
}.

Definition setPresentation (v : option Deck.Presentation) (st : AppState)
  : AppState :=
  {| presentation := v; currentSlideIndex := currentSlideIndex st;
     editTitle := editTitle st; editSubtitle := editSubtitle st;
     editContentText := editContentText st; isModified := isModified st;
     newSlideTitle := newSlideTitle st; newSlideLayout := newSlideLayout st;
     isAddingSlide := isAddingSlide st; editPrompt := editPrompt st |}.

Definition setCurrentSlideIndex (v : nat) (st : AppState) : AppState :=
  {| presentation := presentation st; currentSlideIndex := v;
     editTitle := editTitle st; editSubtitle := editSubtitle st;
     editContentText := editContentText st; isModified := isModified st;
     newSlideTitle := newSlideTitle st; newSlideLayout := newSlideLayout st;
     isAddingSlide := isAddingSlide st; editPrompt := editPrompt st |}.

Definition setEditTitle (v : jsstring) (st : AppState) : AppState :=
  {| presentation := presentation st;
     currentSlideIndex := currentSlideIndex st;
     editTitle := v; editSubtitle := editSubtitle st;
     editContentText := editContentText st; isModified := isModified st;
     newSlideTitle := newSlideTitle st; newSlideLayout := newSlideLayout st;
     isAddingSlide := isAddingSlide st; editPrompt := editPrompt st |}.

Definition setEditSubtitle (v : jsstring) (st : AppState) : AppState :=
  {| presentation := presentation st;
     currentSlideIndex := currentSlideIndex st;
     editTitle := editTitle st; editSubtitle := v;
     editContentText := editContentText st; isModified := isModified st;
     newSlideTitle := newSlideTitle st; newSlideLayout := newSlideLayout st;
     isAddingSlide := isAddingSlide st; editPrompt := editPrompt st |}.

Definition setEditContentText (v : jsstring) (st : AppState) : AppState :=
  {| presentation := presentation st;
     currentSlideIndex := currentSlideIndex st;
     editTitle := editTitle st; editSubtitle := editSubtitle st;
     editContentText := v; isModified := isModified st;
     newSlideTitle := newSlideTitle st; newSlideLayout := newSlideLayout st;
     isAddingSlide := isAddingSlide st; editPrompt := editPrompt st |}.

Definition setIsModified (v : bool) (st : AppState) : AppState :=
  {| presentation := presentation st;
     currentSlideIndex := currentSlideIndex st;
     editTitle := editTitle st; editSubtitle := editSubtitle st;
     editContentText := editContentText st; isModified := v;
     newSlideTitle := newSlideTitle st; newSlideLayout := newSlideLayout st;
     isAddingSlide := isAddingSlide st; editPrompt := editPrompt st |}.

Definition setNewSlideTitle (v : jsstring) (st : AppState) : AppState :=
  {| presentation := presentation st;
     currentSlideIndex := currentSlideIndex st;
     editTitle := editTitle st; editSubtitle := editSubtitle st;
     editContentText := editContentText st; isModified := isModified st;
     newSlideTitle := v; newSlideLayout := newSlideLayout st;
     isAddingSlide := isAddingSlide st; editPrompt := editPrompt st |}.

Definition setIsAddingSlide (v : bool) (st : AppState) : AppState :=
  {| presentation := presentation st;
     currentSlideIndex := currentSlideIndex st;
     editTitle := editTitle st; editSubtitle := editSubtitle st;
     editContentText := editContentText st; isModified := isModified st;
     newSlideTitle := newSlideTitle st; newSlideLayout := newSlideLayout st;
     isAddingSlide := v; editPrompt := editPrompt st |}.

Definition setEditPrompt (v : jsstring) (st : AppState) : AppState :=
  {| presentation := presentation st;
     currentSlideIndex := currentSlideIndex st;
     editTitle := editTitle st; editSubtitle := editSubtitle st;
     editContentText := editContentText st; isModified := isModified st;
     newSlideTitle := newSlideTitle st; newSlideLayout := newSlideLayout st;
     isAddingSlide := isAddingSlide st; editPrompt := v |}.

(** ** The editor: text and bullet list *)

(** [slide.content.join('\n')], the text that the editor shows. *)
Definition contentToText (entries : list jsstring) : jsstring :=
  joinWith [10%N] entries.

(** [editContentText.split('\n').filter(line => line.trim() !== '')], the
    bullet list that the editor saves. *)
Definition textToContent (editContentText : jsstring) : list jsstring :=
  filter (fun line => negb (JS.eqb (trim line) []))
         (splitOn 10%N editContentText).

(** The effect that follows a change of the slide index or of the
    presentation: the edit fields are loaded from the current slide. *)
Definition syncEditFields (st : AppState) : AppState :=
  match presentation st with
  | None => st
  | Some p =>
      match nth_error (Deck.slides p) (currentSlideIndex st) with
      | None => st
      | Some slide =>
          setIsModified false
            (setEditContentText (contentToText (content slide))
               (setEditSubtitle (orElse (subtitle slide) [])
                  (setEditTitle (title slide) st)))
      end
  end.

(** ** The handlers

    A handler that writes [updatedSlides[currentSlideIndex]] is modelled
    for an index inside the array.  Past the end, [currentSlide] is
    [undefined]: [handleToggleImage], [handleImageUpload] and
    [handleEditImage] throw a TypeError on its fields, and
    [handleSaveSlideContent] writes an object with neither [id] nor
    [layout], which is no [Slide].  The result is [None] there. *)

Definition handleSaveSlideContent (st : AppState) : option AppState :=
  match presentation st with
  | None => Some st
  | Some p =>
      let updatedSlides := Deck.slides p in
      match nth_error updatedSlides (currentSlideIndex st) with
      | None => None
      | Some currentSlide =>
          let updatedSlides :=
            assign updatedSlides (currentSlideIndex st)
              {| id := id currentSlide;
                 title := editTitle st;
                 subtitle := orUndefined (editSubtitle st);
                 content := textToContent (editContentText st);
                 layout := layout currentSlide;
                 notes := notes currentSlide;
                 imageUrl := imageUrl currentSlide;
                 imagePrompt := imagePrompt currentSlide |} in
          Some (setIsModified false
                  (setPresentation (Some (with_slides p updatedSlides)) st))
      end
  end.

(** The slide that [handleAddSlide] builds; [uuid] is the value of
    [crypto.randomUUID()]. *)
Definition newSlide (uuid : jsstring) (st : AppState) : Slide :=
  {| id := uuid;
     title := orElse (Some (newSlideTitle st)) (lit "New Slide");
     subtitle := None;
     content := [lit "Start typing your content here..."];
     layout := newSlideLayout st;
     notes := Some (lit "Custom added slide.");
     imageUrl := None;
     imagePrompt := None |}.

Definition handleAddSlide (uuid : jsstring) (st : AppState) : AppState :=
  match presentation st with
  | None => st
  | Some p =>
      let updatedSlides :=
        spliceIn (Deck.slides p) (currentSlideIndex st + 1)
                 (newSlide uuid st) in
      setNewSlideTitle []
        (setIsAddingSlide false
           (setCurrentSlideIndex (currentSlideIndex st + 1)
              (setPresentation (Some (with_slides p updatedSlides)) st)))
  end.

Definition nextSlide (st : AppState) : AppState :=
  match presentation st with
  | None => st
  | Some p =>
      if (Z.of_nat (currentSlideIndex st)
          <? Z.of_nat (length (Deck.slides p)) - 1)%Z
      then setCurrentSlideIndex (currentSlideIndex st + 1) st
      else st
  end.

Definition prevSlide (st : AppState) : AppState :=
  if (0 <? currentSlideIndex st)%nat
  then setCurrentSlideIndex (currentSlideIndex st - 1) st
  else st.

(** The default prompt of [handleToggleImage]. *)
Definition defaultImagePrompt (s : Slide) : jsstring :=
  lit "A professional visual representation of: " ++ title s ++ lit ". "
  ++ joinWith (lit " ") (content s).

(** [newImageUrl] is what [generateSlideImage(prompt)] resolves to. *)
Definition handleToggleImage (newImageUrl : jsstring -> option jsstring)
           (st : AppState) : option AppState :=
  match presentation st with
  | None => Some st
  | Some p =>
      match nth_error (Deck.slides p) (currentSlideIndex st) with
      | None => None
      | Some currentSlide =>
          let updatedSlides := Deck.slides p in
          match imageUrl currentSlide with
          | Some (_ :: _) =>
              let updatedSlides :=
                assign updatedSlides (currentSlideIndex st)
                  {| id := id currentSlide;
                     title := title currentSlide;
                     subtitle := subtitle currentSlide;
                     content := content currentSlide;
                     layout := lit "content";
                     notes := notes currentSlide;
                     imageUrl := None;
                     imagePrompt := None |} in
              Some (setPresentation (Some (with_slides p updatedSlides)) st)
          | _ =>
              let prompt :=
                orElse (imagePrompt currentSlide)
                       (defaultImagePrompt currentSlide) in
              match newImageUrl prompt with
              | Some (c :: url) =>
                  let updatedSlides :=
                    assign updatedSlides (currentSlideIndex st)
                      {| id := id currentSlide;
                         title := title currentSlide;
                         subtitle := subtitle currentSlide;
                         content := content currentSlide;
                         layout := lit "image-right";
                         notes := notes currentSlide;
                         imageUrl := Some (c :: url);
                         imagePrompt := Some prompt |} in
                  Some (setPresentation
                          (Some (with_slides p updatedSlides)) st)
              | _ => Some st
              end
          end
      end
  end.

(** [base64] is the data URL that the file reader hands to [onload]. *)
Definition handleImageUpload (base64 : jsstring) (st : AppState)
  : option AppState :=
  match presentation st with
  | None => Some st
  | Some p =>
      let updatedSlides := Deck.slides p in
      match nth_error updatedSlides (currentSlideIndex st) with
      | None => None
      | Some currentSlide =>
          let updatedSlides :=
            assign updatedSlides (currentSlideIndex st)
              {| id := id currentSlide;
                 title := title currentSlide;
                 subtitle := subtitle currentSlide;
                 content := content currentSlide;
                 layout := if includes (layout currentSlide) (lit "image")
                           then layout currentSlide
                           else lit "image-right";
                 notes := notes currentSlide;
                 imageUrl := Some base64;
                 imagePrompt := imagePrompt currentSlide |} in
          Some (setPresentation (Some (with_slides p updatedSlides)) st)
      end
  end.

(** [editSlideImage] is the service call, on the image and the prompt. *)
Definition handleEditImage
           (editSlideImage : jsstring -> jsstring -> option jsstring)
           (st : AppState) : option AppState :=
  match presentation st with
  | None => Some st
  | Some p =>
      if JS.eqb (trim (editPrompt st)) [] then Some st else
      match nth_error (Deck.slides p) (currentSlideIndex st) with
      | None => None
      | Some currentSlide =>
          match imageUrl currentSlide with
          | Some (c :: url) =>
              match editSlideImage (c :: url) (editPrompt st) with
              | Some (d :: newUrl) =>
                  let updatedSlides :=
                    assign (Deck.slides p) (currentSlideIndex st)
                      {| id := id currentSlide;
                         title := title currentSlide;
                         subtitle := subtitle currentSlide;
                         content := content currentSlide;
                         layout := layout currentSlide;
                         notes := notes currentSlide;
                         imageUrl := Some (d :: newUrl);
                         imagePrompt := imagePrompt currentSlide |} in
                  Some (setEditPrompt []
                          (setPresentation
                             (Some (with_slides p updatedSlides)) st))
              | _ => Some st
              end
          | _ => Some st
          end
      end
  end.

(** The two layout buttons under an image:
    [p.slides.map((s, idx) => idx === currentSlideIndex
                              ? { ...s, layout: l } : s)]. *)
Definition chooseLayout (l : jsstring) (st : AppState) : AppState :=
  match presentation st with
  | None => st
  | Some p =>
      setPresentation
        (Some (with_slides p
                 (mapi (fun s idx =>
                          if (idx =? currentSlideIndex st)%nat
                          then with_layout s l else s)
                       (Deck.slides p))))
        st
  end.

(** The thumbnail rail: [setCurrentSlideIndex(idx)]. *)
Definition selectSlide (idx : nat) (st : AppState) : AppState :=
  setCurrentSlideIndex idx st.

(** The image loop of [handleGenerate]: every slide whose layout includes
    "image" and that has a prompt gets the image that the service returns
    for it, if any.  [imageFor i prompt] is what the [i]-th call of
    [generateSlideImage] resolves to. *)
Definition withImage (imageFor : nat -> jsstring -> option jsstring)
           (slide : Slide) (i : nat) : Slide :=
  if includes (layout slide) (lit "image") then
    match imagePrompt slide with
    | Some (c :: prompt) =>
        match imageFor i (c :: prompt) with
        | Some (d :: url) =>
            {| id := id slide; title := title slide;
               subtitle := subtitle slide; content := content slide;
               layout := layout slide; notes := notes slide;
               imageUrl := Some (d :: url);
               imagePrompt := imagePrompt slide |}
        | _ => slide
        end
    | _ => slide
    end
  else slide.

Definition slidesWithImages (imageFor : nat -> jsstring -> option jsstring)
           (slides : list Slide) : list Slide :=
  mapi (withImage imageFor) slides.

(** The name of the exported PDF:
    [`${title.replace(/\s+/g, '_')}_Presentation.pdf`].  [inRun] tells that
    the matched run of white space has begun. *)
Fixpoint replaceSpaceRuns (inRun : bool) (s : jsstring) : jsstring :=
  match s with
  | [] => []
  | c :: s' =>
      if isWhiteSpace c then
        if inRun then replaceSpaceRuns true s'
        else 95%N :: replaceSpaceRuns true s'
      else c :: replaceSpaceRuns false s'
  end.

Definition pdfFileName (title : jsstring) : jsstring :=
  replaceSpaceRuns false title ++ lit "_Presentation.pdf".

(** The loop of [handleExportPDF]: for every index in turn,
    [setCurrentSlideIndex(i)] and, after the wait, the capture of the main
    view, which shows [presentation.slides[currentSlideIndex]]; every
    capture is taken to succeed.  The result is the slides captured, page
    by page, and the state after the loop. *)
Definition capturePage (acc : list (option Slide) * AppState) (i : nat)
  : list (option Slide) * AppState :=
  let st := setCurrentSlideIndex i (snd acc) in
  (fst acc ++ [match presentation st with
               | Some p => nth_error (Deck.slides p) (currentSlideIndex st)
               | None => None
               end], st).

Definition handleExportPDF (st : AppState)
  : list (option Slide) * AppState :=
  match presentation st with
  | None => ([], st)
  | Some p =>
      let totalSlides := length (Deck.slides p) in
      fold_left capturePage (seq 0 totalSlides) ([], st)
  end.

(** ** services/geminiService.ts *)

(** A part of a response: [inlineData] carries the image data. *)
Record Part : Type := {
  inlineData : option jsstring;
  partText : option jsstring
}.

(** The loop over [response.candidates?.[0]?.content?.parts || []] of
    [generateSlideImage] and [editSlideImage]: the first part with inline
    data, as a data URL. *)
Fixpoint firstInlineImage (parts : list Part) : option jsstring :=
  match parts with
  | [] => None
  | part :: rest =>
      match inlineData part with
      | Some data => Some (lit "data:image/png;base64," ++ data)
      | None => firstInlineImage rest
      end
  end.

Definition imageOfResponse (parts : option (list Part)) : option jsstring :=
  firstInlineImage (match parts with Some l => l | None => [] end).

(** [base64Image.split(',')[1] || base64Image] of [editSlideImage]. *)
Definition cleanBase64 (base64Image : jsstring) : jsstring :=
  orElse (nth_error (splitOn 44%N base64Image) 1) base64Image.

(** A grounding chunk of the response. *)
Record WebChunk : Type := {
  webTitle : option jsstring;
  webUri : option jsstring
}.

Record GroundingChunk : Type := {
  web : option WebChunk
}.

(** The [forEach] of [generatePresentation] over the grounding chunks. *)
Definition pushSource (sources : list Source.GroundingSource)
           (chunk : GroundingChunk) : list Source.GroundingSource :=
  match web chunk with
  | Some w =>
      match webUri w with
      | Some (c :: u) =>
          sources ++ [{| Source.title := orElse (webTitle w) (lit "Source");
                         Source.uri := c :: u |}]
      | _ => sources
      end
  | None => sources
  end.

Definition extractSources (chunks : option (list GroundingChunk))
  : option (list Source.GroundingSource) :=
  let sources :=
    match chunks with
    | Some l => fold_left pushSource l []
    | None => []
    end in
  match sources with
  | [] => None
  | _ => Some sources
  end.

(** The parsed response of [generatePresentation]. *)
Record PresentationData : Type := {
  dataTitle : option jsstring;
  dataSlides : option (list Slide)
}.

(** What [generatePresentation] returns, from the parsed response, the
    grounding chunks and the value of [crypto.randomUUID()]. *)
Definition presentationOfResponse (uuid : jsstring)
           (data : PresentationData)
           (chunks : option (list GroundingChunk))
           (style : PresentationStyle) (palette : Palette.ColorPalette)
  : Deck.Presentation :=
  {| Deck.id := uuid;
     Deck.title := orElse (dataTitle data) (lit "Untitled Presentation");
     Deck.slides := match dataSlides data with Some l => l | None => [] end;
     Deck.theme := style;
     Deck.palette := palette;
     Deck.sources := extractSources chunks |}.

(** The first steps of [handleGenerate] once the presentation has arrived:
    [setPresentation(newPres); setCurrentSlideIndex(0)]. *)
Definition showGenerated (newPres : Deck.Presentation) (st : AppState)
  : AppState :=
  setCurrentSlideIndex 0 (setPresentation (Some newPres) st).

(** [setPresentation(null)], the "New Project" button. *)
Definition newProject (st : AppState) : AppState :=
  setPresentation None st.

(** The update of the image loop of [handleGenerate], with the list that
    the loop has built from the generated slides:
    [setPresentation(prev => prev ? { ...prev, slides: [...slidesWithImages] }
                                  : null)]. *)
Definition imageArrived (slidesWithImages : list Slide) (st : AppState)
  : AppState :=
  setPresentation
    (match presentation st with
     | Some prev => Some (with_slides prev slidesWithImages)
     | None => None
     end) st.

(** The address that a grounding chunk adds to the sources: none for a
    chunk without a web entry or with an empty address. *)
Definition chunkUri (chunk : GroundingChunk) : list jsstring :=
  match web chunk with
  | Some w =>
      match webUri w with
      | Some (c :: u) => [c :: u]
      | _ => []
      end
  | None => []
  end.

(** What [regenerateSlideContent] parses from the response: a partial
    slide, with the fields of the response schema. *)
Record SlideUpdate : Type := {
  newTitle : option jsstring;
  newSubtitle : option jsstring;
  newContent : option (list jsstring);
  newImagePrompt : option jsstring
}.

(** [handleRegenerateContent], past its test of the prompt and of the busy
    flag.  [regenerateSlideContent] is the service call on the current
    slide; [None] is a result that [if (result)] rejects or a rejected
    promise, which the handler catches.  Without a current slide the
    service throws on [currentSlide.title], inside the handler's [try]. *)
Definition handleRegenerateContent
           (regenerateSlideContent : Slide -> option SlideUpdate)
           (st : AppState) : AppState :=
  match presentation st with
  | None => st
  | Some p =>
      match nth_error (Deck.slides p) (currentSlideIndex st) with
      | None => st
      | Some currentSlide =>
          match regenerateSlideContent currentSlide with
          | None => st
          | Some result =>
              setIsModified true
                (setEditContentText
                   (orElse (option_map contentToText (newContent result))
                           (editContentText st))
                   (setEditSubtitle
                      (orElse (newSubtitle result) (editSubtitle st))
                      (setEditTitle
                         (orElse (newTitle result) (editTitle st)) st)))
          end
      end
  end.

(** The index stays inside the slides. *)
Definition indexInRange (st : AppState) : Prop :=
  match presentation st with
  | Some p => (currentSlideIndex st < length (Deck.slides p))%nat
  | None => True
  end.

(** The slide that the main view and the handlers work on. *)
Definition currentSlide (st : AppState) : option Slide :=
  match presentation st with
  | Some p => nth_error (Deck.slides p) (currentSlideIndex st)
  | None => None
  end.

(** One step of the editor that completes without waiting: a click on an
    arrow, on a thumbnail, on a layout button, on Save or on Add, the
    removal of an image (the branch of [handleToggleImage] that makes no
    request), the effect that loads the edit fields, typing into a field
    or a dialog, which leaves the presentation and the index alone, and
    "New Project".  The thumbnail rail offers the indices of the slides
    only.  What waits for a service, a file or a timer (the generation and
    its image loop, the generation and the edit of an image, the upload,
    the export) writes back what it has read before the wait, and is no
    step of this relation. *)
Inductive step (st : AppState) : AppState -> Prop :=
| step_nextSlide : step st (nextSlide st)
| step_prevSlide : step st (prevSlide st)
| step_selectSlide p idx :
    presentation st = Some p -> (idx < length (Deck.slides p))%nat ->
    step st (selectSlide idx st)
| step_addSlide uuid : step st (handleAddSlide uuid st)
| step_chooseLayout l : step st (chooseLayout l st)
| step_save st' : handleSaveSlideContent st = Some st' -> step st st'
| step_removeImage service cur c url st' :
    currentSlide st = Some cur -> imageUrl cur = Some (c :: url) ->
    handleToggleImage service st = Some st' -> step st st'
| step_sync : step st (syncEditFields st)
| step_typing st' :
    presentation st' = presentation st ->
    currentSlideIndex st' = currentSlideIndex st -> step st st'
| step_newProject : step st (newProject st).

(** Any number of such steps. *)
Inductive steps (st : AppState) : AppState -> Prop :=
| steps_none : steps st st
| steps_more st' st'' : steps st st' -> step st' st'' -> steps st st''.

(** The state in which the application starts. *)
Definition initialState : AppState :=
  {| presentation := None; currentSlideIndex := 0;
     editTitle := []; editSubtitle := []; editContentText := [];
     isModified := false; newSlideTitle := [];
     newSlideLayout := lit "content"; isAddingSlide := false;
     editPrompt := [] |}.

(** A click on an arrow, with the effect of the render that follows: the
    effect depends on [currentSlideIndex] and [presentation], so it runs
    when the click has moved the index. *)
Definition afterClick (st st' : AppState) : AppState :=
  if (currentSlideIndex st' =? currentSlideIndex st)%nat then st'
  else syncEditFields st'.

Definition clickNext (st : AppState) : AppState :=
  afterClick st (nextSlide st).

Definition clickPrev (st : AppState) : AppState :=
  afterClick st (prevSlide st).

(** Two states with the same slide index and as many slides. *)
Definition sameShape (st st' : AppState) : Prop :=
  currentSlideIndex st' = currentSlideIndex st
  /\ match presentation st, presentation st' with
     | Some p, Some p' => length (Deck.slides p') = length (Deck.slides p)
     | None, None => True
     | _, _ => False
     end.

(** A presentation of two slides, and the state that shows its second
    slide. *)
Definition sample_palette : Palette.ColorPalette :=
  {| Palette.name := lit "Deep Sea"; Palette.primary := lit "#1e3a8a";
     Palette.secondary := lit "#1e40af"; Palette.accent := lit "#3b82f6";
     Palette.bg := lit "#f8fafc"; Palette.text := lit "#0f172a" |}.

Definition sample_presentation : Deck.Presentation :=
  {| Deck.id := lit "deck-1"; Deck.title := lit "My  first deck";
     Deck.slides := [sample_slide "title" [];
                     sample_slide "quote" [lit "To be"]];
     Deck.theme := Professional; Deck.palette := sample_palette;
     Deck.sources := None |}.

Definition sample_state : AppState :=
  nextSlide (showGenerated sample_presentation initialState).

(** A slide with an image on its left, and the state that shows it. *)
Definition image_slide : Slide :=
  {| id := lit "slide-3"; title := lit "Chart"; subtitle := None;
     content := [lit "One bar per year"]; layout := lit "image-left";
     notes := None;
     imageUrl := Some (lit "data:image/png;base64,AAAA");
     imagePrompt := Some (lit "a bar chart") |}.

Definition image_state : AppState :=
  showGenerated (with_slides sample_presentation [image_slide]) initialState.

(** A state with unsaved edits on the first of the two slides. *)
Definition edited_state : AppState :=
  setIsModified true
    (setEditTitle (lit "Draft")
       (syncEditFields (showGenerated sample_presentation initialState))).

(** A refinement of the quote slide, a response with two parts and the
    grounding chunks of a response. *)
Definition sample_update : SlideUpdate :=
  {| newTitle := Some (lit "Hamlet"); newSubtitle := None;
     newContent := Some [lit "or not to be"];
     newImagePrompt := Some (lit "a skull") |}.

Definition sample_parts : list Part :=
  [{| inlineData := None; partText := Some (lit "Here it is") |};
   {| inlineData := Some (lit "iVBORw0KGgo="); partText := None |}].

(** * Properties *)

(** ** The arithmetic of the doubles

    The operations of [SpecFloat] round the exact result to the nearest
    double; what follows is proved from their definitions. *)

Section Rounding.
Import SpecFloat.
Local Open Scope Q_scope.

Lemma p2_pos e : 0 < p2 e.
Proof. apply Qpower_0_lt. reflexivity. Qed.

Lemma p2_add a b : p2 (a + b) == p2 a * p2 b.
Proof. apply Qpower_plus. discriminate. Qed.

Lemma p2_0 : p2 0 == 1.
Proof. reflexivity. Qed.

Lemma p2_1 : p2 1 == 2.
Proof. reflexivity. Qed.

Lemma p2_S e : p2 (e + 1) == 2 * p2 e.
Proof. rewrite p2_add, p2_1. ring. Qed.

Lemma p2_sub a b : p2 (a - b) == p2 a / p2 b.
Proof.
  unfold Z.sub. rewrite p2_add. unfold p2 at 2. rewrite Qpower_opp.
  reflexivity.
Qed.

Lemma p2_lt a b : (a < b)%Z -> p2 a < p2 b.
Proof. intros H. apply Qpower_lt_compat_l; [exact H | reflexivity]. Qed.

Lemma p2_le a b : (a <= b)%Z -> p2 a <= p2 b.
Proof. intros H. apply Qpower_le_compat_l; [exact H | discriminate]. Qed.

Lemma p2_Z n : (0 <= n)%Z -> p2 n == inject_Z (2 ^ n).
Proof. intros H. unfold p2. rewrite Zpower_Qpower by exact H. reflexivity. Qed.

Lemma p2_lt_inv a b : p2 a < p2 b -> (a < b)%Z.
Proof.
  intros H. destruct (Z_lt_le_dec a b) as [L|L]; [exact L|].
  apply p2_le in L. lra.
Qed.

Lemma p2_le_inv a b : p2 a <= p2 b -> (a <= b)%Z.
Proof.
  intros H. destruct (Z_le_gt_dec a b) as [L|L]; [exact L|].
  apply Z.gt_lt, p2_lt in L. lra.
Qed.

(** Small integer constants inside [inject_Z], for the arithmetic tactics. *)
Ltac qz :=
  change (inject_Z 0) with 0 in *; change (inject_Z 1) with 1 in *;
  change (inject_Z 2) with 2 in *.

(** digits *)
Lemma digits2_pos_spec (m : positive) :
  (2 ^ (Zpos (digits2_pos m) - 1) <= Zpos m < 2 ^ Zpos (digits2_pos m))%Z.
Proof.
  induction m as [m IH|m IH|]; cbn [digits2_pos].
  - rewrite Pos2Z.inj_succ.
    replace (Z.succ (Z.pos (digits2_pos m)) - 1)%Z
      with (Z.succ (Z.pos (digits2_pos m) - 1))%Z by lia.
    rewrite !Z.pow_succ_r by lia. lia.
  - rewrite Pos2Z.inj_succ.
    replace (Z.succ (Z.pos (digits2_pos m)) - 1)%Z
      with (Z.succ (Z.pos (digits2_pos m) - 1))%Z by lia.
    rewrite !Z.pow_succ_r by lia. lia.
  - simpl. lia.
Qed.

Lemma digits_unique (m : positive) (d : Z) :
  (2 ^ (d - 1) <= Zpos m < 2 ^ d)%Z -> Zpos (digits2_pos m) = d.
Proof.
  intros [L U]. pose proof (digits2_pos_spec m) as [L' U'].
  assert (0 < d)%Z.
  { destruct (Z_lt_le_dec 0 d) as [P|P]; [exact P|].
    destruct (Z.eq_dec d 0) as [->|N]; [simpl in U; lia|].
    rewrite Z.pow_neg_r in U by lia. lia. }
  destruct (Z.lt_trichotomy (Zpos (digits2_pos m)) d) as [C|[C|C]];
    [|exact C|].
  - assert (2 ^ Zpos (digits2_pos m) <= 2 ^ (d - 1))%Z
      by (apply Z.pow_le_mono_r; lia). lia.
  - assert (2 ^ d <= 2 ^ (Zpos (digits2_pos m) - 1))%Z
      by (apply Z.pow_le_mono_r; lia). lia.
Qed.

Lemma F2Q_bounds (m : positive) (e : Z) :
  p2 (Zpos (digits2_pos m) + e - 1) <= F2Q (Zpos m) e
  /\ F2Q (Zpos m) e < p2 (Zpos (digits2_pos m) + e).
Proof.
  pose proof (digits2_pos_spec m) as [L U].
  unfold F2Q.
  replace (Zpos (digits2_pos m) + e - 1)%Z
    with ((Zpos (digits2_pos m) - 1) + e)%Z by lia.
  rewrite !p2_add. pose proof (p2_pos e) as P.
  rewrite (@p2_Z (Z.pos (digits2_pos m) - 1)),
    (@p2_Z (Z.pos (digits2_pos m))) by lia.
  rewrite Zle_Qle in L. rewrite Zlt_Qlt in U.
  split.
  - apply Qmult_le_compat_r; lra.
  - apply Qmult_lt_compat_r; lra.
Qed.

Lemma mag_spec (x : Q) : 0 < x -> p2 (mag x - 1) <= x /\ x < p2 (mag x).
Proof.
  intros H. destruct x as [n d]. 
  assert (Hn : (0 < n)%Z) by (unfold Qlt in H; simpl in H; lia).
  unfold mag. cbn [Qnum Qden].
  set (ln := Z.log2 n). set (ld := Z.log2 (Zpos d)).
  destruct (Z.log2_spec n Hn) as [Ln Un]. fold ln in Ln, Un.
  destruct (Z.log2_spec (Zpos d) eq_refl) as [Ld Ud]. fold ld in Ld, Ud.
  assert (Hln : (0 <= ln)%Z) by apply Z.log2_nonneg.
  assert (Hld : (0 <= ld)%Z) by apply Z.log2_nonneg.
  assert (E : n # d == inject_Z n / inject_Z (Zpos d)) by apply Qmake_Qdiv.
  assert (Dpos : 0 < inject_Z (Zpos d)) by (rewrite <- (Zlt_Qlt 0); lia).
  rewrite Zle_Qle in Ln, Ld. rewrite Zlt_Qlt in Un, Ud.
  rewrite <- !p2_Z in Ln, Ld by lia.
  replace (Z.succ ln) with (ln + 1)%Z in Un by lia.
  replace (Z.succ ld) with (ld + 1)%Z in Ud by lia.
  rewrite <- !p2_Z in Un, Ud by lia.
  rewrite p2_S in Un, Ud.
  pose proof (p2_pos ln) as Pn. pose proof (p2_pos ld) as Pd.
  pose proof (p2_pos (ln - ld)) as Pk.
  assert (K : p2 (ln - ld) * p2 ld == p2 ln)
    by (rewrite <- p2_add; apply Qpower_comp_eq || (f_equiv; lia) ).
  assert (X : (n # d) * inject_Z (Zpos d) == inject_Z n)
    by (rewrite E; field; lra).
  destruct (Qle_bool (p2 (ln - ld)) (n # d)) eqn:C.
  - apply Qle_bool_iff in C.
    replace (ln - ld + 1 - 1)%Z with (ln - ld)%Z by lia.
    split; [exact C|]. rewrite p2_S. nra.
  - assert (C' : n # d < p2 (ln - ld)).
    { apply Qnot_le_lt. intros A. apply Qle_bool_iff in A. congruence. }
    split; [|exact C'].
    assert (K' : 2 * p2 (ln - ld - 1) == p2 (ln - ld)).
    { rewrite <- p2_S. replace (ln - ld - 1 + 1)%Z with (ln - ld)%Z by lia.
      reflexivity. }
    nra.
Qed.

Lemma mag_unique (x : Q) (k : Z) :
  p2 (k - 1) <= x -> x < p2 k -> mag x = k.
Proof.
  intros L U.
  assert (H : 0 < x) by (pose proof (p2_pos (k - 1)); lra).
  destruct (@mag_spec x H) as [L' U'].
  assert (A : (k - 1 < mag x)%Z) by (apply p2_lt_inv; lra).
  assert (B : (mag x - 1 < k)%Z) by (apply p2_lt_inv; lra).
  lia.
Qed.

Lemma mag_comp (x y : Q) : 0 < x -> x == y -> mag x = mag y.
Proof.
  intros H E. destruct (@mag_spec x H) as [L U].
  symmetry. apply mag_unique; lra.
Qed.

Lemma mag_mono (x y : Q) : 0 < x -> x <= y -> (mag x <= mag y)%Z.
Proof.
  intros H L. destruct (@mag_spec x H) as [Lx Ux].
  assert (Hy : 0 < y) by lra. destruct (@mag_spec y Hy) as [Ly Uy].
  assert (A : (mag x - 1 < mag y)%Z) by (apply p2_lt_inv; lra). lia.
Qed.

Lemma mag_F2Q (m : positive) (e : Z) :
  mag (F2Q (Zpos m) e) = (Zpos (digits2_pos m) + e)%Z.
Proof.
  destruct (F2Q_bounds m e) as [L U]. apply mag_unique; assumption.
Qed.

Lemma fexp64_spec k : fexp 53 1024 k = fexp64 k.
Proof. reflexivity. Qed.

Lemma fexp64_mono a b : (a <= b)%Z -> (fexp64 a <= fexp64 b)%Z.
Proof. unfold fexp64. lia. Qed.

Lemma Qfloor_unique (x : Q) (n : Z) :
  inject_Z n <= x -> x < inject_Z n + 1 -> Qfloor x = n.
Proof.
  intros L U.
  pose proof (Qfloor_le x) as A. pose proof (Qlt_floor x) as B.
  rewrite inject_Z_plus in B. change (inject_Z 1) with 1 in B.
  assert (C : inject_Z n < inject_Z (Qfloor x) + 1) by lra.
  assert (D : inject_Z (Qfloor x) < inject_Z n + 1) by lra.
  change 1 with (inject_Z 1) in C, D.
  rewrite <- inject_Z_plus in C, D. rewrite <- Zlt_Qlt in C, D. lia.
Qed.

Lemma rne_comp (x y : Q) : x == y -> rne x = rne y.
Proof.
  intros E. unfold rne. rewrite (Qfloor_comp _ _ E).
  assert (E' : x - inject_Z (Qfloor y) == y - inject_Z (Qfloor y))
    by (rewrite E; reflexivity).
  rewrite (Qcompare_comp _ _ E' (1#2) (1#2) (Qeq_refl _)). reflexivity.
Qed.

Lemma rne_bounds (x : Q) :
  (Qfloor x <= rne x <= Qfloor x + 1)%Z.
Proof.
  unfold rne. destruct (_ ?= _); [destruct (Z.even _)| |]; lia.
Qed.

Lemma rne_Z (n : Z) : rne (inject_Z n) = n.
Proof.
  unfold rne. rewrite Qfloor_Z.
  assert (E : inject_Z n - inject_Z n == 0) by ring.
  rewrite (Qcompare_comp _ _ E (1#2) (1#2) (Qeq_refl _)). reflexivity.
Qed.

Lemma rne_mono (x y : Q) : x <= y -> (rne x <= rne y)%Z.
Proof.
  intros L. pose proof (Qfloor_resp_le _ _ L) as F.
  pose proof (rne_bounds x) as Bx. pose proof (rne_bounds y) as By.
  destruct (Z.eq_dec (Qfloor x) (Qfloor y)) as [E|N]; [|lia].
  unfold rne. rewrite <- E.
  destruct (Qcompare_spec (x - inject_Z (Qfloor x)) (1 # 2)) as [Cx|Cx|Cx];
    destruct (Qcompare_spec (y - inject_Z (Qfloor x)) (1 # 2)) as [Cy|Cy|Cy];
    try (destruct (Z.even (Qfloor x))); try lia; exfalso; lra.
Qed.

Lemma rne_nonneg (x : Q) : 0 <= x -> (0 <= rne x)%Z.
Proof.
  intros H. pose proof (@rne_mono (inject_Z 0) x H) as M. rewrite (rne_Z 0) in M. exact M.
Qed.

Lemma rne_half_down (x : Q) : 0 <= x -> x <= 1 # 2 -> rne x = 0%Z.
Proof.
  intros L U. assert (F : Qfloor x = 0%Z) by (apply Qfloor_unique; unfold inject_Z; lra).
  unfold rne. rewrite F.
  destruct (Qcompare_spec (x - inject_Z 0) (1 # 2)) as [C|C|C];
    try reflexivity.
  exfalso. unfold inject_Z in C. lra.
Qed.

Lemma RN_0 (x : Q) : x == 0 -> RN x == 0.
Proof.
  intros E. unfold RN.
  assert (Z : x / p2 (fexp64 (mag x)) == inject_Z 0).
  { transitivity (0 / p2 (fexp64 (mag x))).
    - unfold Qdiv. apply Qmult_comp; [exact E | reflexivity].
    - unfold Qdiv, inject_Z. ring. }
  rewrite (@rne_comp _ _ Z), rne_Z. unfold inject_Z. ring.
Qed.

Lemma RN_nonneg (x : Q) : 0 <= x -> 0 <= RN x.
Proof.
  intros H. unfold RN. pose proof (p2_pos (fexp64 (mag x))) as P.
  assert (0 <= x / p2 (fexp64 (mag x))).
  { apply Qle_shift_div_l; [exact P|]. lra. }
  pose proof (@rne_nonneg _ H0) as R. rewrite Zle_Qle in R. qz.
  apply Qmult_le_0_compat; lra.
Qed.

Lemma RN_comp (x y : Q) : 0 <= x -> x == y -> RN x == RN y.
Proof.
  intros H E. destruct (Qlt_le_dec 0 x) as [P|Z].
  - unfold RN. rewrite (@mag_comp x y P E).
    assert (E' : x / p2 (fexp64 (mag y)) == y / p2 (fexp64 (mag y)))
      by (rewrite E; reflexivity).
    rewrite (@rne_comp _ _ E'). reflexivity.
  - assert (x == 0) by lra. rewrite (@RN_0 x H0).
    assert (y == 0) by lra. rewrite (@RN_0 y H1). reflexivity.
Qed.

(** an upper and a lower bound of the rounded value, by binades *)
Lemma RN_le_p2 (x : Q) (k : Z) :
  0 < x -> x <= p2 k -> (mag x <= k)%Z -> RN x <= p2 k.
Proof.
  intros H U M. unfold RN. set (E := fexp64 (mag x)).
  pose proof (p2_pos E) as P.
  destruct (Z_le_gt_dec E k) as [C|C].
  - assert (X : x / p2 E <= inject_Z (2 ^ (k - E))).
    { rewrite <- p2_Z by lia. rewrite p2_sub.
      apply Qmult_le_compat_r; [exact U|].
      apply Qlt_le_weak, Qinv_lt_0_compat, P. }
    pose proof (@rne_mono _ _ X) as R. rewrite rne_Z in R.
    rewrite Zle_Qle in R. rewrite <- p2_Z in R by lia.
    rewrite p2_sub in R.
    apply Qle_trans with (p2 k / p2 E * p2 E).
    + apply Qmult_le_compat_r; lra.
    + field_simplify; lra.
  - (* E > k: x / 2^E <= 1/2 *)
    assert (X : x / p2 E <= 1 # 2).
    { apply Qle_shift_div_r; [exact P|].
      assert (p2 (k + 1) <= p2 E) by (apply p2_le; lia).
      rewrite p2_S in H0. lra. }
    assert (X0 : 0 <= x / p2 E)
      by (apply Qle_shift_div_l; [exact P|]; lra).
    rewrite (@rne_half_down _ X0 X). pose proof (p2_pos k). qz. lra.
Qed.

Lemma RN_ge_p2 (x : Q) (k : Z) :
  p2 k <= x -> (fexp64 (mag x) <= k)%Z -> p2 k <= RN x.
Proof.
  intros L C. unfold RN. set (E := fexp64 (mag x)) in *.
  pose proof (p2_pos E) as P.
  assert (X : inject_Z (2 ^ (k - E)) <= x / p2 E).
  { rewrite <- p2_Z by lia. rewrite p2_sub.
    apply Qmult_le_compat_r; [exact L|].
    apply Qlt_le_weak, Qinv_lt_0_compat, P. }
  pose proof (@rne_mono _ _ X) as R. rewrite rne_Z in R.
  rewrite Zle_Qle in R. rewrite <- p2_Z in R by lia.
  rewrite p2_sub in R.
  apply Qle_trans with (p2 k / p2 E * p2 E).
  - field_simplify; lra.
  - apply Qmult_le_compat_r; lra.
Qed.

Lemma RN_mono (x y : Q) : 0 <= x -> x <= y -> RN x <= RN y.
Proof.
  intros H L. destruct (Qlt_le_dec 0 x) as [P|Z].
  2:{ assert (x == 0) by lra. rewrite (@RN_0 x H0). apply RN_nonneg. lra. }
  assert (Py : 0 < y) by lra.
  pose proof (@mag_mono x y P L) as M.
  destruct (@mag_spec x P) as [Lx Ux]. destruct (@mag_spec y Py) as [Ly Uy].
  destruct (Z.eq_dec (fexp64 (mag x)) (fexp64 (mag y))) as [E|N].
  - unfold RN. rewrite E. pose proof (p2_pos (fexp64 (mag y))) as Q.
    assert (X : x / p2 (fexp64 (mag y)) <= y / p2 (fexp64 (mag y))).
    { apply Qmult_le_compat_r; [exact L|].
      apply Qlt_le_weak, Qinv_lt_0_compat, Q. }
    pose proof (@rne_mono _ _ X) as R. rewrite Zle_Qle in R.
    apply Qmult_le_compat_r; lra.
  - assert (Mlt : (mag x < mag y)%Z).
    { destruct (Z.eq_dec (mag x) (mag y)) as [A|A]; [congruence|lia]. }
    apply Qle_trans with (p2 (mag x)).
    + apply RN_le_p2; [exact P | lra | lia].
    + apply Qle_trans with (p2 (mag y - 1)); [apply p2_le; lia|].
      apply RN_ge_p2; [exact Ly|]. unfold fexp64 in *. lia.
Qed.

Lemma inb_range (x : Q) (mrs : shr_record) :
  inb x mrs -> inject_Z (shr_m mrs) <= x /\ x < inject_Z (shr_m mrs) + 1.
Proof.
  unfold inb. destruct (shr_r mrs), (shr_s mrs); cbv zeta; intros H; lra.
Qed.

Lemma inject_xO (p : positive) : inject_Z (Zpos p~0) == 2 * inject_Z (Zpos p).
Proof. rewrite Pos2Z.inj_xO, inject_Z_mult. reflexivity. Qed.

Lemma inject_xI (p : positive) :
  inject_Z (Zpos p~1) == 2 * inject_Z (Zpos p) + 1.
Proof. rewrite Pos2Z.inj_xI, inject_Z_plus, inject_Z_mult. reflexivity. Qed.

Lemma shr_1_inb (x : Q) (mrs : shr_record) :
  (0 <= shr_m mrs)%Z -> inb x mrs ->
  inb (x / 2) (shr_1 mrs) /\ (0 <= shr_m (shr_1 mrs))%Z.
Proof.
  destruct mrs as [m r s]. cbn [shr_m]. intros Hm H.
  set (h := x / 2). assert (Hh : x == 2 * h) by (unfold h; field).
  clearbody h.
  destruct m as [|[p|p|]|p]; [| | | |lia];
    unfold inb in *; cbn [shr_1 shr_m shr_r shr_s orb] in *;
    try pose proof (inject_xO p) as O; try pose proof (inject_xI p) as I;
    (split; [|lia]);
    destruct r, s; cbn [orb] in *; qz; lra.
Qed.

Lemma inb_comp (x y : Q) (mrs : shr_record) : x == y -> inb x mrs -> inb y mrs.
Proof.
  intros E. unfold inb. destruct (shr_r mrs), (shr_s mrs); cbv zeta;
    intros H; lra.
Qed.

Lemma iter_pos_inb (n : positive) :
  forall (x : Q) (mrs : shr_record),
    (0 <= shr_m mrs)%Z -> inb x mrs ->
    inb (x / p2 (Zpos n)) (iter_pos shr_1 n mrs)
    /\ (0 <= shr_m (iter_pos shr_1 n mrs))%Z.
Proof.
  induction n as [n IH|n IH|]; intros x mrs Hm H; cbn [iter_pos].
  - destruct (@shr_1_inb x mrs Hm H) as [H1 M1].
    destruct (IH _ _ M1 H1) as [H2 M2].
    destruct (IH _ _ M2 H2) as [H3 M3].
    split; [|exact M3].
    assert (E : p2 (Zpos n~1) == 2 * p2 (Zpos n) * p2 (Zpos n)).
    { rewrite Pos2Z.inj_xI.
      replace (2 * Z.pos n + 1)%Z with (Z.pos n + Z.pos n + 1)%Z by lia.
      rewrite p2_S, p2_add. ring. }
    pose proof (p2_pos (Zpos n)) as P.
    assert (X : x / p2 (Zpos n~1) == x / 2 / p2 (Zpos n) / p2 (Zpos n))
      by (rewrite E; field; lra).
    apply (@inb_comp _ _ _ (Qeq_sym _ _ X) H3).
  - destruct (IH _ _ Hm H) as [H2 M2].
    destruct (IH _ _ M2 H2) as [H3 M3].
    split; [|exact M3].
    assert (E : p2 (Zpos n~0) == p2 (Zpos n) * p2 (Zpos n)).
    { rewrite Pos2Z.inj_xO.
      replace (2 * Z.pos n)%Z with (Z.pos n + Z.pos n)%Z by lia.
      rewrite p2_add. ring. }
    pose proof (p2_pos (Zpos n)) as P.
    assert (X : x / p2 (Zpos n~0) == x / p2 (Zpos n) / p2 (Zpos n))
      by (rewrite E; field; lra).
    apply (@inb_comp _ _ _ (Qeq_sym _ _ X) H3).
  - destruct (@shr_1_inb x mrs Hm H) as [H1 M1]. split; [|exact M1].
    change (p2 1) with 2. exact H1.
Qed.

Lemma shr_inb (x : Q) (mrs : shr_record) (e n : Z) :
  (0 <= shr_m mrs)%Z -> (0 <= n)%Z -> inb x mrs ->
  snd (shr mrs e n) = (e + n)%Z
  /\ inb (x / p2 n) (fst (shr mrs e n))
  /\ (0 <= shr_m (fst (shr mrs e n)))%Z.
Proof.
  intros Hm Hn H. destruct n as [|p|p]; [| |lia]; cbn [shr fst snd].
  - split; [lia|]. split; [|exact Hm].
    apply (@inb_comp x); [|exact H]. change (p2 0) with 1. field.
  - split; [reflexivity|]. apply iter_pos_inb; assumption.
Qed.

(** Rounding the shifted mantissa by its location is [rne]. *)
Lemma round_inb (x : Q) (mrs : shr_record) :
  inb x mrs ->
  round_nearest_even (shr_m mrs) (loc_of_shr_record mrs) = rne x.
Proof.
  intros H. pose proof (@inb_range x mrs H) as [L U].
  pose proof (@Qfloor_unique x (shr_m mrs) L U) as F.
  destruct mrs as [m r s]. unfold inb in H. cbn [shr_m shr_r shr_s] in *.
  unfold rne. rewrite F.
  destruct (Qcompare_spec (x - inject_Z m) (1 # 2)) as [C|C|C];
    destruct r, s; cbn [loc_of_shr_record round_nearest_even];
    try reflexivity; exfalso; lra.
Qed.

(** The record of a location. *)
Lemma record_of_loc (m : Z) (l : location) :
  shr_m (shr_record_of_loc m l) = m.
Proof. destruct l as [|[| |]]; reflexivity. Qed.

Lemma bounded_spec (m : positive) (e : Z) :
  bounded 53 1024 m e = true
  <-> fexp64 (Zpos (digits2_pos m) + e) = e /\ (e <= 971)%Z.
Proof.
  unfold bounded, canonical_mantissa. rewrite andb_true_iff, Z.eqb_eq, Z.leb_le.
  rewrite fexp64_spec. reflexivity.
Qed.

Lemma inb_scaled (x : Q) (m e : Z) (l : location) :
  inb (x / p2 e) (shr_record_of_loc m l) ->
  F2Q m e <= x /\ x < F2Q (m + 1) e.
Proof.
  intros H. pose proof (@inb_range _ _ H) as [L U].
  rewrite record_of_loc in L, U. pose proof (p2_pos e) as P.
  unfold F2Q. rewrite inject_Z_plus. qz.
  assert (X : x == x / p2 e * p2 e) by (field; lra).
  split.
  - apply Qle_trans with (x / p2 e * p2 e); [|lra].
    apply Qmult_le_compat_r; lra.
  - apply Qle_lt_trans with (x / p2 e * p2 e); [lra|].
    apply Qmult_lt_compat_r; lra.
Qed.

Lemma shift_target (x : Q) (m e : Z) (l : location) :
  (0 <= m)%Z -> 0 < x ->
  inb (x / p2 e) (shr_record_of_loc m l) ->
  (e <= fexp64 (mag x))%Z ->
  fexp64 (Zdigits2 m + e) = fexp64 (mag x).
Proof.
  intros Hm Hx H He. destruct (@inb_scaled x m e l H) as [L U].
  destruct m as [|p|p]; [| |lia].
  - (* m = 0 *)
    cbn [Zdigits2]. unfold F2Q in U. cbn in U.
    assert (U' : x < p2 e) by (qz; lra).
    destruct (@mag_spec x Hx) as [Lx Ux].
    assert (A : (mag x - 1 < e)%Z) by (apply p2_lt_inv; lra).
    unfold fexp64 in *. lia.
  - cbn [Zdigits2]. f_equal. symmetry. apply mag_unique.
    + destruct (F2Q_bounds p e) as [B _]. lra.
    + pose proof (digits2_pos_spec p) as [_ D].
      assert (D' : (Zpos p + 1 <= 2 ^ Zpos (digits2_pos p))%Z) by lia.
      rewrite Zle_Qle in D'. rewrite <- p2_Z in D' by lia.
      rewrite p2_add. unfold F2Q in U. pose proof (p2_pos e) as P.
      apply Qlt_le_trans with (inject_Z (Zpos p + 1) * p2 e); [exact U|].
      apply Qmult_le_compat_r; lra.
Qed.

(** The second shift, of the rounded mantissa: at most by one place, and
    then the mantissa is 2^53. *)
Lemma second_shift (x : Q) (N : positive) :
  0 < x ->
  let E := fexp64 (mag x) in
  RN x == F2Q (Zpos N) E ->
  (fexp64 (Zpos (digits2_pos N) + E) = E)
  \/ (fexp64 (Zpos (digits2_pos N) + E) = E + 1
      /\ Zpos N = 2 ^ 53 /\ E = mag x - 53)%Z.
Proof.
  intros Hx E R. set (k := mag x) in *. set (d := Zpos (digits2_pos N)).
  destruct (@mag_spec x Hx) as [Lx Ux]. fold k in Lx, Ux.
  destruct (F2Q_bounds N E) as [BL BU]. fold d in BL, BU.
  assert (U1 : RN x <= p2 k).
  { apply RN_le_p2; [exact Hx | lra | fold k; lia]. }
  assert (D1 : (d + E - 1 <= k)%Z) by (apply p2_le_inv; lra).
  destruct (Z_lt_le_dec (k - 53) (-1074)) as [Sub|Nor].
  - left. unfold E, fexp64. fold k. unfold E, fexp64 in D1. fold k in D1. lia.
  - assert (EE : E = (k - 53)%Z) by (unfold E, fexp64; fold k; lia).
    assert (L1 : p2 (k - 1) <= RN x).
    { apply RN_ge_p2; [exact Lx | fold k; fold E; lia]. }
    assert (D2 : (k - 1 < d + E)%Z) by (apply p2_lt_inv; lra).
    destruct (Z.eq_dec (d + E) k) as [C|C].
    + left. rewrite C. fold k in E. exact eq_refl.
    + right. assert (C' : (d + E = k + 1)%Z) by lia.
      split; [rewrite C'; unfold fexp64; lia|]. split; [|exact EE].
      (* the value is exactly 2^k *)
      assert (V : F2Q (Zpos N) E == p2 k).
      { replace (d + E - 1)%Z with k in BL by lia. lra. }
      unfold F2Q in V.
      assert (K : p2 k == p2 53 * p2 E).
      { rewrite <- p2_add. replace (53 + E)%Z with k by lia. reflexivity. }
      pose proof (p2_pos E) as P.
      assert (W : inject_Z (Zpos N) == p2 53).
      { apply Qmult_inj_r with (p2 E); [lra|]. rewrite V, K. reflexivity. }
      rewrite p2_Z in W by lia. unfold Qeq in W. simpl in W. lia.
Qed.

Lemma BRA_correct (sx : bool) (m e : Z) (l : location) (x : Q) :
  (0 <= m)%Z -> 0 < x ->
  inb (x / p2 e) (shr_record_of_loc m l) ->
  (e <= fexp64 (mag x))%Z ->
  rounds_to sx (RN x) (binary_round_aux 53 1024 sx m e l).
Proof.
  intros Hm Hx H He.
  pose proof (@shift_target x m e l Hm Hx H He) as T.
  set (E := fexp64 (mag x)) in *.
  unfold binary_round_aux, shr_fexp. rewrite fexp64_spec, T.
  assert (Hm' : (0 <= shr_m (shr_record_of_loc m l))%Z)
    by (rewrite record_of_loc; exact Hm).
  destruct (@shr_inb (x / p2 e) (shr_record_of_loc m l) e (E - e) Hm'
              ltac:(lia) H) as (S1 & I1 & M1).
  destruct (shr (shr_record_of_loc m l) e (E - e)) as [mrs' e'].
  cbn [fst snd] in S1, I1, M1. subst e'.
  replace (e + (E - e))%Z with E by lia.
  pose proof (p2_pos e) as Pe. pose proof (p2_pos E) as PE.
  assert (I2 : inb (x / p2 E) mrs').
  { apply (@inb_comp (x / p2 e / p2 (E - e))); [|exact I1].
    rewrite p2_sub. field. lra. }
  rewrite (@round_inb (x / p2 E) mrs' I2).
  set (N := rne (x / p2 E)).
  assert (R : RN x == F2Q N E) by reflexivity.
  assert (HN : (0 <= N)%Z).
  { apply rne_nonneg. apply Qle_shift_div_l; [exact PE|]. lra. }
  rewrite fexp64_spec.
  destruct N as [|pN|pN] eqn:EN; [| |lia].
  - (* rounded to zero *)
    cbn [Zdigits2 shr_record_of_loc].
    assert (Sh : (fexp64 (0 + E) - E <= 0)%Z)
      by (unfold E; unfold fexp64; lia).
    destruct (fexp64 (0 + E) - E)%Z as [|q|q] eqn:Q; [| lia |];
      cbn [shr shr_m]; (split; [reflexivity|]);
      rewrite R; unfold F2Q; qz; ring.
  - cbn [Zdigits2 shr_record_of_loc].
    destruct (@second_shift x pN Hx R) as [C|(C & P53 & EE)]; fold E in C.
    + rewrite C, Z.sub_diag. cbn [shr shr_m].
      destruct (E <=? 1024 - 53)%Z eqn:B.
      * cbn [rounds_to]. split; [reflexivity|]. split; [|exact R].
        apply bounded_spec. apply Z.leb_le in B. split; [exact C | lia].
      * cbn [rounds_to]. split; [reflexivity|].
        apply Z.leb_gt in B. rewrite R.
        destruct (F2Q_bounds pN E) as [BL _].
        assert (D : (Zpos (digits2_pos pN) + E - 53 = E)%Z)
          by (unfold fexp64 in C; lia).
        apply Qle_trans with (p2 (Zpos (digits2_pos pN) + E - 1));
          [apply p2_le; lia | exact BL].
    + fold E in EE. rewrite C.
      replace (E + 1 - E)%Z with 1%Z by lia.
      assert (PN : pN = (2 ^ 53)%positive) by (apply Pos2Z.inj; exact P53).
      subst pN. cbn [shr iter_pos shr_1 shr_m].
      assert (V : RN x == F2Q (Zpos (2 ^ 52)) (E + 1)).
      { rewrite R. unfold F2Q. rewrite p2_S.
        change (inject_Z (Zpos (2 ^ 53))) with (2 * inject_Z (Zpos (2 ^ 52))).
        ring. }
      destruct (E + 1 <=? 1024 - 53)%Z eqn:B.
      * cbn [rounds_to]. split; [reflexivity|]. split; [|exact V].
        apply bounded_spec. apply Z.leb_le in B. split; [|lia].
        match goal with
        | |- context [digits2_pos ?p] =>
            let v := eval vm_compute in (digits2_pos p) in
            change (digits2_pos p) with v
        end.
        change (digits2_pos (2 ^ 53)) with 54%positive in C.
        unfold fexp64 in *. lia.
      * cbn [rounds_to]. split; [reflexivity|].
        apply Z.leb_gt in B. rewrite V. unfold F2Q.
        change (inject_Z (Zpos (2 ^ 52))) with (p2 52).
        rewrite <- p2_add. apply p2_le. lia.
Qed.

Lemma F2Q_pos (m : positive) (e : Z) : 0 < F2Q (Zpos m) e.
Proof.
  unfold F2Q. pose proof (p2_pos e).
  assert (0 < inject_Z (Zpos m)) by (rewrite <- (Zlt_Qlt 0); lia).
  apply Qmult_lt_0_compat; assumption.
Qed.

Lemma bounded_digits (m : positive) (e : Z) :
  bounded 53 1024 m e = true ->
  (Zpos (digits2_pos m) <= 53)%Z /\ (-1074 <= e <= 971)%Z
  /\ (e = -1074 \/ Zpos (digits2_pos m) = 53)%Z.
Proof.
  intros B. apply bounded_spec in B. destruct B as [C L].
  unfold fexp64 in C. lia.
Qed.

Lemma bounded_lt (m : positive) (e : Z) :
  bounded 53 1024 m e = true -> F2Q (Zpos m) e < p2 1024.
Proof.
  intros B. destruct (bounded_digits m e B) as (D & E & _).
  destruct (F2Q_bounds m e) as [_ U].
  apply Qlt_le_trans with (p2 (Zpos (digits2_pos m) + e)); [exact U|].
  apply p2_le. lia.
Qed.

Lemma val_nonneg (f : spec_float) : 0 <= val f.
Proof.
  destruct f as [s|[|]|  |[|] m e]; cbn [val]; try lra.
  - apply Qlt_le_weak, p2_pos.
  - apply Qlt_le_weak, F2Q_pos.
Qed.

Lemma val_le_max (f : spec_float) : good f -> val f <= p2 1024.
Proof.
  pose proof (p2_pos 1024) as P.
  destruct f as [s|[|]|  |[|] m e]; cbn [val good]; intros G; try lra.
  apply Qlt_le_weak, bounded_lt, G.
Qed.

Lemma val_finite (f : spec_float) :
  good f -> finite f -> val f < p2 1024.
Proof.
  pose proof (p2_pos 1024) as P.
  destruct f as [s|[|]|  |[|] m e]; cbn [val good finite]; intros G F;
    try lra; try contradiction.
  apply bounded_lt, G.
Qed.

Lemma good_not_finite (f : spec_float) :
  good f -> ~ finite f -> f = S754_infinity false.
Proof.
  destruct f as [s|[|]|  |[|] m e]; cbn [good finite]; intros G F;
    try contradiction; try reflexivity; exfalso; apply F; exact I.
Qed.

Lemma finite_dec (f : spec_float) : finite f \/ ~ finite f.
Proof. destruct f; cbn; tauto. Qed.

(** The result of a rounding of a value that is not negative. *)
Lemma rounds_good (r : Q) (f : spec_float) :
  rounds_to false r f -> good f /\ val f == Qmin r (p2 1024).
Proof.
  pose proof (p2_pos 1024) as P.
  destruct f as [s|s| |s m e]; cbn [rounds_to]; [| | contradiction |].
  - intros [-> R]. split; [exact I|]. cbn [val]. rewrite R.
    symmetry. apply Q.min_l. lra.
  - intros [-> R]. split; [exact I|]. cbn [val].
    symmetry. apply Q.min_r. exact R.
  - intros (-> & B & R). split; [exact B|]. cbn [val]. rewrite R.
    symmetry. apply Q.min_l. apply Qlt_le_weak, bounded_lt, B.
Qed.

Lemma rounds_negish (r : Q) (f : spec_float) :
  rounds_to true r f -> negish f.
Proof.
  destruct f as [s|s| |s m e]; cbn [rounds_to negish];
    [intros [-> _]|intros [-> _]|contradiction|intros (-> & _)]; exact I.
Qed.

(** Two canonical mantissas compare as their values do. *)
Lemma canonical_compare (m1 : positive) (e1 : Z) (m2 : positive) (e2 : Z) :
  bounded 53 1024 m1 e1 = true -> bounded 53 1024 m2 e2 = true ->
  match Z.compare e1 e2 with
  | Lt => Lt
  | Gt => Gt
  | Eq => Pos.compare_cont Eq m1 m2
  end = (F2Q (Zpos m1) e1 ?= F2Q (Zpos m2) e2).
Proof.
  intros B1 B2.
  destruct (bounded_digits m1 e1 B1) as (D1 & R1 & N1).
  destruct (bounded_digits m2 e2 B2) as (D2 & R2 & N2).
  destruct (F2Q_bounds m1 e1) as [L1 U1].
  destruct (F2Q_bounds m2 e2) as [L2 U2].
  symmetry. destruct (Z.compare_spec e1 e2) as [E|E|E].
  - subst e2. change (Pos.compare_cont Eq m1 m2) with (Pos.compare m1 m2).
    unfold F2Q. pose proof (p2_pos e1) as P.
    destruct (Pos.compare_spec m1 m2) as [C|C|C].
    + subst m2. apply -> Qeq_alt. reflexivity.
    + apply -> Qlt_alt. apply Qmult_lt_compat_r; [exact P|].
      rewrite <- Zlt_Qlt. lia.
    + apply -> Qgt_alt. apply Qmult_lt_compat_r; [exact P|].
      rewrite <- Zlt_Qlt. lia.
  - apply -> Qlt_alt.
    assert (p2 (Zpos (digits2_pos m1) + e1)
            <= p2 (Zpos (digits2_pos m2) + e2 - 1)) by (apply p2_le; lia).
    lra.
  - apply -> Qgt_alt.
    assert (p2 (Zpos (digits2_pos m2) + e2)
            <= p2 (Zpos (digits2_pos m1) + e1 - 1)) by (apply p2_le; lia).
    lra.
Qed.

Lemma compare_val (f g : spec_float) :
  good f -> good g -> SFcompare f g = Some (val f ?= val g).
Proof.
  pose proof (p2_pos 1024) as P.
  destruct f as [s|[|]|  |[|] m e]; cbn [good]; intros F; try contradiction;
    destruct g as [s'|[|]|  |[|] m' e']; cbn [good]; intros G;
    try contradiction; cbn [SFcompare val]; f_equal;
    try (apply canonical_compare; assumption); symmetry;
    match goal with
    | |- (?a ?= ?a) = Eq => apply -> Qeq_alt; reflexivity
    | |- _ = Lt => apply -> Qlt_alt
    | |- _ = Gt => apply -> Qgt_alt
    end;
    try exact P; try apply F2Q_pos; try (apply bounded_lt; assumption).
Qed.

Lemma leb_val (f g : spec_float) :
  good f -> good g -> (SFleb f g = true <-> val f <= val g).
Proof.
  intros F G. unfold SFleb. rewrite (@compare_val f g F G).
  destruct (Qcompare_spec (val f) (val g)) as [C|C|C];
    split; intros H; try reflexivity; try discriminate; lra.
Qed.

Lemma ltb_val (f g : spec_float) :
  good f -> good g -> (SFltb f g = true <-> val f < val g).
Proof.
  intros F G. unfold SFltb. rewrite (@compare_val f g F G).
  destruct (Qcompare_spec (val f) (val g)) as [C|C|C];
    split; intros H; try reflexivity; try discriminate; lra.
Qed.

Lemma F2Q_mul (m1 e1 m2 e2 : Z) :
  F2Q m1 e1 * F2Q m2 e2 == F2Q (m1 * m2) (e1 + e2).
Proof. unfold F2Q. rewrite inject_Z_mult, p2_add. ring. Qed.

Lemma inb_exact (m : Z) (x : Q) :
  x == inject_Z m -> inb x (shr_record_of_loc m loc_Exact).
Proof. intros E. exact E. Qed.

Lemma F2Q_div_p2 (m e : Z) : F2Q m e / p2 e == inject_Z m.
Proof. pose proof (p2_pos e). unfold F2Q. field. lra. Qed.

(** A representable value rounds to itself. *)
Lemma RN_exact (m : positive) (e : Z) :
  bounded 53 1024 m e = true -> RN (F2Q (Zpos m) e) == F2Q (Zpos m) e.
Proof.
  intros B. apply bounded_spec in B. destruct B as [C _].
  unfold RN. rewrite mag_F2Q, C.
  rewrite (@rne_comp _ _ (F2Q_div_p2 (Zpos m) e)), rne_Z. reflexivity.
Qed.

Lemma digits_mul (m1 m2 : positive) :
  (Zpos (digits2_pos m1) + Zpos (digits2_pos m2) - 1
   <= Zpos (digits2_pos (m1 * m2)))%Z.
Proof.
  pose proof (digits2_pos_spec m1) as [L1 U1].
  pose proof (digits2_pos_spec m2) as [L2 U2].
  pose proof (digits2_pos_spec (m1 * m2)) as [L U].
  set (d1 := Zpos (digits2_pos m1)) in *.
  set (d2 := Zpos (digits2_pos m2)) in *.
  set (d := Zpos (digits2_pos (m1 * m2))) in *.
  assert (P1 : (0 < d1)%Z) by (unfold d1; lia).
  assert (P2 : (0 < d2)%Z) by (unfold d2; lia).
  assert (P : (0 < d)%Z) by (unfold d; lia).
  assert (M : (2 ^ (d1 - 1) * 2 ^ (d2 - 1) <= Zpos m1 * Zpos m2)%Z)
    by (apply Z.mul_le_mono_nonneg; lia).
  rewrite <- Z.pow_add_r in M by lia.
  assert (T : (2 ^ (d1 - 1 + (d2 - 1)) < 2 ^ d)%Z).
  { eapply Z.le_lt_trans; [exact M|]. rewrite <- Pos2Z.inj_mul. exact U. }
  apply Z.pow_lt_mono_r_iff in T; lia.
Qed.

Lemma mul_correct (x y : spec_float) :
  good x -> good y -> finite x -> finite y ->
  good (SFmul 53 1024 x y)
  /\ val (SFmul 53 1024 x y) == Qmin (RN (val x * val y)) (p2 1024).
Proof.
  pose proof (p2_pos 1024) as P.
  assert (Z : forall a b : Q, a * b == 0 -> 0 == Qmin (RN (a * b)) (p2 1024)).
  { intros a b E. rewrite (@RN_0 _ E). symmetry. apply Q.min_l. lra. }
  destruct x as [s|[|]|  |[|] m e]; cbn [good finite]; intros Gx;
    try contradiction;
    destruct y as [s'|[|]|  |[|] m' e']; cbn [good finite]; intros Gy;
    try contradiction; intros _ _; cbn [SFmul val xorb].
  - split; [exact I|]. destruct (xorb s s'); cbn [val]; apply Z; ring.
  - split; [exact I|]. destruct s; cbn [val negb]; apply Z; ring.
  - split; [exact I|]. destruct s'; cbn [val]; apply Z; ring.
  - apply rounds_good. apply BRA_correct.
    + lia.
    + apply Qmult_lt_0_compat; apply F2Q_pos.
    + apply inb_exact. rewrite F2Q_mul. rewrite Pos2Z.inj_mul.
      apply F2Q_div_p2.
    + assert (E : F2Q (Zpos m) e * F2Q (Zpos m') e' == F2Q (Zpos (m * m')) (e + e'))
        by (rewrite F2Q_mul; reflexivity).
      rewrite (@mag_comp _ _ (Qmult_lt_0_compat _ _ (F2Q_pos m e) (F2Q_pos m' e')) E).
      rewrite mag_F2Q.
      destruct (bounded_digits m e Gx) as (D1 & R1 & N1).
      destruct (bounded_digits m' e' Gy) as (D2 & R2 & N2).
      pose proof (digits_mul m m') as D.
      assert (0 < Zpos (digits2_pos m))%Z by lia.
      assert (0 < Zpos (digits2_pos m'))%Z by lia.
      unfold fexp64. lia.
Qed.

(** The location of [q + r/n] between [q] and [q + 1]. *)
Lemma new_location_inb (n q r : Z) :
  (0 <= r < n)%Z ->
  inb (inject_Z q + inject_Z r / inject_Z n)
      (shr_record_of_loc q (new_location n r)).
Proof.
  intros H.
  assert (Pn : 0 < inject_Z n) by (rewrite <- (Zlt_Qlt 0); lia).
  assert (R0 : 0 <= inject_Z r) by (rewrite <- (Zle_Qle 0); lia).
  set (t := inject_Z r / inject_Z n).
  assert (T : inject_Z r == t * inject_Z n) by (unfold t; field; lra).
  assert (Lt_half : (2 * r < n)%Z -> t < 1 # 2).
  { intros C. rewrite Zlt_Qlt, inject_Z_mult in C. qz.
    unfold t. apply Qlt_shift_div_r; [exact Pn|]. lra. }
  assert (Gt_half : (n < 2 * r)%Z -> 1 # 2 < t).
  { intros C. rewrite Zlt_Qlt, inject_Z_mult in C. qz.
    unfold t. apply Qlt_shift_div_l; [exact Pn|]. lra. }
  assert (Eq_half : (2 * r = n)%Z -> t == 1 # 2).
  { intros C. unfold t. rewrite <- C, inject_Z_mult. qz. field.
    intros Z. rewrite <- C, inject_Z_mult in Pn. qz. lra. }
  assert (Pos : (r <> 0)%Z -> 0 < t).
  { intros C. unfold t. apply Qlt_shift_div_l; [exact Pn|].
    assert (0 < inject_Z r) by (rewrite <- (Zlt_Qlt 0); lia). lra. }
  assert (Lt1 : t < 1).
  { unfold t. apply Qlt_shift_div_r; [exact Pn|].
    assert (inject_Z r < inject_Z n) by (rewrite <- Zlt_Qlt; lia). lra. }
  unfold new_location, new_location_even, new_location_odd.
  destruct (Z.even n) eqn:Ev; destruct (Z.eqb_spec r 0) as [Zr|Zr].
  - unfold inb; cbn. subst r. unfold t. qz. unfold Qdiv. ring.
  - destruct (Z.compare_spec (2 * r) n) as [C|C|C]; unfold inb; cbn.
    + rewrite (Eq_half C). reflexivity.
    + specialize (Lt_half C). specialize (Pos Zr). split; lra.
    + specialize (Gt_half C). split; lra.
  - unfold inb; cbn. subst r. unfold t. qz. unfold Qdiv. ring.
  - assert (Od : (2 * r <> n)%Z).
    { intros C. rewrite <- C, Z.even_mul in Ev. discriminate. }
    destruct (Z.compare_spec (2 * r + 1) n) as [C|C|C]; unfold inb; cbn.
    + assert (C' : (2 * r < n)%Z) by lia.
      specialize (Lt_half C'). specialize (Pos Zr). split; lra.
    + assert (C' : (2 * r < n)%Z) by lia.
      specialize (Lt_half C'). specialize (Pos Zr). split; lra.
    + assert (C' : (n < 2 * r)%Z) by lia.
      specialize (Gt_half C'). split; lra.
Qed.

Lemma F2Q_div (m1 : positive) (e1 : Z) (m2 : positive) (e2 e : Z) :
  (e <= e1 - e2)%Z ->
  F2Q (Zpos m1) e1 / F2Q (Zpos m2) e2 / p2 e
  == inject_Z (Zpos m1 * 2 ^ (e1 - e2 - e)) / inject_Z (Zpos m2).
Proof.
  intros H. unfold F2Q.
  pose proof (p2_pos e1). pose proof (p2_pos e2). pose proof (p2_pos e).
  assert (0 < inject_Z (Zpos m2)) by (rewrite <- (Zlt_Qlt 0); lia).
  rewrite inject_Z_mult. rewrite <- (@p2_Z (e1 - e2 - e)) by lia.
  rewrite !p2_sub. field. repeat split; lra.
Qed.

Lemma div_core_correct (m1 : positive) (e1 : Z) (m2 : positive) (e2 : Z) :
  let x := F2Q (Zpos m1) e1 / F2Q (Zpos m2) e2 in
  let '(q, e, l) := SFdiv_core_binary 53 1024 (Zpos m1) e1 (Zpos m2) e2 in
  (0 <= q)%Z /\ inb (x / p2 e) (shr_record_of_loc q l)
  /\ (e <= fexp64 (mag x))%Z.
Proof.
  intros x. unfold SFdiv_core_binary. cbn [Zdigits2].
  rewrite fexp64_spec.
  set (D := (Zpos (digits2_pos m1) + e1 - (Zpos (digits2_pos m2) + e2))%Z).
  set (e := Z.min (fexp64 D) (e1 - e2)).
  set (s := (e1 - e2 - e)%Z).
  assert (Hs : (0 <= s)%Z) by (unfold s, e; lia).
  set (m' := match s with
             | Zpos _ => Z.shiftl (Zpos m1) s
             | Z0 => Zpos m1
             | Zneg _ => 0%Z
             end).
  assert (Hm : m' = (Zpos m1 * 2 ^ s)%Z).
  { unfold m'. destruct s as [|p|p]; [cbn; lia | | lia].
    apply Z.shiftl_mul_pow2. lia. }
  pose proof (Z_div_mod m' (Zpos m2) eq_refl) as DM.
  destruct (Z.div_eucl m' (Zpos m2)) as [q r]. destruct DM as [DM R].
  assert (Hm' : (0 < m')%Z) by (rewrite Hm; apply Z.mul_pos_pos; [lia|apply Z.pow_pos_nonneg; lia]).
  assert (Hq : (0 <= q)%Z) by nia.
  assert (Px : 0 < x).
  { unfold x. apply Qlt_shift_div_l; [apply F2Q_pos|].
    pose proof (F2Q_pos m1 e1). lra. }
  split; [exact Hq|]. split.
  - apply (@inb_comp (inject_Z q + inject_Z r / inject_Z (Zpos m2))).
    + unfold x. rewrite (@F2Q_div m1 e1 m2 e2 e) by (unfold e; lia).
      fold s. rewrite <- Hm, DM, inject_Z_plus, inject_Z_mult.
      assert (0 < inject_Z (Zpos m2)) by (rewrite <- (Zlt_Qlt 0); lia).
      field. lra.
    + apply new_location_inb. exact R.
  - apply Z.le_trans with (fexp64 D); [unfold e; lia|].
    apply fexp64_mono.
    destruct (@mag_spec x Px) as [Lx Ux].
    destruct (F2Q_bounds m1 e1) as [L1 U1].
    destruct (F2Q_bounds m2 e2) as [L2 U2].
    assert (B : p2 (D - 1) < p2 (mag x)).
    { apply Qle_lt_trans with x; [|exact Ux].
      unfold x. apply Qle_shift_div_l; [apply F2Q_pos|].
      replace (D - 1)%Z
        with (Zpos (digits2_pos m1) + e1 - 1 - (Zpos (digits2_pos m2) + e2))%Z
        by (unfold D; lia).
      rewrite p2_sub.
      pose proof (p2_pos (Zpos (digits2_pos m2) + e2)) as P2.
      pose proof (p2_pos (Zpos (digits2_pos m1) + e1 - 1)) as P1.
      apply Qle_trans with (p2 (Zpos (digits2_pos m1) + e1 - 1)
                            / p2 (Zpos (digits2_pos m2) + e2)
                            * p2 (Zpos (digits2_pos m2) + e2)).
      - apply Qmult_le_l.
        + apply Qlt_shift_div_l; [exact P2|]. lra.
        + lra.
      - assert (E : p2 (Zpos (digits2_pos m1) + e1 - 1)
                    / p2 (Zpos (digits2_pos m2) + e2)
                    * p2 (Zpos (digits2_pos m2) + e2)
                    == p2 (Zpos (digits2_pos m1) + e1 - 1)) by (field; lra).
        rewrite E. exact L1. }
    apply p2_lt_inv in B. lia.
Qed.

Lemma div_correct (x y : spec_float) :
  good x -> good y -> finite x -> 0 < val y -> finite y ->
  good (SFdiv 53 1024 x y)
  /\ val (SFdiv 53 1024 x y) == Qmin (RN (val x / val y)) (p2 1024).
Proof.
  pose proof (p2_pos 1024) as P.
  destruct x as [s|[|]|  |[|] m e]; cbn [good finite]; intros Gx;
    try contradiction;
    destruct y as [s'|[|]|  |[|] m' e']; cbn [good finite val]; intros Gy;
    try contradiction; intros _ Py; try (exfalso; lra); intros _;
    try contradiction; cbn [SFdiv val xorb].
  - split; [destruct s; exact I|].
    assert (E : 0 / F2Q (Zpos m') e' == 0) by (unfold Qdiv; ring).
    rewrite (@RN_0 _ E). symmetry. apply Q.min_l. lra.
  - pose proof (div_core_correct m e m' e') as C. cbv zeta in C.
    destruct (SFdiv_core_binary 53 1024 (Zpos m) e (Zpos m') e') as [[q ez] l].
    destruct C as (Hq & In & Le).
    apply rounds_good. apply BRA_correct; try assumption.
    apply Qlt_shift_div_l; [exact Py|]. pose proof (F2Q_pos m e). lra.
Qed.

Lemma iter_xO (d m : positive) :
  Zpos (Pos.iter xO m d) = (Zpos m * 2 ^ Zpos d)%Z.
Proof.
  revert m. induction d using Pos.peano_ind; intros m.
  - cbn. lia.
  - rewrite Pos.iter_succ, Pos2Z.inj_xO, IHd, Pos2Z.inj_succ.
    rewrite Z.pow_succ_r by lia. ring.
Qed.

Lemma shl_align_value (m : positive) (e e' : Z) :
  let '(mz, ez) := shl_align m e e' in
  F2Q (Zpos mz) ez == F2Q (Zpos m) e
  /\ (ez = Z.min e e').
Proof.
  unfold shl_align. destruct (e' - e)%Z as [|d|d] eqn:D.
  - split; [reflexivity|lia].
  - split; [reflexivity|lia].
  - split; [|lia]. unfold F2Q. rewrite iter_xO, inject_Z_mult.
    rewrite <- (@p2_Z (Zpos d)) by lia.
    replace e with (e' + Zpos d)%Z by lia. rewrite (p2_add e' (Zpos d)). ring.
Qed.

Lemma binary_round_correct (sx : bool) (m : positive) (e : Z) :
  rounds_to sx (RN (F2Q (Zpos m) e)) (binary_round 53 1024 sx m e).
Proof.
  unfold binary_round. rewrite fexp64_spec.
  pose proof (shl_align_value m e (fexp64 (Zpos (digits2_pos m) + e))) as S.
  destruct (shl_align m e (fexp64 (Zpos (digits2_pos m) + e))) as [mz ez].
  destruct S as [V E].
  apply BRA_correct.
  - lia.
  - apply F2Q_pos.
  - apply inb_exact.
    transitivity (F2Q (Zpos mz) ez / p2 ez); [|apply F2Q_div_p2].
    unfold Qdiv. apply Qmult_comp; [symmetry; exact V|reflexivity].
  - rewrite mag_F2Q. lia.
Qed.

Lemma normalize_correct (n e : Z) :
  (0 <= n)%Z ->
  good (binary_normalize 53 1024 n e false)
  /\ val (binary_normalize 53 1024 n e false) == Qmin (RN (F2Q n e)) (p2 1024).
Proof.
  pose proof (p2_pos 1024) as P.
  intros H. destruct n as [|p|p]; [| |lia]; cbn [binary_normalize].
  - split; [exact I|]. cbn [val].
    assert (E : F2Q 0 e == 0) by (unfold F2Q, inject_Z; ring).
    rewrite (@RN_0 _ E). symmetry. apply Q.min_l. lra.
  - apply rounds_good. apply binary_round_correct.
Qed.

Lemma normalize_negative (n e : Z) :
  (n < 0)%Z -> negish (binary_normalize 53 1024 n e false).
Proof.
  intros H. destruct n as [|p|p]; [lia|lia|]. cbn [binary_normalize].
  apply (@rounds_negish (RN (F2Q (Zpos p) e))). apply binary_round_correct.
Qed.

(** An integer below 2^53 rounds to itself. *)
Lemma RN_int (n : Z) :
  (0 <= n < 2 ^ 53)%Z -> RN (inject_Z n) == inject_Z n.
Proof.
  intros [L U]. destruct n as [|p|p]; [| |lia].
  - apply RN_0. reflexivity.
  - pose proof (digits2_pos_spec p) as [Lp Up].
    assert (D : (Zpos (digits2_pos p) <= 53)%Z).
    { assert (T : (2 ^ (Zpos (digits2_pos p) - 1) < 2 ^ 53)%Z) by lia.
      apply Z.pow_lt_mono_r_iff in T; lia. }
    set (d := Zpos (digits2_pos p)) in *.
    assert (X : inject_Z (Zpos p) == F2Q (Zpos p) 0) by (unfold F2Q; rewrite p2_0; ring).
    assert (Px : 0 < inject_Z (Zpos p)) by (rewrite <- (Zlt_Qlt 0); lia).
    unfold RN. rewrite (@mag_comp _ _ Px X), mag_F2Q. fold d.
    set (E := fexp64 (d + 0)).
    assert (HE : (E <= 0)%Z) by (unfold E, fexp64; lia).
    assert (S : inject_Z (Zpos p) / p2 E == inject_Z (Zpos p * 2 ^ (- E))).
    { rewrite inject_Z_mult, <- (@p2_Z (- E)) by lia.
      pose proof (p2_pos E). unfold p2 at 2. rewrite Qpower_opp.
      fold (p2 E). field. lra. }
    rewrite (@rne_comp _ _ S), rne_Z, inject_Z_mult.
    rewrite <- (@p2_Z (- E)) by lia.
    pose proof (p2_pos E). unfold p2 at 1. rewrite Qpower_opp. fold (p2 E).
    field. lra.
Qed.

Lemma of_Z_correct (n : Z) :
  (0 <= n < 2 ^ 53)%Z ->
  good (binary_normalize 53 1024 n 0 false)
  /\ val (binary_normalize 53 1024 n 0 false) == inject_Z n.
Proof.
  intros H. destruct (@normalize_correct n 0 (proj1 H)) as [G V].
  split; [exact G|]. rewrite V.
  assert (X : F2Q n 0 == inject_Z n) by (unfold F2Q; rewrite p2_0; ring).
  assert (N : 0 <= F2Q n 0).
  { rewrite X. rewrite <- (Zle_Qle 0). lia. }
  rewrite (@RN_comp _ _ N X), (@RN_int n H).
  apply Q.min_l. apply Qlt_le_weak.
  apply Qlt_le_trans with (inject_Z (2 ^ 53)); [rewrite <- Zlt_Qlt; lia|].
  rewrite <- (@p2_Z 53) by lia. apply p2_le. lia.
Qed.

Lemma Qmin_mono (a b c : Q) : a <= b -> Qmin a c <= Qmin b c.
Proof. intros H. apply Q.min_le_compat_r. exact H. Qed.

Lemma good_finite_or_inf (x : spec_float) :
  good x -> finite x \/ x = S754_infinity false.
Proof.
  intros G. destruct (finite_dec x) as [F|F]; [left; exact F|].
  right. apply good_not_finite; assumption.
Qed.

Lemma val_lt_finite (x : spec_float) :
  good x -> val x < p2 1024 -> finite x.
Proof.
  intros G V. destruct (@good_finite_or_inf x G) as [F|E]; [exact F|].
  subst x. cbn [val] in V. lra.
Qed.

Lemma div_mono_l (x1 x2 y : spec_float) :
  good x1 -> good x2 -> val x1 <= val x2 -> positive_double y ->
  good (div x1 y) /\ good (div x2 y) /\ val (div x1 y) <= val (div x2 y).
Proof.
  intros G1 G2 L (Gy & Fy & Py). unfold div.
  assert (Inf : SFdiv 53 1024 (S754_infinity false) y = S754_infinity false).
  { destruct y as [s|[|]|  |[|] m e]; cbn [good finite val] in *;
      try contradiction; try reflexivity; lra. }
  destruct (@good_finite_or_inf x2 G2) as [F2|E2].
  - assert (F1 : finite x1).
    { apply val_lt_finite; [exact G1|].
      pose proof (@val_finite x2 G2 F2). lra. }
    destruct (@div_correct x1 y G1 Gy F1 Py Fy) as [A1 V1].
    destruct (@div_correct x2 y G2 Gy F2 Py Fy) as [A2 V2].
    split; [exact A1|]. split; [exact A2|]. rewrite V1, V2.
    apply Qmin_mono. apply RN_mono.
    + apply Qle_shift_div_l; [exact Py|]. pose proof (val_nonneg x1). lra.
    + unfold Qdiv. apply Qmult_le_compat_r; [exact L|].
      apply Qlt_le_weak, Qinv_lt_0_compat, Py.
  - subst x2. rewrite Inf.
    destruct (@good_finite_or_inf x1 G1) as [F1|E1].
    + destruct (@div_correct x1 y G1 Gy F1 Py Fy) as [A1 V1].
      split; [exact A1|]. split; [exact I|]. cbn [val]. rewrite V1.
      apply Q.le_min_r.
    + subst x1. rewrite Inf. split; [exact I|]. split; [exact I|]. lra.
Qed.

Lemma mul_mono_l (x1 x2 y : spec_float) :
  good x1 -> good x2 -> val x1 <= val x2 -> positive_double y ->
  good (mul x1 y) /\ good (mul x2 y) /\ val (mul x1 y) <= val (mul x2 y).
Proof.
  intros G1 G2 L (Gy & Fy & Py). unfold mul.
  assert (Inf : SFmul 53 1024 (S754_infinity false) y = S754_infinity false).
  { destruct y as [s|[|]|  |[|] m e]; cbn [good finite val] in *;
      try contradiction; try reflexivity; lra. }
  destruct (@good_finite_or_inf x2 G2) as [F2|E2].
  - assert (F1 : finite x1).
    { apply val_lt_finite; [exact G1|].
      pose proof (@val_finite x2 G2 F2). lra. }
    destruct (@mul_correct x1 y G1 Gy F1 Fy) as [A1 V1].
    destruct (@mul_correct x2 y G2 Gy F2 Fy) as [A2 V2].
    split; [exact A1|]. split; [exact A2|]. rewrite V1, V2.
    apply Qmin_mono. apply RN_mono.
    + apply Qmult_le_0_compat; [apply val_nonneg|lra].
    + apply Qmult_le_compat_r; [exact L|lra].
  - subst x2. rewrite Inf.
    destruct (@good_finite_or_inf x1 G1) as [F1|E1].
    + destruct (@mul_correct x1 y G1 Gy F1 Fy) as [A1 V1].
      split; [exact A1|]. split; [exact I|]. cbn [val]. rewrite V1.
      apply Q.le_min_r.
    + subst x1. rewrite Inf. split; [exact I|]. split; [exact I|]. lra.
Qed.

Lemma mul_mono_r (b s1 s2 : spec_float) :
  positive_double b -> good s1 -> good s2 -> finite s2 ->
  val s1 <= val s2 ->
  good (mul b s1) /\ good (mul b s2) /\ val (mul b s1) <= val (mul b s2).
Proof.
  intros (Gb & Fb & Pb) G1 G2 F2 L. unfold mul.
  assert (F1 : finite s1).
  { apply val_lt_finite; [exact G1|].
    pose proof (@val_finite s2 G2 F2). lra. }
  destruct (@mul_correct b s1 Gb G1 Fb F1) as [A1 V1].
  destruct (@mul_correct b s2 Gb G2 Fb F2) as [A2 V2].
  split; [exact A1|]. split; [exact A2|]. rewrite V1, V2.
  apply Qmin_mono. apply RN_mono.
  - apply Qmult_le_0_compat; [lra|apply val_nonneg].
  - rewrite (Qmult_comm (val b) (val s1)), (Qmult_comm (val b) (val s2)).
    apply Qmult_le_compat_r; [exact L|lra].
Qed.

Lemma RN_1 : RN 1 == 1.
Proof. apply (@RN_int 1). lia. Qed.

(** [Math.max] *)
Lemma max_val (a l : spec_float) :
  good a -> good l ->
  good (Math_max a l) /\ val (Math_max a l) == Qmax (val a) (val l).
Proof.
  intros Ga Gl. unfold Math_max. rewrite (@compare_val a l Ga Gl).
  destruct (Qcompare_spec (val a) (val l)) as [C|C|C].
  - assert (M : Qmax (val a) (val l) == val a) by (apply Q.max_l; lra).
    rewrite M.
    assert (R : forall r, r = a \/ r = l -> good r /\ val r == val a).
    { intros r [->| ->]; (split; [assumption|lra]). }
    apply R. destruct a as [[|]| | |]; try (left; reflexivity).
    destruct l as [[|]| | |]; (left; reflexivity) || (right; reflexivity).
  - split; [exact Gl|]. symmetry. apply Q.max_r. lra.
  - split; [exact Ga|]. symmetry. apply Q.max_l. lra.
Qed.

Lemma max_negish (a l : spec_float) :
  good a -> negish l -> Math_max a l = a.
Proof.
  destruct a as [s|[|]|  |[|] m e]; cbn [good]; intros Ga;
    try contradiction;
    destruct l as [[|]|[|]|  |[|] m' e']; cbn [negish]; intros Nl;
    try contradiction; try reflexivity.
  destruct s; reflexivity.
Qed.

Lemma one_is : of_Z 1 = S754_finite false 4503599627370496 (-52).
Proof. reflexivity. Qed.

Lemma val_one : val (of_Z 1) == 1.
Proof. apply (@of_Z_correct 1). lia. Qed.

(** [1 - z] for a [z] that is not negative. *)
Lemma sub_one (z : spec_float) :
  good z ->
  (val z <= 1 ->
   good (sub (of_Z 1) z) /\ val (sub (of_Z 1) z) == RN (1 - val z))
  /\ (1 < val z -> negish (sub (of_Z 1) z)).
Proof.
  pose proof (p2_pos 1024) as P.
  assert (Big : 1 < p2 1024).
  { apply Qle_lt_trans with (p2 0); [rewrite p2_0; lra|]. apply p2_lt. lia. }
  assert (O : F2Q 4503599627370496 (-52) == 1).
  { change (val (of_Z 1) == 1). apply val_one. }
  intros G. rewrite one_is. unfold sub.
  destruct z as [s|[|]|  |[|] m e]; cbn [good] in G; try contradiction.
  - cbn [SFsub val]. split.
    + intros _. split; [reflexivity|].
      assert (E : 1 - 0 == 1) by ring.
      rewrite (@RN_comp (1 - 0) 1) by (lra || exact E).
      rewrite RN_1. exact O.
    + intros H. lra.
  - cbn [SFsub val negb]. split; [intros H; lra|intros _; exact I].
  - cbn [SFsub val cond_Zopp].
    set (ez := Z.min (-52) e).
    pose proof (shl_align_value 4503599627370496 (-52) ez) as S1.
    pose proof (shl_align_value m e ez) as S2.
    destruct (shl_align 4503599627370496 (-52) ez) as [a1 x1].
    destruct (shl_align m e ez) as [a2 x2].
    destruct S1 as [V1 X1]. destruct S2 as [V2 X2]. cbn [fst].
    assert (Y1 : x1 = ez) by (unfold ez in *; lia).
    assert (Y2 : x2 = ez) by (unfold ez in *; lia).
    rewrite Y1 in V1. rewrite Y2 in V2. clear X1 X2 Y1 Y2.
    assert (D : F2Q (Zpos a1 - Zpos a2) ez == 1 - F2Q (Zpos m) e).
    { transitivity (F2Q (Zpos a1) ez - F2Q (Zpos a2) ez).
      - unfold F2Q, Z.sub. rewrite inject_Z_plus, inject_Z_opp. ring.
      - rewrite V1, V2, O. reflexivity. }
    pose proof (p2_pos ez) as Pe.
    split.
    + intros H.
      assert (N : (0 <= Zpos a1 - Zpos a2)%Z).
      { destruct (Z_lt_le_dec (Zpos a1 - Zpos a2) 0) as [C|C]; [|exact C].
        exfalso. assert (F2Q (Zpos a1 - Zpos a2) ez < 0); [|lra].
        unfold F2Q. rewrite Zlt_Qlt in C. change (inject_Z 0) with 0 in C.
        setoid_replace 0 with (0 * p2 ez) by ring.
        apply Qmult_lt_compat_r; assumption. }
      destruct (@normalize_correct _ ez N) as [A V].
      split; [exact A|]. rewrite V.
      assert (N' : 0 <= F2Q (Zpos a1 - Zpos a2) ez) by lra.
      rewrite (@RN_comp _ _ N' D).
      apply Q.min_l. apply Qle_trans with (RN 1); [|rewrite RN_1; lra].
      apply RN_mono; [lra|]. pose proof (F2Q_pos m e). lra.
    + intros H. apply normalize_negative.
      destruct (Z_lt_le_dec (Zpos a1 - Zpos a2) 0) as [C|C]; [exact C|].
      exfalso. assert (0 <= F2Q (Zpos a1 - Zpos a2) ez); [|lra].
      unfold F2Q. rewrite Zle_Qle in C. change (inject_Z 0) with 0 in C.
      apply Qmult_le_0_compat; lra.
Qed.

(** The shrink factor [Math.max(a, 1 - z)]. *)
Lemma scale_spec (a z : spec_float) :
  good a -> good z -> val a <= 1 ->
  good (Math_max a (sub (of_Z 1) z))
  /\ val a <= val (Math_max a (sub (of_Z 1) z))
  /\ val (Math_max a (sub (of_Z 1) z)) <= 1.
Proof.
  intros Ga Gz A. destruct (@sub_one z Gz) as [Le Gt].
  destruct (Qlt_le_dec 1 (val z)) as [C|C].
  - rewrite (@max_negish a _ Ga (Gt C)). split; [exact Ga|]. split; lra.
  - destruct (Le C) as [Gl Vl].
    destruct (@max_val a _ Ga Gl) as [Gm Vm].
    split; [exact Gm|]. rewrite Vm. split; [apply Q.le_max_l|].
    apply Q.max_lub; [exact A|]. rewrite Vl.
    apply Qle_trans with (RN 1); [|rewrite RN_1; lra].
    apply RN_mono; pose proof (val_nonneg z); lra.
Qed.

Lemma scale_mono (a z1 z2 : spec_float) :
  good a -> good z1 -> good z2 -> val z1 <= val z2 ->
  val (Math_max a (sub (of_Z 1) z2)) <= val (Math_max a (sub (of_Z 1) z1)).
Proof.
  intros Ga G1 G2 L.
  destruct (@sub_one z1 G1) as [Le1 Gt1].
  destruct (@sub_one z2 G2) as [Le2 Gt2].
  destruct (Qlt_le_dec 1 (val z2)) as [C2|C2].
  - rewrite (@max_negish a _ Ga (Gt2 C2)).
    destruct (Qlt_le_dec 1 (val z1)) as [C1|C1].
    + rewrite (@max_negish a _ Ga (Gt1 C1)). lra.
    + destruct (Le1 C1) as [Gl Vl].
      destruct (@max_val a _ Ga Gl) as [Gm Vm]. rewrite Vm.
      apply Q.le_max_l.
  - assert (C1 : val z1 <= 1) by lra.
    destruct (Le1 C1) as [Gl1 Vl1]. destruct (Le2 C2) as [Gl2 Vl2].
    destruct (@max_val a _ Ga Gl1) as [Gm1 Vm1].
    destruct (@max_val a _ Ga Gl2) as [Gm2 Vm2].
    rewrite Vm1, Vm2. apply Q.max_le_compat_l. rewrite Vl1, Vl2.
    apply RN_mono; lra.
Qed.

Lemma Qfloor_int (x : Q) (n : Z) : x == inject_Z n -> Qfloor x = n.
Proof. intros E. apply Qfloor_unique; lra. Qed.

(** [Math.floor] *)
Lemma floor_correct (f : spec_float) :
  good f ->
  good (Math_floor f) /\ val (Math_floor f) == inject_Z (Qfloor (val f)).
Proof.
  destruct f as [s|[|]|  |[|] m e]; cbn [good]; intros G; try contradiction.
  - split; [exact I|]. cbn [Math_floor val]. reflexivity.
  - split; [exact I|]. cbn [Math_floor val].
    rewrite (@Qfloor_int (p2 1024) (2 ^ 1024)); [|apply p2_Z; lia].
    apply p2_Z. lia.
  - cbn [Math_floor]. destruct (Z.leb_spec 0 e) as [E|E].
    + split; [exact G|]. cbn [val].
      assert (X : F2Q (Zpos m) e == inject_Z (Zpos m * 2 ^ e)).
      { unfold F2Q. rewrite inject_Z_mult, (@p2_Z e E). reflexivity. }
      rewrite (@Qfloor_int _ _ X). exact X.
    + cbv zeta. cbn [val].
      destruct (bounded_digits m e G) as (D & _ & _).
      pose proof (digits2_pos_spec m) as [_ U].
      assert (M : (Zpos m < 2 ^ 53)%Z).
      { eapply Z.lt_le_trans; [exact U|]. apply Z.pow_le_mono_r; lia. }
      assert (T : (0 < 2 ^ (- e))%Z) by (apply Z.pow_pos_nonneg; lia).
      pose proof (Z.div_mod (Zpos m) (2 ^ (- e)) ltac:(lia)) as DM.
      pose proof (Z.mod_pos_bound (Zpos m) (2 ^ (- e)) T) as R.
      set (q := (Zpos m / 2 ^ (- e))%Z) in *.
      set (r := (Zpos m mod 2 ^ (- e))%Z) in *.
      assert (Hq : (0 <= q)%Z) by (unfold q; apply Z.div_pos; lia).
      assert (Qm : (q <= Zpos m)%Z) by nia.
      assert (X : F2Q (Zpos m) e
                  == inject_Z (Zpos m) / inject_Z (2 ^ (- e))).
      { unfold F2Q. rewrite <- (@p2_Z (- e)) by lia.
        pose proof (p2_pos e). unfold p2 at 2. rewrite Qpower_opp.
        fold (p2 e). field. lra. }
      assert (PT : 0 < inject_Z (2 ^ (- e))) by (rewrite <- (Zlt_Qlt 0); exact T).
      assert (F : Qfloor (F2Q (Zpos m) e) = q).
      { apply Qfloor_unique; rewrite X.
        - apply Qle_shift_div_l; [exact PT|].
          rewrite <- inject_Z_mult, <- Zle_Qle. lia.
        - apply Qlt_shift_div_r; [exact PT|].
          setoid_replace ((inject_Z q + 1) * inject_Z (2 ^ (- e)))
            with (inject_Z ((q + 1) * 2 ^ (- e)))
            by (rewrite inject_Z_mult, inject_Z_plus; reflexivity).
          rewrite <- Zlt_Qlt. lia. }
      rewrite F. destruct q as [|p|p] eqn:Q; [| |lia].
      * split; [exact I|]. reflexivity.
      * apply (@of_Z_correct (Zpos p)). lia.
Qed.

Lemma floor_mono (f g : spec_float) :
  good f -> good g -> val f <= val g ->
  val (Math_floor f) <= val (Math_floor g).
Proof.
  intros Gf Gg L.
  destruct (@floor_correct f Gf) as [_ Vf].
  destruct (@floor_correct g Gg) as [_ Vg].
  rewrite Vf, Vg. rewrite <- Zle_Qle. apply Qfloor_resp_le. exact L.
Qed.

Lemma floor_le (f : spec_float) :
  good f -> val (Math_floor f) <= val f.
Proof.
  intros Gf. destruct (@floor_correct f Gf) as [_ Vf]. rewrite Vf.
  apply Qfloor_le.
Qed.

End Rounding.

(** ** The font-size estimator *)

Section FontSize.

(** The complexity that the source computes from the joined text is the
    complexity of the specification. *)
Lemma source_complexity content :
  (Z.of_nat (length (join content)) + Z.of_nat (length content) * 40)%Z
  = complexity content.
Proof.
  unfold join, complexity, charCount. rewrite length_concat. reflexivity.
Qed.

(** The three cases of the estimator, on the specification's complexity. *)
Lemma estimateSize_thumbnail content baseSize minSize :
  estimateSize content baseSize minSize true = mul baseSize (decimal 4 10).
Proof. reflexivity. Qed.

Lemma estimateSize_easy content baseSize minSize :
  (complexity content <= 300)%Z ->
  estimateSize content baseSize minSize false = baseSize.
Proof.
  intros H. unfold estimateSize, getDynamicFontSize. cbv zeta.
  rewrite source_complexity. apply Z.leb_le in H. rewrite H. reflexivity.
Qed.

Lemma estimateSize_hard content baseSize minSize :
  (300 < complexity content)%Z ->
  estimateSize content baseSize minSize false
  = Math_floor (mul baseSize
                  (Math_max (div minSize baseSize)
                            (linear (complexity content)))).
Proof.
  intros H. unfold estimateSize, getDynamicFontSize. cbv zeta.
  rewrite source_complexity. apply Z.leb_gt in H. rewrite H. reflexivity.
Qed.

Lemma px_of_value (f : FontSize) (n : double) : px_value f = n -> f = px n.
Proof. destruct f as [m]. simpl. intros ->. reflexivity. Qed.

End FontSize.

(** ** The estimator on the values of the doubles *)

Section Sizing.
Import SpecFloat.
Local Open Scope Q_scope.

Lemma one_lt_max : 1 < p2 1024.
Proof.
  apply Qle_lt_trans with (p2 0); [rewrite p2_0; lra|]. apply p2_lt. lia.
Qed.

(** The doubles above zero. *)
Lemma positive_of_ltb (x : double) :
  is_double x = true -> ltb (of_Z 0) x = true -> good x /\ 0 < val x.
Proof.
  change (of_Z 0) with (S754_zero false). unfold is_double, ltb, SFltb.
  destruct x as [s|[|]|  |[|] m e]; cbn [valid_binary SFcompare good val];
    intros D L; try discriminate.
  - split; [exact I|apply p2_pos].
  - split; [exact D|apply F2Q_pos].
Qed.

Lemma above_positive (x y : double) :
  good x -> 0 < val x -> is_double y = true -> leb x y = true ->
  good y /\ val x <= val y.
Proof.
  intros Gx Px Dy L.
  assert (Gy : good y).
  { unfold leb, SFleb in L.
    destruct x as [s|[|]|  |[|] m e]; cbn [good val] in *;
      try contradiction; try lra;
      destruct y as [s'|[|]|  |[|] m' e']; cbn [good];
      try exact I; try exact Dy; cbn [SFcompare] in L; discriminate. }
  split; [exact Gy|]. apply (proj1 (@leb_val x y Gx Gy)). exact L.
Qed.

Lemma finite_of_isFinite (x : double) : isFinite x = true -> finite x.
Proof. destruct x; cbn; intros H; try exact I; discriminate. Qed.

Lemma RN_val (b : double) : positive_double b -> RN (val b) == val b.
Proof.
  intros (G & F & P).
  destruct b as [s|[|]|  |[|] m e]; cbn [good finite val] in *;
    try contradiction; try lra.
  apply RN_exact. exact G.
Qed.

(** [baseSize * scale] for a scale of at most one. *)
Lemma base_times_scale (b s : double) :
  positive_double b -> good s -> val s <= 1 ->
  good (mul b s) /\ val (mul b s) <= val b.
Proof.
  intros Pd Gs Ls. pose proof Pd as (Gb & Fb & Pb).
  pose proof one_lt_max as M. pose proof (val_nonneg s) as Ns.
  assert (Fs : finite s) by (apply val_lt_finite; [exact Gs|lra]).
  destruct (@mul_correct b s Gb Gs Fb Fs) as [G V].
  split; [exact G|]. unfold mul. rewrite V.
  eapply Qle_trans; [apply Q.le_min_l|].
  apply Qle_trans with (RN (val b)); [|rewrite (@RN_val b Pd); lra].
  apply RN_mono.
  - apply Qmult_le_0_compat; lra.
  - setoid_replace (val b) with (val b * 1) at 2 by ring.
    rewrite (Qmult_comm (val b) (val s)), (Qmult_comm (val b) 1).
    apply Qmult_le_compat_r; lra.
Qed.

(** [minSize / baseSize] for a minSize of at most baseSize. *)
Lemma ratio_at_most_one (b m : double) :
  positive_double b -> good m -> val m <= val b ->
  good (div m b) /\ val (div m b) <= 1.
Proof.
  intros (Gb & Fb & Pb) Gm L. pose proof (val_nonneg m) as Nm.
  assert (Fm : finite m).
  { apply val_lt_finite; [exact Gm|].
    pose proof (@val_finite b Gb Fb). lra. }
  destruct (@div_correct m b Gm Gb Fm Pb Fb) as [G V].
  split; [exact G|]. unfold div. rewrite V.
  eapply Qle_trans; [apply Q.le_min_l|].
  apply Qle_trans with (RN 1); [|rewrite RN_1; lra].
  apply RN_mono.
  - apply Qle_shift_div_l; [exact Pb|]. lra.
  - apply Qle_shift_div_r; [exact Pb|]. lra.
Qed.

Lemma of_Z_mono (n1 n2 : Z) :
  (0 <= n1 <= n2)%Z ->
  good (of_Z n1) /\ good (of_Z n2) /\ val (of_Z n1) <= val (of_Z n2).
Proof.
  intros [L U]. unfold of_Z.
  destruct (@normalize_correct n1 0 L) as [G1 V1].
  destruct (@normalize_correct n2 0 ltac:(lia)) as [G2 V2].
  split; [exact G1|]. split; [exact G2|]. rewrite V1, V2.
  apply Qmin_mono. pose proof (p2_pos 0) as P.
  apply RN_mono; unfold F2Q.
  - apply Qmult_le_0_compat; [|lra]. rewrite <- (Zle_Qle 0). exact L.
  - apply Qmult_le_compat_r; [|lra]. rewrite <- Zle_Qle. exact U.
Qed.

Lemma positive_900 : positive_double (of_Z (1200 - 300)).
Proof.
  assert (E : of_Z (1200 - 300) = S754_finite false 7916483719987200 (-43))
    by reflexivity.
  rewrite E. split; [reflexivity|]. split; [exact I|apply F2Q_pos].
Qed.

Lemma positive_six_tenths : positive_double (decimal 6 10).
Proof.
  assert (E : decimal 6 10 = S754_finite false 5404319552844595 (-53))
    by reflexivity.
  rewrite E. split; [reflexivity|]. split; [exact I|apply F2Q_pos].
Qed.

(** The part that is subtracted from one grows with the complexity. *)
Lemma shrink_mono (c1 c2 : Z) :
  (300 <= c1 <= c2)%Z ->
  good (mul (div (of_Z (c1 - 300)) (of_Z (1200 - 300))) (decimal 6 10))
  /\ good (mul (div (of_Z (c2 - 300)) (of_Z (1200 - 300))) (decimal 6 10))
  /\ val (mul (div (of_Z (c1 - 300)) (of_Z (1200 - 300))) (decimal 6 10))
     <= val (mul (div (of_Z (c2 - 300)) (of_Z (1200 - 300))) (decimal 6 10)).
Proof.
  intros H.
  destruct (@of_Z_mono (c1 - 300) (c2 - 300) ltac:(lia)) as (G1 & G2 & L).
  destruct (@div_mono_l _ _ _ G1 G2 L positive_900) as (D1 & D2 & LD).
  exact (@mul_mono_l _ _ _ D1 D2 LD positive_six_tenths).
Qed.

(** The scaled size [Math.floor(baseSize * Math.max(a, linear))]: it falls
    as the complexity grows, between the floor of [baseSize * a] and
    [baseSize]. *)
Lemma scaled_size (b a : double) (c1 c2 : Z) :
  positive_double b -> good a -> val a <= 1 -> (300 <= c1 <= c2)%Z ->
  good (Math_floor (mul b (Math_max a (linear c1))))
  /\ good (Math_floor (mul b (Math_max a (linear c2))))
  /\ good (Math_floor (mul b a))
  /\ val (Math_floor (mul b (Math_max a (linear c2))))
     <= val (Math_floor (mul b (Math_max a (linear c1))))
  /\ val (Math_floor (mul b a))
     <= val (Math_floor (mul b (Math_max a (linear c2))))
  /\ val (Math_floor (mul b (Math_max a (linear c1)))) <= val b.
Proof.
  intros Pb Ga La H. unfold linear.
  destruct (@shrink_mono c1 c2 H) as (Z1 & Z2 & LZ).
  set (z1 := mul (div (of_Z (c1 - 300)) (of_Z (1200 - 300))) (decimal 6 10))
    in *.
  set (z2 := mul (div (of_Z (c2 - 300)) (of_Z (1200 - 300))) (decimal 6 10))
    in *.
  destruct (@scale_spec a z1 Ga Z1 La) as (S1 & A1 & U1).
  destruct (@scale_spec a z2 Ga Z2 La) as (S2 & A2 & U2).
  pose proof (@scale_mono a z1 z2 Ga Z1 Z2 LZ) as SM.
  set (s1 := Math_max a (sub (of_Z 1) z1)) in *.
  set (s2 := Math_max a (sub (of_Z 1) z2)) in *.
  pose proof one_lt_max as M.
  assert (F1 : finite s1) by (apply val_lt_finite; [exact S1|lra]).
  assert (F2 : finite s2) by (apply val_lt_finite; [exact S2|lra]).
  destruct (@mul_mono_r b s2 s1 Pb S2 S1 F1 SM) as (P2 & P1 & LP).
  destruct (@mul_mono_r b a s2 Pb Ga S2 F2 A2) as (Pa & _ & LA).
  destruct (@base_times_scale b s1 Pb S1 U1) as (_ & B1).
  destruct (@floor_correct _ P1) as [G1 _].
  destruct (@floor_correct _ P2) as [G2 _].
  destruct (@floor_correct _ Pa) as [G0 _].
  split; [exact G1|]. split; [exact G2|]. split; [exact G0|].
  split; [apply floor_mono; assumption|].
  split; [apply floor_mono; assumption|].
  apply Qle_trans with (val (mul b s1)); [apply floor_le; exact P1|exact B1].
Qed.

(** The quotient of two positive doubles is a rounding of the exact one;
    it can be [+0], never [-0]. *)
Lemma div_positive_rounds (m : positive) (e : Z) (m' : positive) (e' : Z) :
  rounds_to false (RN (F2Q (Zpos m) e / F2Q (Zpos m') e'))
            (SFdiv 53 1024 (S754_finite false m e) (S754_finite false m' e')).
Proof.
  cbn [SFdiv xorb].
  pose proof (div_core_correct m e m' e') as C. cbv zeta in C.
  destruct (SFdiv_core_binary 53 1024 (Zpos m) e (Zpos m') e') as [[q ez] l].
  destruct C as (Hq & In & Le).
  apply BRA_correct; try assumption.
  apply Qlt_shift_div_l; [apply F2Q_pos|]. pose proof (F2Q_pos m e). lra.
Qed.

Lemma ratio_not_negative_zero (b m : double) :
  positive_double b -> good m -> 0 < val m -> finite m ->
  div m b <> S754_zero true.
Proof.
  intros (Gb & Fb & Pb) Gm Pm Fm E. unfold div in E.
  destruct b as [s|[|]|  |[|] mb eb]; cbn [good finite val] in *;
    try contradiction; try lra.
  destruct m as [s|[|]|  |[|] mm em]; cbn [good finite val] in *;
    try contradiction; try lra.
  pose proof (div_positive_rounds mm em mb eb) as R. rewrite E in R.
  cbn [rounds_to] in R. destruct R as [R _]. discriminate.
Qed.

Lemma good_val_zero (l : double) :
  good l -> val l == 0 -> exists s, l = S754_zero s.
Proof.
  pose proof (p2_pos 1024) as P.
  destruct l as [s|[|]|  |[|] m e]; cbn [good val]; intros G V;
    try contradiction; try lra.
  - exists s. reflexivity.
  - pose proof (F2Q_pos m e). lra.
Qed.

Lemma max_of_zero (a l : double) :
  good a -> a <> S754_zero true -> good l -> val l == 0 ->
  Math_max a l = a.
Proof.
  intros Ga Na Gl Vl. destruct (@good_val_zero l Gl Vl) as [s ->].
  destruct a as [[|]|[|]|  |[|] m e]; cbn [good] in Ga;
    try contradiction; reflexivity.
Qed.

(** From the complexity 1800 on the linear factor is zero or negative. *)
Lemma saturated_scale (a : double) (c : Z) :
  good a -> a <> S754_zero true -> (1800 <= c)%Z ->
  Math_max a (linear c) = a.
Proof.
  intros Ga Na H. unfold linear.
  destruct (@shrink_mono 1800 c ltac:(lia)) as (_ & Gz & L).
  assert (E : mul (div (of_Z (1800 - 300)) (of_Z (1200 - 300)))
                  (decimal 6 10) = of_Z 1) by (vm_compute; reflexivity).
  rewrite E in L. pose proof val_one as V1.
  set (z := mul (div (of_Z (c - 300)) (of_Z (1200 - 300))) (decimal 6 10))
    in *.
  destruct (@sub_one z Gz) as [Le Gt].
  destruct (Qlt_le_dec 1 (val z)) as [C|C].
  - apply max_negish; [exact Ga|exact (Gt C)].
  - destruct (Le C) as [Gl Vl]. apply max_of_zero; try assumption.
    rewrite Vl. apply RN_0. lra.
Qed.

End Sizing.

Section FontSizeClaims.

(** C1: in full mode, above the easy threshold, the estimator returns
    floor(baseSize * max(minSize/baseSize,
    1 - ((complexity - 300) / (1200 - 300)) * 0.6)), where complexity is
    the total character count plus 40 for each line and the arithmetic is
    that of the doubles of the source. *)
Theorem estimateSize_full_formula content baseSize minSize :
  (300 < complexity content)%Z ->
  getDynamicFontSize false content baseSize minSize
  = px (Math_floor
          (mul baseSize
             (Math_max (div minSize baseSize)
                (sub (of_Z 1)
                   (mul (div (of_Z (complexity content - 300))
                             (of_Z (1200 - 300)))
                        (decimal 6 10)))))).
Proof.
  intros H. apply px_of_value.
  change (px_value (getDynamicFontSize false content baseSize minSize))
    with (estimateSize content baseSize minSize false).
  rewrite (estimateSize_hard _ _ _ H). reflexivity.
Qed.

(** At the complexity 825 the factor is the double below 0.65, and the
    base size 40 gives 25. *)
Lemma estimateSize_full_formula_witness :
  (300 < complexity [repeat 120%N 785])%Z
  /\ getDynamicFontSize false [repeat 120%N 785] (of_Z 40) (of_Z 20)
     = px (Math_floor
             (mul (of_Z 40)
                (Math_max (div (of_Z 20) (of_Z 40))
                   (sub (of_Z 1)
                      (mul (div (of_Z (complexity [repeat 120%N 785] - 300))
                                (of_Z (1200 - 300)))
                           (decimal 6 10))))))
  /\ getDynamicFontSize false [repeat 120%N 785] (of_Z 40) (of_Z 20)
     = px (of_Z 25).
Proof.
  assert (H : (300 < complexity [repeat 120%N 785])%Z)
    by (vm_compute; reflexivity).
  split; [exact H|].
  split; [exact (@estimateSize_full_formula [repeat 120%N 785]
                   (of_Z 40) (of_Z 20) H)|].
  vm_compute. reflexivity.
Defined.

(** C2, as stated, fails in its bound: the size can be below the floor of
    minSize, which is what floor(baseSize * minSize/baseSize) is in exact
    arithmetic and also what the doubles give when the product is taken
    first.  With 0 < minSize <= baseSize, a long content at the sizes
    (22, 15) is returned at 14, below 15, and at the sizes (49, 1) at 0. *)
Lemma size_below_floor_of_minSize :
  ltb (of_Z 0) (of_Z 15) = true /\ leb (of_Z 15) (of_Z 22) = true
  /\ estimateSize [repeat 120%N 2000] (of_Z 22) (of_Z 15) false = of_Z 14
  /\ Math_floor (of_Z 15) = of_Z 15
  /\ Math_floor (div (mul (of_Z 22) (of_Z 15)) (of_Z 22)) = of_Z 15
  /\ ltb (estimateSize [repeat 120%N 2000] (of_Z 22) (of_Z 15) false)
         (Math_floor (of_Z 15)) = true
  /\ ltb (of_Z 0) (of_Z 1) = true /\ leb (of_Z 1) (of_Z 49) = true
  /\ estimateSize [repeat 120%N 2000] (of_Z 49) (of_Z 1) false
     = SpecFloat.S754_zero false
  /\ ltb (estimateSize [repeat 120%N 2000] (of_Z 49) (of_Z 1) false)
         (Math_floor (of_Z 1)) = true.
Proof. repeat split; vm_compute; reflexivity. Qed.

(** C2, amended: for a fixed line count and finite doubles with
    0 < minSize <= baseSize, the full-mode size does not grow as the total
    character count grows; it is never below
    Math.floor(baseSize * (minSize / baseSize)) as the doubles compute it,
    with the quotient rounded before the product, never above baseSize
    and never negative. *)
Theorem estimateSize_monotone content1 content2 baseSize minSize :
  is_double baseSize = true -> isFinite baseSize = true ->
  is_double minSize = true ->
  ltb (of_Z 0) minSize = true -> leb minSize baseSize = true ->
  length content1 = length content2 ->
  (charCount content1 <= charCount content2)%nat ->
  leb (estimateSize content2 baseSize minSize false)
      (estimateSize content1 baseSize minSize false) = true
  /\ leb (Math_floor (mul baseSize (div minSize baseSize)))
         (estimateSize content2 baseSize minSize false) = true
  /\ leb (estimateSize content1 baseSize minSize false) baseSize = true
  /\ leb (of_Z 0) (estimateSize content2 baseSize minSize false) = true.
Proof.
  intros Db Fb Dm Pm Lm Hl Hc.
  destruct (@positive_of_ltb minSize Dm Pm) as [Gm Vm].
  destruct (@above_positive minSize baseSize Gm Vm Db Lm) as [Gb Vb].
  assert (Pb : positive_double baseSize).
  { split; [exact Gb|]. split; [apply finite_of_isFinite; exact Fb|].
    eapply Qlt_le_trans; eassumption. }
  destruct (@ratio_at_most_one baseSize minSize Pb Gm Vb) as [Ga La].
  assert (C : (complexity content1 <= complexity content2)%Z)
    by (unfold complexity; rewrite Hl; lia).
  destruct (@base_times_scale baseSize _ Pb Ga La) as [Gp Lp].
  destruct (@floor_correct _ Gp) as [G0 _].
  pose proof (@floor_le _ Gp) as F0.
  assert (R : forall f g, good f -> good g -> (val f <= val g)%Q ->
                          leb f g = true).
  { intros f g Gf Gg L. apply (proj2 (@leb_val f g Gf Gg)). exact L. }
  assert (N : forall f, good f -> leb (of_Z 0) f = true).
  { intros f Gf. apply R; [exact I|exact Gf|apply val_nonneg]. }
  destruct (Z_le_gt_dec (complexity content2) 300) as [E2|H2].
  - assert (E1 : (complexity content1 <= 300)%Z) by lia.
    rewrite (@estimateSize_easy content2 baseSize minSize E2).
    rewrite (@estimateSize_easy content1 baseSize minSize E1).
    split; [apply R; [exact Gb|exact Gb|apply Qle_refl]|].
    split; [apply R; [exact G0|exact Gb|eapply Qle_trans; eassumption]|].
    split; [apply R; [exact Gb|exact Gb|apply Qle_refl]|].
    apply N. exact Gb.
  - assert (H2' : (300 < complexity content2)%Z) by lia.
    rewrite (@estimateSize_hard content2 baseSize minSize H2').
    destruct (Z_le_gt_dec (complexity content1) 300) as [E1|H1].
    + rewrite (@estimateSize_easy content1 baseSize minSize E1).
      destruct (@scaled_size baseSize (div minSize baseSize)
                  (complexity content2) (complexity content2) Pb Ga La
                  ltac:(lia)) as (G2 & _ & _ & _ & A & B).
      split; [apply R; assumption|].
      split; [apply R; assumption|].
      split; [apply R; [exact Gb|exact Gb|apply Qle_refl]|].
      apply N. exact G2.
    + assert (H1' : (300 < complexity content1)%Z) by lia.
      rewrite (@estimateSize_hard content1 baseSize minSize H1').
      destruct (@scaled_size baseSize (div minSize baseSize)
                  (complexity content1) (complexity content2) Pb Ga La
                  ltac:(lia)) as (G1 & G2 & _ & M & A & B).
      split; [apply R; assumption|].
      split; [apply R; assumption|].
      split; [apply R; assumption|].
      apply N. exact G2.
Qed.

(** One line of 400 and one of 700 characters at the sizes (40, 20): the
    sizes are 36 and 28, above the floor 20. *)
Lemma estimateSize_monotone_witness :
  is_double (of_Z 40) = true /\ isFinite (of_Z 40) = true
  /\ is_double (of_Z 20) = true
  /\ ltb (of_Z 0) (of_Z 20) = true /\ leb (of_Z 20) (of_Z 40) = true
  /\ length [repeat 120%N 400] = length [repeat 120%N 700]
  /\ (charCount [repeat 120%N 400] <= charCount [repeat 120%N 700])%nat
  /\ estimateSize [repeat 120%N 400] (of_Z 40) (of_Z 20) false = of_Z 36
  /\ estimateSize [repeat 120%N 700] (of_Z 40) (of_Z 20) false = of_Z 28
  /\ Math_floor (mul (of_Z 40) (div (of_Z 20) (of_Z 40))) = of_Z 20
  /\ leb (estimateSize [repeat 120%N 700] (of_Z 40) (of_Z 20) false)
         (estimateSize [repeat 120%N 400] (of_Z 40) (of_Z 20) false) = true
  /\ leb (Math_floor (mul (of_Z 40) (div (of_Z 20) (of_Z 40))))
         (estimateSize [repeat 120%N 700] (of_Z 40) (of_Z 20) false) = true
  /\ leb (estimateSize [repeat 120%N 400] (of_Z 40) (of_Z 20) false)
         (of_Z 40) = true
  /\ leb (of_Z 0)
         (estimateSize [repeat 120%N 700] (of_Z 40) (of_Z 20) false) = true.
Proof.
  assert (H1 : is_double (of_Z 40) = true) by reflexivity.
  assert (H2 : isFinite (of_Z 40) = true) by reflexivity.
  assert (H3 : is_double (of_Z 20) = true) by reflexivity.
  assert (H4 : ltb (of_Z 0) (of_Z 20) = true) by reflexivity.
  assert (H5 : leb (of_Z 20) (of_Z 40) = true) by reflexivity.
  assert (H6 : length [repeat 120%N 400] = length [repeat 120%N 700])
    by reflexivity.
  assert (H7 : (charCount [repeat 120%N 400]
                <= charCount [repeat 120%N 700])%nat)
    by (apply Nat.leb_le; vm_compute; reflexivity).
  split; [exact H1|]. split; [exact H2|]. split; [exact H3|].
  split; [exact H4|]. split; [exact H5|]. split; [exact H6|].
  split; [exact H7|].
  split; [vm_compute; reflexivity|].
  split; [vm_compute; reflexivity|].
  split; [vm_compute; reflexivity|].
  exact (@estimateSize_monotone [repeat 120%N 400] [repeat 120%N 700]
           (of_Z 40) (of_Z 20) H1 H2 H3 H4 H5 H6 H7).
Defined.

(** X21: for finite doubles with 0 < minSize <= baseSize the full-mode
    size is, from the complexity 1800 on, exactly
    Math.floor(baseSize * (minSize / baseSize)), whatever the content. *)
Theorem estimateSize_saturates content baseSize minSize :
  is_double baseSize = true -> isFinite baseSize = true ->
  is_double minSize = true ->
  ltb (of_Z 0) minSize = true -> leb minSize baseSize = true ->
  (1800 <= complexity content)%Z ->
  estimateSize content baseSize minSize false
  = Math_floor (mul baseSize (div minSize baseSize)).
Proof.
  intros Db Fb Dm Pm Lm H.
  destruct (@positive_of_ltb minSize Dm Pm) as [Gm Vm].
  destruct (@above_positive minSize baseSize Gm Vm Db Lm) as [Gb Vb].
  assert (Pb : positive_double baseSize).
  { split; [exact Gb|]. split; [apply finite_of_isFinite; exact Fb|].
    eapply Qlt_le_trans; eassumption. }
  destruct (@ratio_at_most_one baseSize minSize Pb Gm Vb) as [Ga La].
  assert (Fm : finite minSize).
  { apply val_lt_finite; [exact Gm|].
    destruct Pb as (_ & F & _). pose proof (@val_finite baseSize Gb F) as U.
    eapply Qle_lt_trans; eassumption. }
  rewrite (@estimateSize_hard content baseSize minSize ltac:(lia)).
  rewrite (@saturated_scale (div minSize baseSize) (complexity content) Ga
             (@ratio_not_negative_zero baseSize minSize Pb Gm Vm Fm) H).
  reflexivity.
Qed.

(** 2000 characters in one line at the sizes (22, 15): the size is 14. *)
Lemma estimateSize_saturates_witness :
  is_double (of_Z 22) = true /\ isFinite (of_Z 22) = true
  /\ is_double (of_Z 15) = true
  /\ ltb (of_Z 0) (of_Z 15) = true /\ leb (of_Z 15) (of_Z 22) = true
  /\ (1800 <= complexity [repeat 120%N 2000])%Z
  /\ Math_floor (mul (of_Z 22) (div (of_Z 15) (of_Z 22))) = of_Z 14
  /\ estimateSize [repeat 120%N 2000] (of_Z 22) (of_Z 15) false
     = Math_floor (mul (of_Z 22) (div (of_Z 15) (of_Z 22))).
Proof.
  assert (H1 : is_double (of_Z 22) = true) by reflexivity.
  assert (H2 : isFinite (of_Z 22) = true) by reflexivity.
  assert (H3 : is_double (of_Z 15) = true) by reflexivity.
  assert (H4 : ltb (of_Z 0) (of_Z 15) = true) by reflexivity.
  assert (H5 : leb (of_Z 15) (of_Z 22) = true) by reflexivity.
  assert (H6 : (1800 <= complexity [repeat 120%N 2000])%Z)
    by (vm_compute; discriminate).
  split; [exact H1|]. split; [exact H2|]. split; [exact H3|].
  split; [exact H4|]. split; [exact H5|]. split; [exact H6|].
  split; [vm_compute; reflexivity|].
  exact (@estimateSize_saturates [repeat 120%N 2000] (of_Z 22) (of_Z 15)
           H1 H2 H3 H4 H5 H6).
Defined.

(** C7: in full mode a content of complexity at most 300 is returned at
    baseSize, unscaled. *)
Theorem estimateSize_short_unscaled content baseSize minSize :
  (complexity content <= 300)%Z ->
  getDynamicFontSize false content baseSize minSize = px baseSize
  /\ estimateSize content baseSize minSize false = baseSize.
Proof.
  intros H. pose proof (estimateSize_easy content baseSize minSize H) as E.
  split; [|exact E].
  unfold estimateSize in E.
  destruct (getDynamicFontSize false content baseSize minSize) as [n].
  simpl in E. rewrite E. reflexivity.
Qed.

(** estimateSize(["short"], 64, 32, false) == 64. *)
Lemma estimateSize_short_unscaled_witness :
  (complexity [lit "short"] <= 300)%Z
  /\ getDynamicFontSize false [lit "short"] (of_Z 64) (of_Z 32)
     = px (of_Z 64)
  /\ estimateSize [lit "short"] (of_Z 64) (of_Z 32) false = of_Z 64.
Proof.
  split.
  - vm_compute. discriminate.
  - apply (@estimateSize_short_unscaled [lit "short"] (of_Z 64) (of_Z 32)).
    vm_compute. discriminate.
Defined.

(** C4, as stated, fails: in thumbnail mode estimateSize([], 64, 32, true)
    is 25.6, which is above 25 and not the floor of [64 * 0.4]. *)
Lemma thumbnail_not_floored :
  eqb (estimateSize [] (of_Z 64) (of_Z 32) true) (of_Z 25) = false
  /\ ltb (of_Z 25) (estimateSize [] (of_Z 64) (of_Z 32) true) = true
  /\ estimateSize [] (of_Z 64) (of_Z 32) true
     <> Math_floor (mul (of_Z 64) (decimal 4 10)).
Proof. repeat split. vm_compute. discriminate. Qed.

(** C4, amended: in thumbnail mode the estimator returns baseSize * 0.4
    as it is, without the floor of the full mode, whatever the content;
    estimateSize(content, 64, 32, true) is 25.6 for every content list. *)
Theorem thumbnail_fixed_fraction content baseSize minSize :
  getDynamicFontSize true content baseSize minSize
  = px (mul baseSize (decimal 4 10))
  /\ estimateSize content (of_Z 64) (of_Z 32) true = decimal 256 10
  /\ estimateSize content (of_Z 64) (of_Z 32) true
     = estimateSize [] (of_Z 64) (of_Z 32) true.
Proof. repeat split. Qed.

(** C10, as stated, fails in its example: for baseSize 24 the result is
    not the double 9.6 but the next double above it, which is printed as
    9.600000000000001. *)
Lemma thumbnail_24_is_not_9_6 :
  decimal 96 10 = SpecFloat.S754_finite false 5404319552844595 (-49)
  /\ estimateSize [] (of_Z 24) (of_Z 12) true
     = SpecFloat.S754_finite false 5404319552844596 (-49)
  /\ eqb (estimateSize [] (of_Z 24) (of_Z 12) true) (decimal 96 10) = false
  /\ ltb (decimal 96 10) (estimateSize [] (of_Z 24) (of_Z 12) true) = true.
Proof. repeat split. Qed.

(** C10, amended: in thumbnail mode the result does not depend on minSize
    and is not clamped by it: it is baseSize * 0.4 even when that is below
    minSize, as for baseSize 24 and minSize 12, where it is the double
    5404319552844596 * 2^-49, printed as 9.600000000000001. *)
Theorem thumbnail_ignores_minSize content baseSize minSize minSize' :
  estimateSize content baseSize minSize true = mul baseSize (decimal 4 10)
  /\ estimateSize content baseSize minSize true
     = estimateSize content baseSize minSize' true
  /\ estimateSize content (of_Z 24) (of_Z 12) true
     = SpecFloat.S754_finite false 5404319552844596 (-49)
  /\ ltb (estimateSize content (of_Z 24) (of_Z 12) true) (of_Z 12) = true
  /\ ltb (estimateSize content (of_Z 24) (of_Z 12) true) (decimal 9601 1000)
     = true.
Proof. repeat split. Qed.

(** The rounding of the doubles shows in the sizes.  At the complexity 825
    the exact value of the formula is 26 for the sizes (40, 20) and 13 for
    (20, 12); the source returns 25 and 12. *)
Example sizes_at_825 :
  estimateSize [repeat 120%N 785] (of_Z 40) (of_Z 20) false = of_Z 25
  /\ estimateSize [repeat 120%N 785] (of_Z 20) (of_Z 12) false = of_Z 12.
Proof. split; vm_compute; reflexivity. Qed.

(** A base size of zero divides by zero: the size is NaN. *)
Example zero_baseSize_is_NaN :
  estimateSize [repeat 120%N 785] (of_Z 0) (of_Z 12) false
  = SpecFloat.S754_nan.
Proof. vm_compute. reflexivity. Qed.

End FontSizeClaims.

(** ** The layout dispatcher *)

Section Layout.

Lemma eqb_eq (s t : jsstring) : JS.eqb s t = true <-> s = t.
Proof.
  revert t. induction s as [|c s IH]; intros [|d t]; simpl;
    try (split; [discriminate | congruence]); try tauto.
  rewrite andb_true_iff, N.eqb_eq, IH.
  split; [intros [-> ->]; reflexivity | intros E; inversion E; auto].
Qed.

Lemma eqb_neq (s t : jsstring) : s <> t -> JS.eqb s t = false.
Proof.
  intros H. destruct (JS.eqb s t) eqn:E; [|reflexivity].
  apply eqb_eq in E. contradiction.
Qed.

(** Decides the case tests of the [switch] once the tag is a literal. *)
Ltac switch_on_literal :=
  repeat match goal with
         | |- context [JS.eqb (lit ?a) (lit ?b)] =>
             let v := eval vm_compute in (JS.eqb (lit a) (lit b)) in
             change (JS.eqb (lit a) (lit b)) with v
         end;
  cbv iota; cbn [orb].

(** C9: a layout tag outside the closed set is laid out as the tag
    "content" is; the dispatch is a total function of the tag string. *)
Theorem unknown_tag_falls_back (tag : jsstring) (s : Slide)
        (isThumbnail imgLoaded : bool) :
  ~ In tag layoutTags ->
  selectTemplate tag s isThumbnail imgLoaded
  = selectTemplate (lit "content") s isThumbnail imgLoaded.
Proof.
  intros H. unfold selectTemplate, renderLayout.
  cbn [layout with_layout].
  rewrite !(@eqb_neq tag) by (intros ->; apply H; simpl; tauto).
  reflexivity.
Qed.

(** selectTemplate("bogus-tag") is selectTemplate("content"). *)
Lemma unknown_tag_falls_back_witness :
  ~ In (lit "bogus-tag") layoutTags
  /\ selectTemplate (lit "bogus-tag") (sample_slide "title" []) false false
     = selectTemplate (lit "content") (sample_slide "title" []) false false.
Proof.
  assert (H : ~ In (lit "bogus-tag") layoutTags).
  { simpl. intros H.
    repeat (destruct H as [H|H]; [discriminate H|]). exact H. }
  split; [exact H|].
  apply (@unknown_tag_falls_back (lit "bogus-tag") _ false false H).
Defined.

(** [slice(0, k)] and [slice(k)] cut an array at [k]. *)
Lemma slice_0 (A : Type) (l : list A) (k : nat) :
  (k <= length l)%nat -> slice l 0 (Z.of_nat k) = firstn k l.
Proof.
  intros H. unfold slice. simpl (0 <? 0)%Z. cbv iota.
  destruct (Z.of_nat k <? 0)%Z eqn:E; [apply Z.ltb_lt in E; lia|].
  rewrite !Z.min_l by lia.
  rewrite Z.sub_0_r, Nat2Z.id. reflexivity.
Qed.

Lemma slice_from_k (A : Type) (l : list A) (k : nat) :
  (k <= length l)%nat -> slice_from l (Z.of_nat k) = skipn k l.
Proof.
  intros H. unfold slice_from, slice.
  destruct (Z.of_nat k <? 0)%Z eqn:E; [apply Z.ltb_lt in E; lia|].
  destruct (Z.of_nat (length l) <? 0)%Z eqn:E'; [apply Z.ltb_lt in E'; lia|].
  rewrite !Z.min_l by lia.
  rewrite Nat2Z.id. rewrite <- Nat2Z.inj_sub by lia. rewrite Nat2Z.id.
  rewrite <- (length_skipn k l). apply firstn_all.
Qed.

Lemma Qceiling_half (n : Z) : Qceiling (inject_Z n / 2) = ((n + 1) / 2)%Z.
Proof.
  unfold Qceiling.
  assert (E : (- (inject_Z n / 2) == inject_Z (- n) / inject_Z 2)%Q).
  { rewrite inject_Z_opp. change (inject_Z 2) with 2%Q. field. }
  rewrite (Qfloor_comp _ _ E), <- Zdiv_Qdiv.
  Z.div_mod_to_equations. lia.
Qed.

Lemma ceil_half_spec (n : nat) : ceil_half n = ((n + 1) / 2)%nat.
Proof.
  unfold ceil_half. rewrite Qceiling_half.
  apply Nat2Z.inj. rewrite Nat2Z.inj_div, Nat2Z.inj_add.
  rewrite Z2Nat.id; [reflexivity|]. apply Z.div_pos; lia.
Qed.

Lemma split_point (A : Type) (l : list A) :
  index (Math_ceil (len l / 2)) = Z.of_nat (ceil_half (length l)).
Proof.
  unfold index, Math_ceil, len, ceil_half. rewrite Qfloor_Z.
  rewrite Z2Nat.id; [reflexivity|].
  rewrite Qceiling_half. apply Z.div_pos; lia.
Qed.

(** C8: the split layout gives the first ceil(n/2) items, in order, to
    the left column and the rest to the right one (3 and 2 of 5), both at
    the one font size computed from the whole content list. *)
Theorem split_columns (s : Slide) (isThumbnail imgLoaded : bool) :
  layout s = lit "split" ->
  let n := length (content s) in
  exists left right,
    renderLayout s isThumbnail imgLoaded
    = SplitCard (if isThumbnail then text_sm else text_3xl)
        (SmartText (Some (title s))) left right
    /\ items left
       = map (fun item => SmartText (Some item))
             (firstn (ceil_half n) (content s))
    /\ items right
       = map (fun item => SmartText (Some item))
             (skipn (ceil_half n) (content s))
    /\ length (items left) = ceil_half n
    /\ length (items right) = (n - ceil_half n)%nat
    /\ items left ++ items right
       = map (fun item => SmartText (Some item)) (content s)
    /\ listFontSize left
       = getDynamicFontSize isThumbnail (content s)
           (of_Z (if isThumbnail then 9 else 18))
           (of_Z (if isThumbnail then 7 else 12))
    /\ listFontSize right = listFontSize left
    /\ ceil_half n = ((n + 1) / 2)%nat
    /\ ceil_half 5 = 3%nat.
Proof.
  intros Hsplit n.
  assert (Hk : (ceil_half n <= n)%nat).
  { rewrite ceil_half_spec. destruct n; [apply Nat.le_refl|].
    apply Nat.Div0.div_le_upper_bound. lia. }
  unfold renderLayout. rewrite Hsplit. switch_on_literal.
  rewrite (split_point (content s)). fold n.
  rewrite slice_0, slice_from_k by exact Hk.
  eexists. eexists. split; [reflexivity|].
  cbn [items listFontSize]. unfold bullet_items.
  split; [reflexivity|]. split; [reflexivity|].
  split; [rewrite length_map, length_firstn; fold n; lia|].
  split; [rewrite length_map, length_skipn; reflexivity|].
  split; [rewrite <- map_app, firstn_skipn; reflexivity|].
  split; [reflexivity|]. split; [reflexivity|].
  split; [apply ceil_half_spec | reflexivity].
Qed.

(** Five items: three to the left, two to the right. *)
Lemma split_columns_witness :
  let s := sample_slide "split"
             [lit "a"; lit "b"; lit "c"; lit "d"; lit "e"] in
  layout s = lit "split"
  /\ exists left right,
       renderLayout s false false
       = SplitCard text_3xl (Parts [PlainText (lit "Title")]) left right
       /\ items left
          = [Parts [PlainText (lit "a")]; Parts [PlainText (lit "b")];
             Parts [PlainText (lit "c")]]
       /\ items right
          = [Parts [PlainText (lit "d")]; Parts [PlainText (lit "e")]]
       /\ listFontSize left = px (of_Z 18)
       /\ listFontSize right = px (of_Z 18).
Proof.
  split; [reflexivity|].
  destruct (@split_columns
              (sample_slide "split"
                 [lit "a"; lit "b"; lit "c"; lit "d"; lit "e"])
              false false eq_refl)
    as (left & right & E & L & R & _ & _ & _ & SL & SR & _).
  exists left, right. split; [exact E|].
  split; [rewrite L; reflexivity|]. split; [rewrite R; reflexivity|].
  split; [rewrite SL | rewrite SR, SL]; reflexivity.
Defined.

(** X23: the quote layout shows the first content entry only, under the
    title as attribution; in thumbnail mode nothing else of the content is
    read. *)
Lemma quote_text_reads_first_entry (s1 s2 : Slide) (isThumbnail l1 l2 : bool) :
  layout s1 = lit "quote" -> layout s2 = lit "quote" ->
  title s1 = title s2 ->
  first_entry (content s1) = first_entry (content s2) ->
  exists size1 size2 body attribution,
    renderLayout s1 isThumbnail l1
    = QuoteCard (negb isThumbnail)
        {| fontSize := size1; text := body |} attribution
    /\ renderLayout s2 isThumbnail l2
       = QuoteCard (negb isThumbnail)
           {| fontSize := size2; text := body |} attribution
    /\ body = SmartText (first_entry (content s1))
    /\ (isThumbnail = true -> size1 = size2).
Proof.
  intros L1 L2 T F. unfold renderLayout. rewrite L1, L2, T, F.
  switch_on_literal.
  do 4 eexists. split; [reflexivity|]. split; [reflexivity|].
  split; [reflexivity|]. intros ->. reflexivity.
Qed.

(** C3: the body font size of the quote layout is computed from the whole
    content list, not from content[0].  Two full-size quote slides with the
    same title, subtitle and content[0] are rendered with the same text at
    40px when the entry stands alone and at 37px when eight more entries
    follow it. *)
Theorem quote_size_reads_all_content :
  title quote_alone = title quote_with_extras
  /\ subtitle quote_alone = subtitle quote_with_extras
  /\ layout quote_alone = lit "quote"
  /\ layout quote_with_extras = lit "quote"
  /\ first_entry (content quote_alone)
     = first_entry (content quote_with_extras)
  /\ renderLayout quote_alone false false
     = QuoteCard true
         {| fontSize := px (of_Z 40);
            text := Parts [PlainText (lit "To be")] |}
         {| fontSize := px (of_Z 20);
            text := Parts [PlainText (lit "Title")] |}
  /\ renderLayout quote_with_extras false false
     = QuoteCard true
         {| fontSize := px (of_Z 37);
            text := Parts [PlainText (lit "To be")] |}
         {| fontSize := px (of_Z 20);
            text := Parts [PlainText (lit "Title")] |}
  /\ renderLayout quote_alone false false
     <> renderLayout quote_with_extras false false.
Proof.
  repeat split. vm_compute. discriminate.
Qed.

End Layout.

(** ** The text/math segmenter *)

Section Segmenter.

(** *** Prefixes, suffixes and slices *)

Lemma is_prefix_app (a r : jsstring) : is_prefix a (a ++ r) = true.
Proof.
  induction a as [|c a IH]; simpl; [reflexivity|].
  rewrite N.eqb_refl. exact IH.
Qed.

Lemma is_prefix_inv (a t : jsstring) :
  is_prefix a t = true -> exists r, t = a ++ r.
Proof.
  revert t. induction a as [|c a IH]; intros t H.
  - exists t. reflexivity.
  - destruct t as [|d t]; [discriminate H|]. simpl in H.
    apply andb_true_iff in H. destruct H as [E H].
    apply N.eqb_eq in E. subst d.
    destruct (IH t H) as [r ->]. exists r. reflexivity.
Qed.

Lemma endsWith_app (r b : jsstring) : endsWith (r ++ b) b = true.
Proof. unfold endsWith. rewrite rev_app_distr. apply is_prefix_app. Qed.

Lemma endsWith_inv (t b : jsstring) :
  endsWith t b = true -> exists r, t = r ++ b.
Proof.
  unfold endsWith. intros H. apply is_prefix_inv in H.
  destruct H as [r H]. exists (rev r).
  rewrite <- (rev_involutive t), H, rev_app_distr, rev_involutive.
  reflexivity.
Qed.

(** [slice(n, -m)] takes the middle of a string out of its two ends. *)
Lemma slice_middle (A : Type) (a p b : list A) :
  b <> [] ->
  slice (a ++ p ++ b) (Z.of_nat (length a)) (- Z.of_nat (length b)) = p.
Proof.
  intros Hb. unfold slice.
  assert (0 < length b)%nat by (destruct b; [congruence | simpl; lia]).
  rewrite !length_app.
  destruct (Z.of_nat (length a) <? 0)%Z eqn:E1;
    [apply Z.ltb_lt in E1; lia|].
  destruct (- Z.of_nat (length b) <? 0)%Z eqn:E2;
    [|apply Z.ltb_ge in E2; lia].
  rewrite Z.min_l, Z.max_l by lia.
  rewrite Nat2Z.id, skipn_app, skipn_all, Nat.sub_diag. simpl.
  replace (Z.to_nat _) with (length p) by lia.
  rewrite firstn_app, firstn_all, Nat.sub_diag. simpl.
  apply app_nil_r.
Qed.

(** A string that starts and ends with a delimiter, and is long enough for
    the two not to overlap, is the delimiter, the slice between, and the
    delimiter again. *)
Lemma delimited_restore (d t : jsstring) :
  d <> [] ->
  startsWith t d = true -> endsWith t d = true ->
  (2 * length d <= length t)%nat ->
  d ++ slice t (Z.of_nat (length d)) (- Z.of_nat (length d)) ++ d = t.
Proof.
  intros Hd Hs He Hlen.
  apply is_prefix_inv in Hs. destruct Hs as [r1 E1].
  apply endsWith_inv in He. destruct He as [r2 E2].
  assert (Hr : exists m, r1 = m ++ d).
  { exists (firstn (length r1 - length d) r1).
    assert (L : length r1 = length r2).
    { apply (f_equal (@length _)) in E1, E2.
      rewrite length_app in E1, E2. lia. }
    assert (S1 : skipn (length r2) t = d)
      by (rewrite E2, skipn_app, skipn_all, Nat.sub_diag; reflexivity).
    rewrite E1, skipn_app in S1.
    rewrite E1, length_app in Hlen.
    rewrite skipn_all2 in S1 by lia. simpl in S1.
    rewrite <- L in S1.
    rewrite <- (firstn_skipn (length r1 - length d) r1) at 1.
    rewrite S1. reflexivity. }
  destruct Hr as [m ->]. subst t.
  rewrite slice_middle by exact Hd. reflexivity.
Qed.

(** *** The matcher and the split loop *)

(** A match consumes a prefix of the input, and the continuation accepts
    what is left. *)
Lemma lazy_dots_sound (A : Type) (k : jsstring -> option A) s e :
  lazy_dots k s = Some e -> exists m s', s = m ++ s' /\ k s' = Some e.
Proof.
  induction s as [|c s IH]; simpl; intros H.
  - destruct (k []) eqn:K; [|discriminate H].
    exists [], []. split; [reflexivity | congruence].
  - destruct (k (c :: s)) eqn:K.
    + exists [], (c :: s). split; [reflexivity | congruence].
    + destruct (isLineTerminator c); [discriminate H|].
      destruct (IH H) as (m & s' & -> & K').
      exists (c :: m), s'. split; [reflexivity | exact K'].
Qed.

Lemma rmatch_sound (A : Type) (r : regex) :
  forall s (k : jsstring -> option A) e,
    rmatch r s k = Some e -> exists m s', s = m ++ s' /\ k s' = Some e.
Proof.
  induction r as [c| |r1 IH1 r2 IH2|r1 IH1 r2 IH2|r1 IH1];
    intros s k e H; simpl in H.
  - destruct s as [|d s]; [discriminate H|].
    destruct (c =? d)%N; [|discriminate H].
    exists [d], s. split; [reflexivity | exact H].
  - apply lazy_dots_sound. exact H.
  - destruct (IH1 _ _ _ H) as (m1 & s1 & -> & H1).
    destruct (IH2 _ _ _ H1) as (m2 & s2 & -> & H2).
    exists (m1 ++ m2), s2. split; [apply app_assoc | exact H2].
  - destruct (rmatch r1 s k) eqn:M1.
    + apply (IH1 s k e). congruence.
    + apply (IH2 s k e). exact H.
  - apply (IH1 s k e). exact H.
Qed.

Lemma firstn_consumed (A : Type) (m rest : list A) :
  firstn (length (m ++ rest) - length rest) (m ++ rest) = m.
Proof.
  rewrite length_app, Nat.add_sub, firstn_app, firstn_all, Nat.sub_diag.
  simpl. apply app_nil_r.
Qed.

Lemma exec_sound (r : regex) s matched rest :
  exec r s = Some (matched, rest) -> s = matched ++ rest.
Proof.
  unfold exec. destruct (rmatch r s _) as [rest'|] eqn:M; [|discriminate].
  intros E. injection E as <- <-.
  apply rmatch_sound in M. destruct M as (m & s' & -> & K).
  injection K as ->. rewrite firstn_consumed. reflexivity.
Qed.

(** The parts of a split, concatenated, are the text: no character is lost
    and none is added. *)
Lemma split_loop_concat (r : regex) fuel :
  forall piece s, concat (split_loop r fuel piece s) = piece ++ s.
Proof.
  induction fuel as [|fuel IH]; intros piece s; simpl.
  - apply app_nil_r.
  - destruct s as [|c s]; [simpl; reflexivity|].
    destruct (exec r (c :: s)) as [[matched rest]|] eqn:E.
    + apply exec_sound in E.
      destruct matched as [|d matched]; [destruct piece as [|b piece]|].
      * rewrite IH. reflexivity.
      * simpl. rewrite IH. simpl in E. rewrite <- E. reflexivity.
      * simpl. rewrite IH. simpl. rewrite E. reflexivity.
    + rewrite IH, <- app_assoc. reflexivity.
Qed.

Lemma split_concat (r : regex) text : concat (split r text) = text.
Proof.
  destruct text as [|c text].
  - simpl. destruct (exec r []); reflexivity.
  - unfold split. apply split_loop_concat.
Qed.

(** The loop ends before its fuel does: from [iterations piece s] on, the
    result is the same. *)
Lemma split_loop_fuel (r : regex) :
  forall fuel fuel' piece s,
    (iterations piece s <= fuel)%nat -> (iterations piece s <= fuel')%nat ->
    split_loop r fuel piece s = split_loop r fuel' piece s.
Proof.
  induction fuel as [|fuel IH]; intros fuel' piece s H H'.
  - unfold iterations in H. destruct s; [|simpl in H; lia].
    destruct fuel'; simpl; rewrite ?app_nil_r; reflexivity.
  - destruct s as [|c s].
    { destruct fuel'; simpl; rewrite ?app_nil_r; reflexivity. }
    destruct fuel' as [|fuel']; [unfold iterations in H'; simpl in H'; lia|].
    assert (Hadv : split_loop r fuel (piece ++ [c]) s
                   = split_loop r fuel' (piece ++ [c]) s).
    { apply IH; unfold iterations in *; simpl in *;
        destruct (piece ++ [c]); lia. }
    simpl. destruct (exec r (c :: s)) as [[matched rest]|] eqn:E;
      [|exact Hadv].
    apply exec_sound in E. apply (f_equal (@length _)) in E.
    rewrite length_app in E. simpl in E.
    destruct matched as [|d matched]; [destruct piece as [|b piece]|].
    + exact Hadv.
    + do 2 f_equal. apply IH; unfold iterations in *; simpl in *; lia.
    + do 2 f_equal. apply IH; unfold iterations in *; simpl in *; lia.
Qed.

Lemma split_fuel_enough (r : regex) (c : code_unit) text fuel :
  (iterations [] (c :: text) <= fuel)%nat ->
  split_loop r fuel [] (c :: text) = split r (c :: text).
Proof.
  intros H. unfold split. apply split_loop_fuel; [exact H | apply Nat.le_refl].
Qed.

(** *** The math pattern *)

(** [.*?] walks over characters at which the rest of the pattern cannot
    start. *)
Lemma lazy_dots_skip (A : Type) (k : jsstring -> option A) p t :
  single_line p = true ->
  (forall c x, In c p -> k (c :: x) = None) ->
  lazy_dots k (p ++ t) = lazy_dots k t.
Proof.
  induction p as [|c p IH]; intros Hl Hk; [reflexivity|].
  simpl in Hl. apply andb_true_iff in Hl. destruct Hl as [Hc Hl].
  apply negb_true_iff in Hc.
  simpl. rewrite (Hk c (p ++ t)) by (left; reflexivity).
  rewrite Hc. apply IH; [exact Hl|].
  intros d x Hd. apply Hk. right. exact Hd.
Qed.

Lemma no_dollar_In p c : no_dollar p = true -> In c p -> (dollar =? c)%N = false.
Proof.
  unfold no_dollar. rewrite forallb_forall. intros H Hc.
  specialize (H c Hc). apply negb_true_iff in H.
  rewrite N.eqb_sym. exact H.
Qed.

Lemma expression_inv p :
  expression p = true ->
  exists c p', p = c :: p' /\ (dollar =? c)%N = false /\ no_dollar p = true.
Proof.
  destruct p as [|c p']; [discriminate|]. intros H.
  exists c, p'. repeat split; [|exact H].
  apply (no_dollar_In (c :: p') c H). left. reflexivity.
Qed.

(** No match starts at a character other than [$]. *)
Lemma exec_plain c s : c <> dollar -> exec math_pattern (c :: s) = None.
Proof.
  intros H. unfold exec, math_pattern. cbn [rmatch].
  destruct (dollar =? c)%N eqn:E; [|reflexivity].
  apply N.eqb_eq in E. congruence.
Qed.

(** At an inline span the first alternative fails and the second matches
    the span. *)
Lemma exec_inline p s :
  one_line_expression p = true ->
  exec math_pattern (dollar :: p ++ dollar :: s)
  = Some (dollar :: p ++ [dollar], s).
Proof.
  intros H. apply andb_true_iff in H. destruct H as [He Hl].
  destruct (expression_inv p He) as (c & p' & Ep & Hc & Hn).
  assert (M : rmatch math_pattern (dollar :: p ++ dollar :: s)
                (fun rest => Some rest) = Some s).
  { unfold math_pattern. cbn [rmatch]. rewrite N.eqb_refl.
    rewrite Ep at 1. cbn [app]. rewrite Hc.
    rewrite lazy_dots_skip.
    - simpl. reflexivity.
    - exact Hl.
    - intros d x Hd. rewrite (no_dollar_In p d Hn Hd). reflexivity. }
  unfold exec. rewrite M. f_equal. f_equal.
  change (dollar :: p ++ dollar :: s) with ((dollar :: p) ++ dollar :: s).
  replace ((dollar :: p) ++ dollar :: s)
    with ((dollar :: p ++ [dollar]) ++ s)
    by (simpl; rewrite <- app_assoc; reflexivity).
  apply firstn_consumed.
Qed.

(** At a block span the first alternative matches the span. *)
Lemma exec_block p s :
  one_line_expression p = true ->
  exec math_pattern (dollar :: dollar :: p ++ dollar :: dollar :: s)
  = Some (dollar :: dollar :: p ++ [dollar; dollar], s).
Proof.
  intros H. apply andb_true_iff in H. destruct H as [He Hl].
  destruct (expression_inv p He) as (c & p' & Ep & Hc & Hn).
  assert (M : rmatch math_pattern
                (dollar :: dollar :: p ++ dollar :: dollar :: s)
                (fun rest => Some rest) = Some s).
  { unfold math_pattern. cbn [rmatch]. rewrite !N.eqb_refl.
    rewrite lazy_dots_skip.
    - simpl. reflexivity.
    - exact Hl.
    - intros d x Hd. rewrite (no_dollar_In p d Hn Hd). reflexivity. }
  unfold exec. rewrite M. f_equal. f_equal.
  replace (dollar :: dollar :: p ++ dollar :: dollar :: s)
    with ((dollar :: dollar :: p ++ [dollar; dollar]) ++ s)
    by (simpl; rewrite <- app_assoc; reflexivity).
  apply firstn_consumed.
Qed.

(** *** Parts and their segments *)

(** A part comes back from its segment unless its two delimiters overlap
    (the parts [$], [$$] and [$$$]). *)
Lemma restore_render_part part :
  (wrapped part = true -> (4 <= length part)%nat) ->
  (startsWith part (lit "$") && endsWith part (lit "$") = true ->
   (2 <= length part)%nat) ->
  restore (render_part part) = part.
Proof.
  intros H2 H1. unfold render_part. fold (wrapped part).
  destruct (wrapped part) eqn:W.
  - unfold wrapped in W. apply andb_true_iff in W. destruct W as [Ws We].
    apply (@delimited_restore (lit "$$") part);
      [discriminate | exact Ws | exact We | apply H2; reflexivity].
  - destruct (startsWith part (lit "$") && endsWith part (lit "$")) eqn:D.
    + apply andb_true_iff in D. destruct D as [Ds De].
      apply (@delimited_restore (lit "$") part);
        [discriminate | exact Ds | exact De | apply H1; reflexivity].
    + reflexivity.
Qed.

Lemma starts_no_dollar piece d :
  no_dollar piece = true -> startsWith piece (dollar :: d) = false.
Proof.
  destruct piece as [|c piece]; [reflexivity|].
  unfold no_dollar. cbn [forallb]. intros H.
  apply andb_true_iff in H. destruct H as [H _].
  apply negb_true_iff in H. unfold startsWith. cbn [is_prefix].
  rewrite N.eqb_sym, H. reflexivity.
Qed.

Lemma restore_plain piece :
  no_dollar piece = true -> restore (render_part piece) = piece.
Proof.
  intros H. apply restore_render_part.
  - unfold wrapped. change (lit "$$") with (dollar :: lit "$").
    rewrite (starts_no_dollar piece _ H). discriminate.
  - change (lit "$") with [dollar].
    rewrite (starts_no_dollar piece _ H). discriminate.
Qed.

Lemma restore_inline p :
  expression p = true ->
  restore (render_part (dollar :: p ++ [dollar])) = dollar :: p ++ [dollar].
Proof.
  intros He. destruct (expression_inv p He) as (c & p' & -> & Hc & _).
  apply restore_render_part.
  - unfold wrapped, startsWith. change (lit "$$") with [dollar; dollar].
    cbn [is_prefix app]. rewrite Hc, andb_false_r. discriminate.
  - intros _. simpl. lia.
Qed.

Lemma restore_block p :
  restore (render_part (dollar :: dollar :: p ++ [dollar; dollar]))
  = dollar :: dollar :: p ++ [dollar; dollar].
Proof.
  apply restore_render_part; intros _; simpl; rewrite length_app; simpl; lia.
Qed.

(** *** The round trip *)

Lemma unsegment_cons seg segs :
  unsegment (seg :: segs) = restore seg ++ unsegment segs.
Proof. reflexivity. Qed.

(** On a balanced text the split loop stays in step with the spans, and
    every part it emits comes back from its segment. *)
Lemma split_loop_balanced s :
  balanced one_line_expression s ->
  forall fuel piece,
    (length s <= fuel)%nat -> no_dollar piece = true ->
    unsegment (map render_part (split_loop math_pattern fuel piece s))
    = piece ++ s.
Proof.
  induction 1 as [|c s Hc Hs IH|p s Hp Hs IH|p s Hp Hs IH];
    intros fuel piece Hfuel Hpiece.
  - destruct fuel; simpl; rewrite ?app_nil_r;
      unfold unsegment; simpl; rewrite app_nil_r;
      apply restore_plain; exact Hpiece.
  - destruct fuel as [|fuel]; [simpl in Hfuel; lia|].
    cbn [split_loop]. rewrite (exec_plain s Hc).
    rewrite IH.
    + rewrite <- app_assoc. reflexivity.
    + simpl in Hfuel. lia.
    + unfold no_dollar in *. rewrite forallb_app.
      apply andb_true_iff. split; [exact Hpiece|]. cbn [forallb].
      rewrite andb_true_r. apply negb_true_iff. apply N.eqb_neq. exact Hc.
  - destruct fuel as [|fuel]; [simpl in Hfuel; lia|].
    cbn [split_loop]. rewrite (exec_inline p s Hp).
    cbn [map]. rewrite !unsegment_cons.
    apply andb_true_iff in Hp. destruct Hp as [He _].
    rewrite (restore_plain piece Hpiece), (restore_inline p He).
    rewrite IH; [|simpl in Hfuel; rewrite length_app in Hfuel; simpl in Hfuel;
                  lia | reflexivity].
    simpl. rewrite <- app_assoc. reflexivity.
  - destruct fuel as [|fuel]; [simpl in Hfuel; lia|].
    cbn [split_loop]. rewrite (exec_block p s Hp).
    cbn [map]. rewrite !unsegment_cons.
    rewrite (restore_plain piece Hpiece), (restore_block p).
    rewrite IH; [|simpl in Hfuel; rewrite length_app in Hfuel; simpl in Hfuel;
                  lia | reflexivity].
    simpl. rewrite <- app_assoc. reflexivity.
Qed.

(** A balanced text that starts with [$$] starts with a block span. *)
Lemma balanced_wrapped_length text :
  balanced one_line_expression text -> wrapped text = true ->
  (4 <= length text)%nat.
Proof.
  intros B W. unfold wrapped in W. apply andb_true_iff in W.
  destruct W as [W _]. unfold startsWith in W.
  change (lit "$$") with [dollar; dollar] in W.
  destruct B as [|c s Hc Hs|p s Hp Hs|p s Hp Hs].
  - discriminate W.
  - cbn [is_prefix] in W. apply andb_true_iff in W. destruct W as [W _].
    apply N.eqb_eq in W. congruence.
  - apply andb_true_iff in Hp. destruct Hp as [He _].
    destruct (expression_inv p He) as (c & p' & -> & Hc & _).
    cbn [is_prefix app] in W. rewrite Hc, andb_false_r in W.
    discriminate W.
  - simpl. rewrite length_app. simpl. lia.
Qed.

(** segment("a $x$ b $$y$$ c") and segment(""). *)
Example segment_mixed :
  segment (lit "a $x$ b $$y$$ c")
  = [PlainText (lit "a "); InlineMath (lit "x"); PlainText (lit " b ");
     BlockMath (lit "y"); PlainText (lit " c")].
Proof. reflexivity. Qed.

Example segment_empty : segment [] = [].
Proof. reflexivity. Qed.

(** A lone [$] starts and ends with [$]: it is classified as an inline
    formula with an empty payload. *)
Example segment_lone_dollar : segment (lit "$") = [InlineMath []].
Proof. reflexivity. Qed.

(** C5, as stated, fails: the source tests the string itself, not its
    trimmed form, so a formula with white space around it takes the
    splitting path and comes out as three segments. *)
Lemma trimmed_wrapped_not_one_block :
  wrapped (spec_trimmed (lit " $$x^2$$ ")) = true
  /\ segment (lit " $$x^2$$ ")
     = [PlainText (lit " "); BlockMath (lit "x^2"); PlainText (lit " ")]
  /\ segment (lit " $$x^2$$ ")
     <> [BlockMath (slice (spec_trimmed (lit " $$x^2$$ ")) 2 (-2))].
Proof. repeat split. discriminate. Qed.

(** C5, amended: a string that itself starts with [$$] and ends with [$$]
    is one block-math segment, whose payload is the string without its
    first two and last two characters, that is, from four characters on,
    the string with the two delimiters stripped; segment("$$x^2$$") is the
    one block-math segment x^2. *)
Theorem wrapped_is_one_block (text : jsstring) :
  wrapped text = true ->
  segment text = [BlockMath (slice text 2 (-2))]
  /\ ((4 <= length text)%nat ->
      text = lit "$$" ++ slice text 2 (-2) ++ lit "$$").
Proof.
  intros H. split.
  - unfold segment, SmartText.
    destruct text as [|c text]; [discriminate H|].
    unfold wrapped in H. rewrite H. reflexivity.
  - intros L. unfold wrapped in H. apply andb_true_iff in H.
    destruct H as [Hs He]. symmetry.
    apply (@delimited_restore (lit "$$") text);
      [discriminate | exact Hs | exact He | exact L].
Qed.

Lemma wrapped_is_one_block_witness :
  wrapped (lit "$$x^2$$") = true
  /\ segment (lit "$$x^2$$") = [BlockMath (lit "x^2")].
Proof.
  split; [reflexivity|].
  exact (proj1 (@wrapped_is_one_block (lit "$$x^2$$") eq_refl)).
Defined.

(** The same formula as a whole text is one block, line break included. *)
Example whole_two_line_formula :
  segment (lit "$$a" ++ [10%N] ++ lit "b$$")
  = [BlockMath (lit "a" ++ [10%N] ++ lit "b")].
Proof. reflexivity. Qed.

(** C6: the round trip fails on a balanced text with a block formula on
    two lines in the middle.  [.] does not match a line terminator, so the
    formula is no match; its two [$$] are matched as empty inline spans,
    classified as empty blocks, and come back as [$$$$]. *)
Theorem two_line_formula_not_restored :
  balanced expression two_line_formula
  /\ segment two_line_formula
     = [PlainText (lit "x "); BlockMath [];
        PlainText (lit "a" ++ [10%N] ++ lit "b"); BlockMath [];
        PlainText (lit " y")]
  /\ unsegment (segment two_line_formula) <> two_line_formula.
Proof.
  split; [|split; [reflexivity | discriminate]].
  apply balanced_plain; [discriminate|].
  apply balanced_plain; [discriminate|].
  apply (@balanced_block expression (lit "a" ++ [10%N] ++ lit "b") (lit " y"));
    [reflexivity|].
  apply balanced_plain; [discriminate|].
  apply balanced_plain; [discriminate|].
  apply balanced_end.
Qed.

(** X22: on every string whose delimiters are balanced and whose math
    payloads contain no line terminator, segmenting and then concatenating the
    segments, the math payloads wrapped in their delimiters again, gives
    the string back. *)
Theorem segment_roundtrip (text : jsstring) :
  balanced one_line_expression text ->
  unsegment (segment text) = text.
Proof.
  intros B. unfold segment, SmartText.
  destruct text as [|c text]; [reflexivity|].
  fold (wrapped (c :: text)).
  destruct (wrapped (c :: text)) eqn:W.
  - pose proof (balanced_wrapped_length B W) as L.
    unfold wrapped in W. apply andb_true_iff in W. destruct W as [Ws We].
    unfold segments_of, unsegment. cbn [map concat restore].
    rewrite app_nil_r.
    apply (@delimited_restore (lit "$$") (c :: text));
      [discriminate | exact Ws | exact We | exact L].
  - cbn [segments_of]. unfold split.
    rewrite (split_loop_balanced B);
      [reflexivity | unfold iterations; lia | reflexivity].
Qed.

Lemma segment_roundtrip_witness :
  balanced one_line_expression (lit "a $x$ b $$y$$ c")
  /\ unsegment (segment (lit "a $x$ b $$y$$ c")) = lit "a $x$ b $$y$$ c".
Proof.
  assert (B : balanced one_line_expression (lit "a $x$ b $$y$$ c")).
  { apply balanced_plain; [discriminate|].
    apply balanced_plain; [discriminate|].
    apply (@balanced_inline one_line_expression (lit "x")
             (lit " b $$y$$ c")); [reflexivity|].
    do 3 (apply balanced_plain; [discriminate|]).
    apply (@balanced_block one_line_expression (lit "y") (lit " c"));
      [reflexivity|].
    do 2 (apply balanced_plain; [discriminate|]).
    apply balanced_end. }
  split; [exact B|].
  exact (@segment_roundtrip (lit "a $x$ b $$y$$ c") B).
Defined.

End Segmenter.

(** * The application *)

(** ** The editor: text and bullet list *)

Section Editor.

Lemma splitOn_nonempty sep s : splitOn sep s <> [].
Proof.
  destruct s as [|c s]; simpl; [discriminate|].
  destruct (c =? sep)%N; [discriminate|].
  destruct (splitOn sep s); discriminate.
Qed.

(** No piece of a split contains the separator. *)
Lemma splitOn_pieces sep s :
  Forall (fun piece => ~ In sep piece) (splitOn sep s).
Proof.
  induction s as [|c s IH]; simpl.
  - constructor; [intros []|constructor].
  - destruct (c =? sep)%N eqn:E.
    + constructor; [intros []|exact IH].
    + destruct (splitOn sep s) as [|piece pieces]; [constructor; [|constructor]|].
      * intros [H|[]]. apply N.eqb_neq in E. congruence.
      * inversion IH as [|? ? Hp Hps]; subst. constructor; [|exact Hps].
        intros [H|H]; [apply N.eqb_neq in E; congruence | exact (Hp H)].
Qed.

(** A piece without the separator, followed by the separator, is split
    off. *)
Lemma splitOn_app sep piece rest :
  ~ In sep piece ->
  splitOn sep (piece ++ sep :: rest) = piece :: splitOn sep rest.
Proof.
  induction piece as [|c piece IH]; intros H; simpl.
  - rewrite N.eqb_refl. reflexivity.
  - destruct (c =? sep)%N eqn:E.
    + apply N.eqb_eq in E. exfalso. apply H. left. exact E.
    + rewrite IH by (intros Hin; apply H; right; exact Hin). reflexivity.
Qed.

Lemma splitOn_single sep piece :
  ~ In sep piece -> splitOn sep piece = [piece].
Proof.
  induction piece as [|c piece IH]; intros H; simpl; [reflexivity|].
  destruct (c =? sep)%N eqn:E.
  - apply N.eqb_eq in E. exfalso. apply H. left. exact E.
  - rewrite IH by (intros Hin; apply H; right; exact Hin). reflexivity.
Qed.

(** Splitting a joined list gives the list back, when the list is not
    empty and no entry contains the separator. *)
Lemma splitOn_joinWith sep entries :
  entries <> [] ->
  Forall (fun e => ~ In sep e) entries ->
  splitOn sep (joinWith [sep] entries) = entries.
Proof.
  induction entries as [|e entries IH]; intros Hne H; [congruence|].
  inversion H as [|? ? He Hes]; subst.
  destruct entries as [|e' entries].
  - simpl. apply splitOn_single. exact He.
  - change (joinWith [sep] (e :: e' :: entries))
      with (e ++ sep :: joinWith [sep] (e' :: entries)).
    rewrite splitOn_app by exact He.
    rewrite IH; [reflexivity | discriminate | exact Hes].
Qed.

Lemma eqb_nil_false (s : jsstring) : s <> [] -> JS.eqb s [] = false.
Proof. destruct s; [congruence | reflexivity]. Qed.

(** X1: whatever the text of the editor, a saved bullet list has no
    blank entry and no entry with a line feed in it. *)
Theorem textToContent_entries (editText : jsstring) :
  Forall (fun line => trim line <> [] /\ ~ In 10%N line)
         (textToContent editText).
Proof.
  unfold textToContent. apply Forall_forall. intros line Hin.
  apply filter_In in Hin. destruct Hin as [Hin Hkeep]. split.
  - intros E. rewrite E in Hkeep. discriminate Hkeep.
  - pose proof (splitOn_pieces 10%N editText) as H.
    rewrite Forall_forall in H. exact (H line Hin).
Qed.

(** X2: loading a bullet list into the editor and saving it unchanged
    gives the list back, when no entry is blank or contains a line feed. *)
Theorem content_roundtrip (entries : list jsstring) :
  Forall (fun e => trim e <> [] /\ ~ In 10%N e) entries ->
  textToContent (contentToText entries) = entries.
Proof.
  intros H. unfold textToContent, contentToText.
  destruct entries as [|e entries]; [reflexivity|].
  rewrite splitOn_joinWith;
    [|discriminate | eapply Forall_impl; [|exact H]; intros a [_ Ha]; exact Ha].
  apply forallb_filter_id. apply forallb_forall. intros line Hin.
  rewrite Forall_forall in H. destruct (H line Hin) as [Hb _].
  rewrite (eqb_nil_false Hb). reflexivity.
Qed.

Lemma content_roundtrip_witness :
  Forall (fun e => trim e <> [] /\ ~ In 10%N e)
         [lit "First point"; lit " $x^2$ "]
  /\ textToContent (contentToText [lit "First point"; lit " $x^2$ "])
     = [lit "First point"; lit " $x^2$ "].
Proof.
  assert (H : Forall (fun e => trim e <> [] /\ ~ In 10%N e)
                     [lit "First point"; lit " $x^2$ "]).
  { repeat constructor; try discriminate;
      simpl; intros H; repeat (destruct H as [H|H]; [discriminate H|]);
      exact H. }
  split; [exact H|].
  exact (@content_roundtrip [lit "First point"; lit " $x^2$ "] H).
Defined.

(** A list with a blank entry or a line feed in an entry is not what comes
    back: the blank entry is dropped, the other is cut in two. *)
Example content_roundtrip_needs_clean_entries :
  textToContent (contentToText [lit "a"; lit "  "; lit "b"])
  = [lit "a"; lit "b"]
  /\ textToContent (contentToText [lit "a" ++ [10%N] ++ lit "b"])
     = [lit "a"; lit "b"].
Proof. split; reflexivity. Qed.

End Editor.

(** ** The slide index and the handlers *)

Section Navigation.

Lemma length_assign (A : Type) (arr : list A) i v :
  (i < length arr)%nat -> length (assign arr i v) = length arr.
Proof.
  intros H. unfold assign.
  rewrite length_app, length_firstn. cbn [length].
  rewrite length_skipn. lia.
Qed.

Lemma nth_error_assign_same (A : Type) (arr : list A) i v :
  (i < length arr)%nat -> nth_error (assign arr i v) i = Some v.
Proof.
  intros H. unfold assign.
  rewrite nth_error_app2 by (rewrite length_firstn; lia).
  rewrite length_firstn, Nat.min_l by lia. rewrite Nat.sub_diag. reflexivity.
Qed.

Lemma nth_error_assign_other (A : Type) (arr : list A) i j v :
  (i < length arr)%nat -> j <> i ->
  nth_error (assign arr i v) j = nth_error arr j.
Proof.
  intros H Hj. unfold assign.
  destruct (Nat.lt_ge_cases j i) as [L|G].
  - rewrite nth_error_app1 by (rewrite length_firstn; lia).
    rewrite nth_error_firstn.
    apply Nat.ltb_lt in L. rewrite L. reflexivity.
  - rewrite nth_error_app2 by (rewrite length_firstn; lia).
    rewrite length_firstn, Nat.min_l by lia.
    destruct (j - i)%nat as [|k] eqn:E; [lia|]. cbn [nth_error].
    rewrite nth_error_skipn. f_equal. lia.
Qed.

Lemma length_mapi_from (A B : Type) (f : A -> nat -> B) arr :
  forall idx, length (mapi_from f idx arr) = length arr.
Proof.
  induction arr as [|x arr IH]; intros idx; simpl; [reflexivity|].
  rewrite IH. reflexivity.
Qed.

Lemma nth_error_mapi_from (A B : Type) (f : A -> nat -> B) arr :
  forall idx j,
    nth_error (mapi_from f idx arr) j
    = option_map (fun x => f x (idx + j)%nat) (nth_error arr j).
Proof.
  induction arr as [|x arr IH]; intros idx j; simpl.
  - destruct j; reflexivity.
  - destruct j as [|j]; simpl.
    + rewrite Nat.add_0_r. reflexivity.
    + rewrite IH. replace (S idx + j)%nat with (idx + S j)%nat by lia.
      reflexivity.
Qed.

Lemma length_spliceIn (A : Type) (arr : list A) start v :
  length (spliceIn arr start v) = S (length arr).
Proof.
  unfold spliceIn. rewrite length_app. simpl.
  rewrite length_firstn, length_skipn. lia.
Qed.

(** The handlers that rewrite the current slide keep the index and the
    number of slides. *)
Lemma sameShape_refl st : sameShape st st.
Proof. split; [reflexivity|]. destruct (presentation st); reflexivity. Qed.

Lemma sameShape_assign st p cur v :
  presentation st = Some p ->
  nth_error (Deck.slides p) (currentSlideIndex st) = Some cur ->
  sameShape st
    (setPresentation
       (Some (with_slides p (assign (Deck.slides p) (currentSlideIndex st) v)))
       st).
Proof.
  intros P N. split; [reflexivity|]. rewrite P. cbn.
  apply length_assign. apply nth_error_Some. congruence.
Qed.

Lemma save_shape st st' :
  handleSaveSlideContent st = Some st' -> sameShape st st'.
Proof.
  unfold handleSaveSlideContent. destruct (presentation st) as [p|] eqn:P.
  - destruct (nth_error (Deck.slides p) (currentSlideIndex st)) as [cur|] eqn:N;
      [|discriminate].
    intros E. injection E as <-.
    exact (sameShape_assign st _ P N).
  - intros E. injection E as <-. apply sameShape_refl.
Qed.

Lemma toggle_shape service st st' :
  handleToggleImage service st = Some st' -> sameShape st st'.
Proof.
  unfold handleToggleImage. destruct (presentation st) as [p|] eqn:P.
  - destruct (nth_error (Deck.slides p) (currentSlideIndex st)) as [cur|] eqn:N;
      [|discriminate].
    destruct (imageUrl cur) as [[|c url]|].
    + destruct (service _) as [[|d u]|]; intros E; injection E as <-;
        try apply sameShape_refl.
      exact (sameShape_assign st _ P N).
    + intros E. injection E as <-. exact (sameShape_assign st _ P N).
    + destruct (service _) as [[|d u]|]; intros E; injection E as <-;
        try apply sameShape_refl.
      exact (sameShape_assign st _ P N).
  - intros E. injection E as <-. apply sameShape_refl.
Qed.

Lemma upload_shape base64 st st' :
  handleImageUpload base64 st = Some st' -> sameShape st st'.
Proof.
  unfold handleImageUpload. destruct (presentation st) as [p|] eqn:P.
  - destruct (nth_error (Deck.slides p) (currentSlideIndex st)) as [cur|] eqn:N;
      [|discriminate].
    intros E. injection E as <-. exact (sameShape_assign st _ P N).
  - intros E. injection E as <-. apply sameShape_refl.
Qed.

Lemma edit_shape service st st' :
  handleEditImage service st = Some st' -> sameShape st st'.
Proof.
  unfold handleEditImage. destruct (presentation st) as [p|] eqn:P.
  - destruct (JS.eqb (trim (editPrompt st)) []);
      [intros E; injection E as <-; apply sameShape_refl|].
    destruct (nth_error (Deck.slides p) (currentSlideIndex st)) as [cur|] eqn:N;
      [|discriminate].
    destruct (imageUrl cur) as [[|c url]|];
      try (intros E; injection E as <-; apply sameShape_refl).
    destruct (service _ _) as [[|d u]|]; intros E; injection E as <-;
      try apply sameShape_refl.
    exact (sameShape_assign st _ P N).
  - intros E. injection E as <-. apply sameShape_refl.
Qed.

Lemma chooseLayout_shape l st : sameShape st (chooseLayout l st).
Proof.
  unfold chooseLayout. destruct (presentation st) as [p|] eqn:P.
  - split; [reflexivity|]. rewrite P. cbn. apply length_mapi_from.
  - apply sameShape_refl.
Qed.

Lemma sync_shape st : sameShape st (syncEditFields st).
Proof.
  unfold syncEditFields. destruct (presentation st) as [p|] eqn:P.
  - destruct (nth_error _ _).
    + split; [reflexivity|]. cbn. rewrite P. reflexivity.
    + apply sameShape_refl.
  - apply sameShape_refl.
Qed.

Lemma sameShape_inRange st st' :
  sameShape st st' -> indexInRange st -> indexInRange st'.
Proof.
  unfold sameShape, indexInRange. intros [I L].
  destruct (presentation st), (presentation st'); try tauto.
  rewrite I, L. tauto.
Qed.

(** No step takes the slide index out of the slides. *)
Lemma step_inRange st st' :
  indexInRange st -> step st st' -> indexInRange st'.
Proof.
  intros H S.
  destruct S as [| |p idx P L|uuid|l|st' E|service cur c url st' _ _ E
                 | |st' P I|].
  - unfold nextSlide, indexInRange in *.
    destruct (presentation st) as [p|] eqn:P; [|rewrite P; exact I].
    destruct (_ <? _)%Z eqn:C; [|rewrite P; exact H].
    apply Z.ltb_lt in C. cbn. rewrite P. lia.
  - unfold prevSlide, indexInRange in *.
    destruct (0 <? currentSlideIndex st)%nat; [|exact H].
    cbn. destruct (presentation st); [lia | exact I].
  - unfold selectSlide, indexInRange. cbn. rewrite P. exact L.
  - unfold handleAddSlide, indexInRange in *.
    destruct (presentation st) as [p|] eqn:P; [|rewrite P; exact I].
    cbn. rewrite length_spliceIn. lia.
  - exact (sameShape_inRange (chooseLayout_shape l st) H).
  - exact (sameShape_inRange (save_shape st E) H).
  - exact (sameShape_inRange (toggle_shape service st E) H).
  - exact (sameShape_inRange (sync_shape st) H).
  - unfold indexInRange in *. rewrite P, I. exact H.
  - exact I.
Qed.

(** X3: the steps of the editor that complete without waiting keep the
    slide index inside the slides: from a state with a current slide,
    every sequence of such steps leads to a state that, when it has a
    presentation, has a current slide for the main view and for the
    handlers. *)
Theorem steps_keep_current_slide st st' :
  indexInRange st -> steps st st' ->
  indexInRange st'
  /\ (forall p, presentation st' = Some p ->
       exists slide, currentSlide st' = Some slide).
Proof.
  intros H0 R.
  assert (H : indexInRange st').
  { induction R as [|st' st'' R IH S]; [exact H0|].
    exact (step_inRange IH S). }
  split; [exact H|]. intros p P.
  unfold indexInRange, currentSlide in *. rewrite P in *.
  destruct (nth_error (Deck.slides p) (currentSlideIndex st')) as [slide|] eqn:N.
  - exists slide. reflexivity.
  - apply nth_error_None in N. lia.
Qed.

Lemma steps_keep_current_slide_witness :
  indexInRange (showGenerated sample_presentation initialState)
  /\ steps (showGenerated sample_presentation initialState) sample_state
  /\ exists slide, currentSlide sample_state = Some slide.
Proof.
  assert (H : indexInRange (showGenerated sample_presentation initialState))
    by (vm_compute; lia).
  assert (R : steps (showGenerated sample_presentation initialState)
                    sample_state).
  { apply (@steps_more _ (showGenerated sample_presentation initialState)).
    - apply steps_none.
    - apply step_nextSlide. }
  split; [exact H|]. split; [exact R|].
  exact (proj2 (steps_keep_current_slide H R) sample_presentation eq_refl).
Defined.

(** A write that comes back late is no such step.  The image loop of
    [handleGenerate] writes the slides that it copied when the
    presentation arrived: after a slide has been added in the meantime,
    the list is one slide shorter than the index needs. *)
Example late_image_write_breaks_index :
  let generated := with_slides sample_presentation [image_slide] in
  let st0 := showGenerated generated initialState in
  let st1 := syncEditFields (handleAddSlide (lit "uuid") st0) in
  let st2 := imageArrived
               (slidesWithImages (fun _ _ => Some (lit "data:,new"))
                  (Deck.slides generated)) st1 in
  indexInRange st0 /\ steps st0 st1 /\ indexInRange st1
  /\ currentSlideIndex st2 = 1%nat
  /\ option_map (fun p => length (Deck.slides p)) (presentation st2)
     = Some 1%nat
  /\ currentSlide st2 = None.
Proof.
  cbv zeta. split; [vm_compute; lia|]. split.
  - eapply steps_more; [eapply steps_more; [apply steps_none|]|].
    + apply step_addSlide.
    + apply step_sync.
  - split; [vm_compute; lia|]. repeat split.
Qed.

(** X5: Next and then Previous, each with the effect that follows the
    change of the index, lead back to the same slide of the same
    presentation with the edit fields loaded afresh from it: unsaved edits
    are gone.  On the last slide Next does nothing, on the first slide
    Previous does nothing, and the edit fields stay. *)
Theorem next_prev_slide st p :
  presentation st = Some p ->
  let i := currentSlideIndex st in
  let n := length (Deck.slides p) in
  ((i + 1 < n)%nat ->
   currentSlideIndex (clickNext st) = (i + 1)%nat
   /\ clickPrev (clickNext st) = syncEditFields st)
  /\ ((n <= i + 1)%nat -> clickNext st = st)
  /\ ((0 < i < n)%nat ->
      currentSlideIndex (clickPrev st) = (i - 1)%nat
      /\ clickNext (clickPrev st) = syncEditFields st)
  /\ (i = 0%nat -> clickPrev st = st).
Proof.
  intros P i n. destruct st as [pres idx t sub txt m nt nl a ep].
  cbn in P, i. subst pres. subst i n.
  split; [|split; [|split]].
  - intros L.
    destruct (nth_error (Deck.slides p) idx) as [cur|] eqn:N;
      [|apply nth_error_None in N; lia].
    destruct (nth_error (Deck.slides p) (S idx)) as [nxt|] eqn:N';
      [|apply nth_error_None in N'; lia].
    assert (C : (Z.of_nat idx <? Z.of_nat (length (Deck.slides p)) - 1)%Z
                = true) by (apply Z.ltb_lt; lia).
    assert (D : (idx + 1 =? idx)%nat = false) by (apply Nat.eqb_neq; lia).
    assert (D' : (idx + 1 - 1 =? idx + 1)%nat = false)
      by (apply Nat.eqb_neq; lia).
    assert (G : (0 <? idx + 1)%nat = true) by (apply Nat.ltb_lt; lia).
    unfold clickNext, afterClick, nextSlide. cbn -[nth_error]. rewrite C. cbn -[nth_error].
    rewrite D. unfold syncEditFields. cbn -[nth_error].
    rewrite Nat.add_1_r, N'. cbn -[nth_error]. split; [reflexivity|].
    unfold clickPrev, afterClick, prevSlide. cbn -[nth_error].
    rewrite Nat.sub_0_r. rewrite Nat.eqb_sym.
    replace (S idx =? idx)%nat with false
      by (symmetry; apply Nat.eqb_neq; lia).
    cbn -[nth_error]. rewrite N. reflexivity.
  - intros L. unfold clickNext, afterClick, nextSlide. cbn -[nth_error].
    destruct (_ <? _)%Z eqn:C; [apply Z.ltb_lt in C; lia|].
    cbn -[nth_error]. rewrite Nat.eqb_refl. reflexivity.
  - intros L. destruct idx as [|idx]; [lia|].
    destruct (nth_error (Deck.slides p) (S idx)) as [cur|] eqn:N;
      [|apply nth_error_None in N; lia].
    destruct (nth_error (Deck.slides p) idx) as [prv|] eqn:N';
      [|apply nth_error_None in N'; lia].
    unfold clickPrev, afterClick, prevSlide. cbn -[nth_error].
    rewrite Nat.sub_0_r.
    replace (idx =? S idx)%nat with false
      by (symmetry; apply Nat.eqb_neq; lia).
    unfold syncEditFields. cbn -[nth_error]. rewrite N, N'.
    cbn -[nth_error]. split; [reflexivity|].
    unfold clickNext, afterClick, nextSlide. cbn -[nth_error].
    destruct (_ <? _)%Z eqn:C; [|apply Z.ltb_ge in C; lia].
    cbn -[nth_error]. rewrite Nat.add_1_r.
    replace (S idx =? idx)%nat with false
      by (symmetry; apply Nat.eqb_neq; lia).
    rewrite N. reflexivity.
  - intros ->. reflexivity.
Qed.

Lemma next_prev_slide_witness :
  presentation edited_state = Some sample_presentation
  /\ clickPrev (clickNext edited_state) = syncEditFields edited_state
  /\ clickPrev edited_state = edited_state.
Proof.
  split; [reflexivity|].
  destruct (@next_prev_slide edited_state sample_presentation eq_refl)
    as (N & _ & _ & Z).
  split.
  - apply N. vm_compute. lia.
  - apply Z. reflexivity.
Defined.

(** The unsaved title "Draft" does not come back. *)
Example next_prev_loses_edits :
  editTitle edited_state = lit "Draft"
  /\ isModified edited_state = true
  /\ editTitle (clickPrev (clickNext edited_state)) = lit "Title"
  /\ isModified (clickPrev (clickNext edited_state)) = false.
Proof. repeat split. Qed.

End Navigation.

(** ** Editing the slides *)

Section Editing.

Lemma currentSlide_inv st cur :
  currentSlide st = Some cur ->
  exists p, presentation st = Some p
            /\ nth_error (Deck.slides p) (currentSlideIndex st) = Some cur
            /\ (currentSlideIndex st < length (Deck.slides p))%nat.
Proof.
  unfold currentSlide. destruct (presentation st) as [p|]; [|discriminate].
  intros N. exists p. split; [reflexivity|]. split; [exact N|].
  apply nth_error_Some. congruence.
Qed.

Lemma nth_error_spliceIn_before (A : Type) (arr : list A) start v j :
  (j < start)%nat -> (start <= length arr)%nat ->
  nth_error (spliceIn arr start v) j = nth_error arr j.
Proof.
  intros H L. unfold spliceIn.
  rewrite nth_error_app1 by (rewrite length_firstn; lia).
  rewrite nth_error_firstn. apply Nat.ltb_lt in H. rewrite H. reflexivity.
Qed.

Lemma nth_error_spliceIn_at (A : Type) (arr : list A) start v :
  (start <= length arr)%nat ->
  nth_error (spliceIn arr start v) start = Some v.
Proof.
  intros L. unfold spliceIn.
  rewrite nth_error_app2 by (rewrite length_firstn; lia).
  rewrite length_firstn, Nat.min_l by lia. rewrite Nat.sub_diag. reflexivity.
Qed.

Lemma nth_error_spliceIn_after (A : Type) (arr : list A) start v j :
  (start <= j)%nat -> (start <= length arr)%nat ->
  nth_error (spliceIn arr start v) (S j) = nth_error arr j.
Proof.
  intros H L. unfold spliceIn.
  rewrite nth_error_app2 by (rewrite length_firstn; lia).
  rewrite length_firstn, Nat.min_l by lia.
  replace (S j - start)%nat with (S (j - start)) by lia. cbn [nth_error].
  rewrite nth_error_skipn. f_equal. lia.
Qed.

(** X6: a slide is added right after the current one and becomes the
    current slide; the slides before keep their places, the slides after
    move up by one, and none is lost. *)
Theorem add_slide_after_current st cur uuid :
  currentSlide st = Some cur ->
  let i := currentSlideIndex st in
  let st' := handleAddSlide uuid st in
  exists p p',
    presentation st = Some p /\ presentation st' = Some p'
    /\ currentSlideIndex st' = (i + 1)%nat
    /\ currentSlide st' = Some (newSlide uuid st)
    /\ length (Deck.slides p') = S (length (Deck.slides p))
    /\ (forall j, (j <= i)%nat ->
                  nth_error (Deck.slides p') j = nth_error (Deck.slides p) j)
    /\ (forall j, (i < j)%nat ->
                  nth_error (Deck.slides p') (S j)
                  = nth_error (Deck.slides p) j).
Proof.
  intros C i st'. destruct (currentSlide_inv st C) as (p & P & N & L).
  subst i st'. unfold handleAddSlide, currentSlide. rewrite P. cbn.
  exists p. eexists. split; [reflexivity|]. split; [reflexivity|].
  cbn. split; [reflexivity|]. repeat split.
  - apply nth_error_spliceIn_at. lia.
  - apply length_spliceIn.
  - intros j J. apply nth_error_spliceIn_before; lia.
  - intros j J. apply nth_error_spliceIn_after; lia.
Qed.

Lemma add_slide_after_current_witness :
  currentSlide sample_state = Some (sample_slide "quote" [lit "To be"])
  /\ currentSlide (handleAddSlide (lit "uuid") sample_state)
     = Some (newSlide (lit "uuid") sample_state)
  /\ title (newSlide (lit "uuid") sample_state) = lit "New Slide".
Proof.
  split; [reflexivity|].
  destruct (@add_slide_after_current sample_state _ (lit "uuid") eq_refl)
    as (p & p' & _ & _ & _ & C & _).
  split; [exact C | reflexivity].
Defined.

(** A saved bullet list is in normal form: loaded and saved again, it is
    the same. *)
Lemma textToContent_normal (editText : jsstring) :
  textToContent (contentToText (textToContent editText))
  = textToContent editText.
Proof.
  assert (Hkeep : forall e, In e (textToContent editText) ->
                            negb (JS.eqb (trim e) []) = true)
    by (intros e He; apply filter_In in He; tauto).
  assert (Hlf : Forall (fun e => ~ In 10%N e) (textToContent editText)).
  { apply Forall_forall. intros e He. apply filter_In in He.
    pose proof (splitOn_pieces 10%N editText) as H.
    rewrite Forall_forall in H. apply H. tauto. }
  destruct (textToContent editText) as [|e es]; [reflexivity|].
  unfold textToContent, contentToText.
  rewrite splitOn_joinWith by (discriminate || exact Hlf).
  apply forallb_filter_id. apply forallb_forall. exact Hkeep.
Qed.

Lemma assign_assign (A : Type) (arr : list A) i v w :
  (i < length arr)%nat -> assign (assign arr i v) i w = assign arr i w.
Proof.
  intros L. unfold assign.
  rewrite firstn_app, firstn_firstn, Nat.min_id.
  rewrite length_firstn, Nat.min_l by lia. rewrite Nat.sub_diag.
  cbn [firstn]. rewrite app_nil_r. f_equal. f_equal.
  replace (S i) with (length (firstn i arr) + 1)%nat
    by (rewrite length_firstn; lia).
  rewrite skipn_app, skipn_all2 by lia.
  rewrite (Nat.add_comm _ 1), Nat.add_sub. cbn [skipn app].
  rewrite length_firstn, Nat.min_l by lia. rewrite Nat.add_1_l. reflexivity.
Qed.

(** X7: saving rewrites the current slide only, and of it only the title,
    the subtitle and the bullet list: its id, layout, notes and image stay,
    and so do all other slides and the rest of the presentation. *)
Theorem save_rewrites_current_slide st cur :
  currentSlide st = Some cur ->
  exists st' p p' cur',
    handleSaveSlideContent st = Some st'
    /\ presentation st = Some p /\ presentation st' = Some p'
    /\ currentSlideIndex st' = currentSlideIndex st
    /\ currentSlide st' = Some cur'
    /\ title cur' = editTitle st
    /\ subtitle cur' = orUndefined (editSubtitle st)
    /\ content cur' = textToContent (editContentText st)
    /\ id cur' = id cur /\ layout cur' = layout cur
    /\ notes cur' = notes cur /\ imageUrl cur' = imageUrl cur
    /\ imagePrompt cur' = imagePrompt cur
    /\ p' = with_slides p (Deck.slides p')
    /\ length (Deck.slides p') = length (Deck.slides p)
    /\ (forall j, j <> currentSlideIndex st ->
                  nth_error (Deck.slides p') j = nth_error (Deck.slides p) j).
Proof.
  intros C. destruct (currentSlide_inv st C) as (p & P & N & L).
  unfold handleSaveSlideContent, currentSlide. rewrite P, N.
  eexists. exists p. eexists. eexists.
  split; [reflexivity|]. split; [reflexivity|]. split; [reflexivity|].
  split; [reflexivity|]. cbn.
  split; [apply nth_error_assign_same; exact L|].
  repeat split.
  - apply length_assign. exact L.
  - intros j J. apply nth_error_assign_other; assumption.
Qed.

Lemma save_rewrites_current_slide_witness :
  currentSlide sample_state = Some (sample_slide "quote" [lit "To be"])
  /\ exists st', handleSaveSlideContent sample_state = Some st'.
Proof.
  split; [reflexivity|].
  destruct (@save_rewrites_current_slide sample_state _ eq_refl)
    as (st' & _ & _ & _ & E & _).
  exists st'. exact E.
Defined.

Lemma orUndefined_orElse (e : jsstring) :
  orUndefined (orElse (orUndefined e) []) = orUndefined e.
Proof. destruct e; reflexivity. Qed.

(** X8: saving is idempotent.  After a save, with the edit fields loaded
    again from the saved slide, a second save leaves the presentation as
    it is. *)
Theorem save_twice st cur :
  currentSlide st = Some cur ->
  exists st1 st2,
    handleSaveSlideContent st = Some st1
    /\ handleSaveSlideContent (syncEditFields st1) = Some st2
    /\ presentation st2 = presentation st1.
Proof.
  intros C. destruct (currentSlide_inv st C) as (p & P & N & L).
  unfold handleSaveSlideContent at 1. rewrite P, N.
  eexists. eexists. split; [reflexivity|].
  unfold syncEditFields. cbn -[assign textToContent contentToText].
  rewrite (nth_error_assign_same _ _ L).
  unfold handleSaveSlideContent. cbn -[assign textToContent contentToText].
  rewrite (nth_error_assign_same _ _ L).
  split; [reflexivity|]. cbn -[assign textToContent contentToText].
  unfold with_slides. cbn -[assign textToContent contentToText].
  rewrite (assign_assign _ _ _ L).
  rewrite orUndefined_orElse, textToContent_normal. reflexivity.
Qed.

Lemma save_twice_witness :
  currentSlide sample_state = Some (sample_slide "quote" [lit "To be"])
  /\ exists st1 st2,
       handleSaveSlideContent sample_state = Some st1
       /\ handleSaveSlideContent (syncEditFields st1) = Some st2
       /\ presentation st2 = presentation st1.
Proof.
  split; [reflexivity|].
  exact (@save_twice sample_state _ eq_refl).
Defined.

End Editing.

(** ** Images *)

Section Images.

(** Decides the case tests of [renderLayout] on a literal tag. *)
Ltac dispatch :=
  unfold renderLayout; cbn [layout];
  repeat match goal with
         | |- context [JS.eqb (lit ?a) (lit ?b)] =>
             let v := eval vm_compute in (JS.eqb (lit a) (lit b)) in
             change (JS.eqb (lit a) (lit b)) with v
         end;
  cbv iota; cbn [orb].

(** X9: removing the image of a slide turns the slide into a content
    slide, whatever its layout was: the image and its prompt are dropped,
    the texts stay, and it is rendered in the content template.  The other
    slides stay as they are. *)
Theorem remove_image_gives_content_slide st cur c url service :
  currentSlide st = Some cur ->
  imageUrl cur = Some (c :: url) ->
  exists st' p p' cur',
    handleToggleImage service st = Some st'
    /\ presentation st = Some p /\ presentation st' = Some p'
    /\ currentSlide st' = Some cur'
    /\ layout cur' = lit "content"
    /\ imageUrl cur' = None /\ imagePrompt cur' = None
    /\ title cur' = title cur /\ subtitle cur' = subtitle cur
    /\ content cur' = content cur
    /\ (forall isThumbnail imgLoaded,
          renderLayout cur' isThumbnail imgLoaded
          = ContentCard
              {| fontSize := if isThumbnail then px (of_Z 16) else px (of_Z 44);
                 text := SmartText (Some (title cur)) |}
              {| listFontSize :=
                   getDynamicFontSize isThumbnail (content cur)
                     (of_Z (if isThumbnail then 11 else 26))
                     (of_Z (if isThumbnail then 9 else 14));
                 items := bullet_items (content cur) |})
    /\ (forall j, j <> currentSlideIndex st ->
                  nth_error (Deck.slides p') j = nth_error (Deck.slides p) j).
Proof.
  intros C U. destruct (currentSlide_inv st C) as (p & P & N & L).
  unfold handleToggleImage. rewrite P, N, U.
  eexists. exists p. eexists. eexists.
  split; [reflexivity|]. split; [reflexivity|]. split; [reflexivity|].
  split; [unfold currentSlide; cbn -[assign];
          apply nth_error_assign_same; exact L|].
  repeat split.
  intros j J. cbn -[assign]. apply nth_error_assign_other; assumption.
Qed.

Lemma remove_image_gives_content_slide_witness :
  currentSlide image_state = Some image_slide
  /\ imageUrl image_slide = Some (lit "data:image/png;base64,AAAA")
  /\ exists st', handleToggleImage (fun _ => None) image_state = Some st'.
Proof.
  split; [reflexivity|]. split; [reflexivity|].
  destruct (@remove_image_gives_content_slide image_state _ _ _
              (fun _ => None) eq_refl eq_refl) as (st' & _ & _ & _ & E & _).
  exists st'. exact E.
Defined.

(** X10: generating an image for a slide without one, when the service
    returns an image, puts the slide in the image-right layout with that
    image and the prompt that was sent: it is rendered with the picture on
    the right.  When the service returns nothing, the state stays as it
    is. *)
Theorem generate_image_gives_image_right st cur service :
  currentSlide st = Some cur ->
  orElse (imageUrl cur) [] = [] ->
  let prompt := orElse (imagePrompt cur) (defaultImagePrompt cur) in
  (forall c url, service prompt = Some (c :: url) ->
     exists st' cur',
       handleToggleImage service st = Some st'
       /\ currentSlide st' = Some cur'
       /\ layout cur' = lit "image-right"
       /\ imageUrl cur' = Some (c :: url)
       /\ imagePrompt cur' = Some prompt
       /\ (forall isThumbnail imgLoaded,
             renderLayout cur' isThumbnail imgLoaded
             = ImageCard false
                 (Picture (c :: url) (title cur) (negb imgLoaded))
                 (if isThumbnail then text_sm else text_3xl)
                 (SmartText (Some (title cur)))
                 {| listFontSize :=
                      getDynamicFontSize isThumbnail (content cur)
                        (of_Z (if isThumbnail then 10 else 20))
                        (of_Z (if isThumbnail then 8 else 12));
                    items := bullet_items (content cur) |}))
  /\ (orElse (service prompt) [] = [] ->
      handleToggleImage service st = Some st).
Proof.
  intros C U prompt. destruct (currentSlide_inv st C) as (p & P & N & L).
  assert (E : handleToggleImage service st
              = match service prompt with
                | Some (c :: url) =>
                    Some (setPresentation
                            (Some (with_slides p
                               (assign (Deck.slides p) (currentSlideIndex st)
                                  {| id := id cur; title := title cur;
                                     subtitle := subtitle cur;
                                     content := content cur;
                                     layout := lit "image-right";
                                     notes := notes cur;
                                     imageUrl := Some (c :: url);
                                     imagePrompt := Some prompt |}))) st)
                | _ => Some st
                end).
  { unfold handleToggleImage. rewrite P, N. fold prompt.
    destruct (imageUrl cur) as [[|c url]|]; [| discriminate U |];
      destruct (service prompt) as [[|d u]|]; reflexivity. }
  rewrite E. split.
  - intros c url S. rewrite S. eexists. eexists.
    split; [reflexivity|].
    split; [unfold currentSlide; cbn -[assign];
            apply nth_error_assign_same; exact L|].
    repeat split.
  - intros S. destruct (service prompt) as [[|d u]|];
      reflexivity || discriminate S.
Qed.

Lemma generate_image_gives_image_right_witness :
  currentSlide sample_state = Some (sample_slide "quote" [lit "To be"])
  /\ exists st',
       handleToggleImage (fun _ => Some (lit "data:image/png;base64,BBBB"))
                         sample_state = Some st'
       /\ option_map layout (currentSlide st') = Some (lit "image-right").
Proof.
  split; [reflexivity|].
  destruct (proj1 (@generate_image_gives_image_right sample_state _
                     (fun _ => Some (lit "data:image/png;base64,BBBB"))
                     eq_refl eq_refl) _ _ eq_refl)
    as (st' & cur' & E & C & Lay & _).
  exists st'. split; [exact E|]. rewrite C. cbn. rewrite Lay. reflexivity.
Defined.

(** X11: an uploaded picture is shown.  On a slide of any of the six
    layouts, the upload puts the slide in an image layout with the
    uploaded data, on the side it had if it was an image slide and on the
    right otherwise, and the slide is rendered with that picture. *)
Theorem upload_shows_picture st cur c data :
  currentSlide st = Some cur ->
  In (layout cur) layoutTags ->
  exists st' cur',
    handleImageUpload (c :: data) st = Some st'
    /\ currentSlide st' = Some cur'
    /\ imageUrl cur' = Some (c :: data)
    /\ layout cur' = (if JS.eqb (layout cur) (lit "image-left")
                      then lit "image-left" else lit "image-right")
    /\ (forall isThumbnail imgLoaded,
          renderLayout cur' isThumbnail imgLoaded
          = ImageCard (JS.eqb (layout cur) (lit "image-left"))
              (Picture (c :: data) (title cur) (negb imgLoaded))
              (if isThumbnail then text_sm else text_3xl)
              (SmartText (Some (title cur)))
              {| listFontSize :=
                   getDynamicFontSize isThumbnail (content cur)
                     (of_Z (if isThumbnail then 10 else 20))
                     (of_Z (if isThumbnail then 8 else 12));
                 items := bullet_items (content cur) |}).
Proof.
  intros C T. destruct (currentSlide_inv st C) as (p & P & N & L).
  unfold handleImageUpload. rewrite P, N.
  eexists. eexists. split; [reflexivity|].
  split; [unfold currentSlide; cbn -[assign includes];
          apply nth_error_assign_same; exact L|].
  cbn [imageUrl layout title content].
  simpl in T.
  destruct T as [T|[T|[T|[T|[T|[T|[]]]]]]]; rewrite <- T;
    repeat split.
Qed.

Lemma upload_shows_picture_witness :
  currentSlide sample_state = Some (sample_slide "quote" [lit "To be"])
  /\ In (lit "quote") layoutTags
  /\ exists st',
       handleImageUpload (lit "data:image/jpeg;base64,CCCC") sample_state
       = Some st'
       /\ option_map layout (currentSlide st') = Some (lit "image-right").
Proof.
  assert (T : In (layout (sample_slide "quote" [lit "To be"])) layoutTags)
    by (simpl; tauto).
  split; [reflexivity|]. split; [exact T|].
  destruct (@upload_shows_picture sample_state _ 100%N
              (lit "ata:image/jpeg;base64,CCCC") eq_refl T)
    as (st' & cur' & E & C & _ & Lay & _).
  exists st'. split; [exact E|]. rewrite C. cbn. rewrite Lay. reflexivity.
Defined.

(** A tag that includes "image" without being one of the two image
    layouts is kept by the upload, and the picture is not rendered. *)
Example upload_on_unknown_image_tag :
  let st := showGenerated
              (with_slides sample_presentation [sample_slide "image-top" []])
              initialState in
  exists st' cur',
    handleImageUpload (lit "data:image/png;base64,AAAA") st = Some st'
    /\ currentSlide st' = Some cur'
    /\ layout cur' = lit "image-top"
    /\ renderLayout cur' false true
       = renderLayout (sample_slide "content" []) false true.
Proof. eexists. eexists. repeat split. Qed.

(** X12: a layout button changes the layout of the current slide and
    nothing else; on a slide with an image, the two buttons put the
    picture on the left and on the right. *)
Theorem chooseLayout_current_slide st p l :
  presentation st = Some p ->
  exists p',
    presentation (chooseLayout l st) = Some p'
    /\ p' = with_slides p (Deck.slides p')
    /\ currentSlideIndex (chooseLayout l st) = currentSlideIndex st
    /\ (forall j,
          nth_error (Deck.slides p') j
          = if (j =? currentSlideIndex st)%nat
            then option_map (fun s => with_layout s l)
                            (nth_error (Deck.slides p) j)
            else nth_error (Deck.slides p) j)
    /\ (forall cur c url side isThumbnail imgLoaded,
          currentSlide st = Some cur -> imageUrl cur = Some (c :: url) ->
          In (side, l) [(true, lit "image-left"); (false, lit "image-right")] ->
          exists cur' headingClass heading bullets,
            currentSlide (chooseLayout l st) = Some cur'
            /\ renderLayout cur' isThumbnail imgLoaded
               = ImageCard side
                   (Picture (c :: url) (title cur) (negb imgLoaded))
                   headingClass heading bullets).
Proof.
  intros P. unfold chooseLayout. rewrite P. eexists.
  split; [reflexivity|]. split; [reflexivity|]. split; [reflexivity|].
  assert (M : forall j,
             nth_error (mapi (fun s idx =>
                                if (idx =? currentSlideIndex st)%nat
                                then with_layout s l else s)
                             (Deck.slides p)) j
             = if (j =? currentSlideIndex st)%nat
               then option_map (fun s => with_layout s l)
                               (nth_error (Deck.slides p) j)
               else nth_error (Deck.slides p) j).
  { intros j. unfold mapi. rewrite nth_error_mapi_from. cbn [Nat.add].
    destruct (j =? currentSlideIndex st)%nat;
      destruct (nth_error (Deck.slides p) j); reflexivity. }
  split; [exact M|].
  intros cur c url side isThumbnail imgLoaded C U S.
  unfold currentSlide in *. rewrite P in C. cbn -[mapi].
  rewrite M, Nat.eqb_refl, C. cbn [option_map].
  exists (with_layout cur l).
  destruct S as [S|[S|[]]]; injection S as <- <-;
    do 3 eexists; (split; [reflexivity|]);
    unfold renderLayout; cbn [layout with_layout imageUrl title];
    rewrite U; reflexivity.
Qed.

Lemma chooseLayout_current_slide_witness :
  presentation image_state
  = Some (with_slides sample_presentation [image_slide])
  /\ option_map layout (currentSlide (chooseLayout (lit "image-right")
                                                    image_state))
     = Some (lit "image-right").
Proof.
  split; [reflexivity|].
  destruct (@chooseLayout_current_slide image_state _ (lit "image-right")
              eq_refl) as (p' & E & _ & I & M & _).
  unfold currentSlide. rewrite E, I.
  change (currentSlideIndex image_state) with 0%nat.
  rewrite (M 0%nat). reflexivity.
Defined.

End Images.

(** ** Generation *)

Section Generation.

Lemma pushSource_app sources chunk :
  pushSource sources chunk = sources ++ pushSource [] chunk.
Proof.
  unfold pushSource. destruct (web chunk) as [w|];
    [|rewrite app_nil_r; reflexivity].
  destruct (webUri w) as [[|c u]|]; try (rewrite app_nil_r; reflexivity).
  reflexivity.
Qed.

Lemma fold_pushSource chunks :
  forall sources,
    fold_left pushSource chunks sources
    = sources ++ fold_left pushSource chunks [].
Proof.
  induction chunks as [|chunk chunks IH]; intros sources; cbn [fold_left].
  - rewrite app_nil_r. reflexivity.
  - rewrite (IH (pushSource sources chunk)), (IH (pushSource [] chunk)).
    rewrite (pushSource_app sources), app_assoc. reflexivity.
Qed.

Lemma uri_pushSource chunk :
  map Source.uri (pushSource [] chunk) = chunkUri chunk.
Proof.
  unfold pushSource, chunkUri. destruct (web chunk) as [w|]; [|reflexivity].
  destruct (webUri w) as [[|c u]|]; reflexivity.
Qed.

Lemma uri_fold_pushSource chunks :
  map Source.uri (fold_left pushSource chunks []) = flat_map chunkUri chunks.
Proof.
  induction chunks as [|chunk chunks IH]; cbn [fold_left flat_map];
    [reflexivity|].
  rewrite (fold_pushSource chunks (pushSource [] chunk)), map_app, IH.
  rewrite uri_pushSource. reflexivity.
Qed.

Lemma named_fold_pushSource chunks :
  Forall (fun s => Source.uri s <> [] /\ Source.title s <> [])
         (fold_left pushSource chunks []).
Proof.
  induction chunks as [|chunk chunks IH]; cbn [fold_left]; [constructor|].
  rewrite (fold_pushSource chunks (pushSource [] chunk)).
  apply Forall_app. split; [|exact IH].
  unfold pushSource. destruct (web chunk) as [w|]; [|constructor].
  destruct (webUri w) as [[|c u]|]; constructor; [|constructor].
  split; [discriminate|]. cbn [Source.title].
  destruct (webTitle w) as [[|d t]|]; discriminate.
Qed.

(** X13: the sources of a generated presentation are the web addresses of
    the grounding chunks, in their order: a chunk without a web entry or
    with an empty address gives none.  Every listed source has an address
    and a title, and the list is absent rather than empty. *)
Theorem sources_are_web_uris (chunks : option (list GroundingChunk)) :
  let l := match chunks with Some l => l | None => [] end in
  match extractSources chunks with
  | Some sources =>
      sources <> []
      /\ map Source.uri sources = flat_map chunkUri l
      /\ Forall (fun s => Source.uri s <> [] /\ Source.title s <> []) sources
  | None => flat_map chunkUri l = []
  end.
Proof.
  destruct chunks as [l|]; [|reflexivity]. cbn zeta.
  unfold extractSources.
  pose proof (uri_fold_pushSource l) as U.
  pose proof (named_fold_pushSource l) as N.
  destruct (fold_left pushSource l []) as [|source sources].
  - symmetry. exact U.
  - split; [discriminate|]. split; assumption.
Qed.



End Generation.

(** ** The image service *)

Section Service.

Lemma cleanBase64_header header data :
  ~ In 44%N header -> ~ In 44%N data ->
  cleanBase64 (header ++ 44%N :: data)
  = match data with [] => header ++ [44%N] | _ => data end.
Proof.
  intros Hh Hd. unfold cleanBase64.
  rewrite splitOn_app by exact Hh. rewrite splitOn_single by exact Hd.
  cbn [nth_error].
  destruct data; reflexivity.
Qed.

Lemma no_comma_in_png_header : ~ In 44%N (lit "data:image/png;base64").
Proof.
  simpl. intros H.
  repeat (destruct H as [H|H]; [discriminate H|]). exact H.
Qed.

(** X16: what [editSlideImage] sends is the data of the image.  Of a data
    URL it sends what follows the comma, of a string without a comma the
    string itself; a data URL without data is sent whole. *)
Theorem cleanBase64_strips_header header data :
  ~ In 44%N header -> ~ In 44%N data -> data <> [] ->
  cleanBase64 (header ++ 44%N :: data) = data
  /\ cleanBase64 data = data
  /\ cleanBase64 (header ++ [44%N]) = header ++ [44%N].
Proof.
  intros Hh Hd Hne. split; [|split].
  - rewrite (@cleanBase64_header header data Hh Hd).
    destruct data; congruence.
  - unfold cleanBase64. rewrite splitOn_single by exact Hd. reflexivity.
  - apply (@cleanBase64_header header []); [exact Hh | intros []].
Qed.

Lemma cleanBase64_strips_header_witness :
  cleanBase64 (lit "data:image/jpeg;base64" ++ 44%N :: lit "CCCC")
  = lit "CCCC".
Proof.
  apply (@cleanBase64_strips_header (lit "data:image/jpeg;base64")
           (lit "CCCC"));
    try discriminate;
    simpl; intros H; repeat (destruct H as [H|H]; [discriminate H|]);
    exact H.
Defined.

(** X17: the image of a response is its first part with inline data, as a
    PNG data URL, and there is none only if no part has inline data.  The
    URL is never empty, and an edit of this image sends the data of that
    part back to the service. *)
Theorem image_is_first_inline_part (parts : option (list Part)) :
  let l := match parts with Some l => l | None => [] end in
  match imageOfResponse parts with
  | Some url =>
      exists before part data after,
        l = before ++ part :: after
        /\ Forall (fun p => inlineData p = None) before
        /\ inlineData part = Some data
        /\ url = lit "data:image/png;base64," ++ data
        /\ url <> []
        /\ (data <> [] -> ~ In 44%N data -> cleanBase64 url = data)
  | None => Forall (fun p => inlineData p = None) l
  end.
Proof.
  intros l. unfold imageOfResponse. fold l. clearbody l. clear parts.
  induction l as [|part l IH]; cbn [firstInlineImage]; [constructor|].
  destruct (inlineData part) as [data|] eqn:D.
  - exists [], part, data, l.
    split; [reflexivity|]. split; [constructor|]. split; [exact D|].
    split; [reflexivity|]. split; [discriminate|].
    intros Hne Hd.
    destruct data as [|d data]; [congruence|].
    exact (@cleanBase64_header _ (d :: data) no_comma_in_png_header Hd).
  - destruct (firstInlineImage l) as [url|].
    + destruct IH as (before & part' & data & after & E & B & D' & U & T & C).
      exists (part :: before), part', data, after.
      rewrite E. split; [reflexivity|].
      split; [constructor; assumption|]. repeat (split; [assumption|]).
      assumption.
    + constructor; assumption.
Qed.

End Service.

(** ** The name of the exported file *)

Section FileName.

Lemma replaceSpaceRuns_no_space s :
  forall inRun,
    forallb (fun c => negb (isWhiteSpace c)) (replaceSpaceRuns inRun s) = true.
Proof.
  induction s as [|c s IH]; intros inRun; cbn [replaceSpaceRuns];
    [reflexivity|].
  destruct (isWhiteSpace c) eqn:W.
  - destruct inRun; [apply IH|]. cbn [forallb]. rewrite IH. reflexivity.
  - cbn [forallb]. rewrite W, IH. reflexivity.
Qed.

Lemma replaceSpaceRuns_length s :
  forall inRun, (length (replaceSpaceRuns inRun s) <= length s)%nat.
Proof.
  induction s as [|c s IH]; intros inRun; cbn [replaceSpaceRuns length];
    [lia|].
  destruct (isWhiteSpace c); [destruct inRun|]; cbn [length];
    match goal with |- context [replaceSpaceRuns ?b s] =>
      specialize (IH b) end; lia.
Qed.

Lemma replaceSpaceRuns_word w :
  forallb (fun c => negb (isWhiteSpace c)) w = true ->
  forall inRun rest,
    replaceSpaceRuns inRun (w ++ rest)
    = w ++ replaceSpaceRuns (match w with [] => inRun | _ => false end) rest.
Proof.
  induction w as [|c w IH]; intros H inRun rest; [reflexivity|].
  cbn [forallb] in H. apply andb_true_iff in H. destruct H as [Hc Hw].
  apply negb_true_iff in Hc. cbn [app replaceSpaceRuns]. rewrite Hc.
  rewrite (IH Hw false rest). destruct w; reflexivity.
Qed.

Lemma replaceSpaceRuns_run sp :
  forallb isWhiteSpace sp = true ->
  forall rest,
    replaceSpaceRuns true (sp ++ rest) = replaceSpaceRuns true rest.
Proof.
  induction sp as [|c sp IH]; intros H rest; [reflexivity|].
  cbn [forallb] in H. apply andb_true_iff in H. destruct H as [Hc Hsp].
  cbn [app replaceSpaceRuns]. rewrite Hc. apply (IH Hsp).
Qed.

(** X18: the name of the exported PDF has no white space: every run of
    white space of the title, whatever its length, becomes one underscore,
    and the words around it stay.  A title without white space is kept as
    it is, and the name is never longer than the title and its suffix. *)
Theorem pdfFileName_no_white_space (title : jsstring) :
  forallb (fun c => negb (isWhiteSpace c)) (pdfFileName title) = true
  /\ (length (pdfFileName title) <= length title + 17)%nat
  /\ (forallb (fun c => negb (isWhiteSpace c)) title = true ->
      pdfFileName title = title ++ lit "_Presentation.pdf")
  /\ (forall word c sp rest,
        title = word ++ c :: sp ++ rest ->
        forallb (fun c => negb (isWhiteSpace c)) word = true ->
        forallb isWhiteSpace (c :: sp) = true ->
        match rest with [] => True | d :: _ => isWhiteSpace d = false end ->
        pdfFileName title = word ++ 95%N :: pdfFileName rest).
Proof.
  unfold pdfFileName. split; [|split; [|split]].
  - rewrite forallb_app, replaceSpaceRuns_no_space. reflexivity.
  - rewrite length_app.
    pose proof (replaceSpaceRuns_length title false) as L.
    change (length (lit "_Presentation.pdf")) with 17%nat. lia.
  - intros H. rewrite <- (app_nil_r title) at 1.
    rewrite (@replaceSpaceRuns_word title H false []).
    cbn [replaceSpaceRuns].
    rewrite app_nil_r. reflexivity.
  - intros word c sp rest -> Hw Hsp Hrest.
    rewrite (@replaceSpaceRuns_word word Hw false (c :: sp ++ rest)).
    cbn [forallb] in Hsp. apply andb_true_iff in Hsp.
    destruct Hsp as [Hc Hsp].
    assert (R : replaceSpaceRuns (match word with [] => false | _ => false end)
                  (c :: sp ++ rest)
                = 95%N :: replaceSpaceRuns false rest).
    { cbn [replaceSpaceRuns]. rewrite Hc.
      assert (E : replaceSpaceRuns true (sp ++ rest)
                  = replaceSpaceRuns false rest).
      { rewrite (@replaceSpaceRuns_run sp Hsp rest).
        destruct rest as [|d rest]; [reflexivity|].
        cbn [replaceSpaceRuns]. rewrite Hrest. reflexivity. }
      destruct word; rewrite E; reflexivity. }
    rewrite R, <- app_assoc. reflexivity.
Qed.

(** The sample title has two spaces in a row and one alone. *)
Example pdfFileName_sample :
  pdfFileName (Deck.title sample_presentation)
  = lit "My_first_deck_Presentation.pdf".
Proof. reflexivity. Qed.

End FileName.

(** ** Refining a slide *)

Section Refinement.

Lemma contentToText_clean entries :
  entries <> [] ->
  Forall (fun e => trim e <> [] /\ ~ In 10%N e) entries ->
  textToContent (contentToText entries) = entries.
Proof.
  intros Hne H. unfold textToContent, contentToText.
  rewrite splitOn_joinWith;
    [|exact Hne
     |eapply Forall_impl; [|exact H]; intros a [_ Ha]; exact Ha].
  apply forallb_filter_id. apply forallb_forall. intros line Hin.
  rewrite Forall_forall in H. destruct (H line Hin) as [Hb _].
  rewrite (eqb_nil_false Hb). reflexivity.
Qed.

(** X19: a refinement changes the edit fields and marks them modified; the
    presentation changes with the next save only.  A refined title and a
    refined bullet list without blank entries and line feeds are then the
    title and the list of the current slide, whose layout, image and image
    prompt stay: the refined image prompt is never used. *)
Theorem regenerate_then_save service st cur result :
  currentSlide st = Some cur ->
  service cur = Some result ->
  let st1 := handleRegenerateContent service st in
  presentation st1 = presentation st
  /\ currentSlideIndex st1 = currentSlideIndex st
  /\ isModified st1 = true
  /\ editTitle st1 = orElse (newTitle result) (editTitle st)
  /\ editSubtitle st1 = orElse (newSubtitle result) (editSubtitle st)
  /\ forall c t entries,
       newTitle result = Some (c :: t) ->
       newContent result = Some entries -> entries <> [] ->
       Forall (fun e => trim e <> [] /\ ~ In 10%N e) entries ->
       exists st2 cur',
         handleSaveSlideContent st1 = Some st2
         /\ currentSlide st2 = Some cur'
         /\ title cur' = c :: t
         /\ content cur' = entries
         /\ layout cur' = layout cur
         /\ imageUrl cur' = imageUrl cur
         /\ imagePrompt cur' = imagePrompt cur.
Proof.
  intros C S st1. destruct (currentSlide_inv st C) as (p & P & N & L).
  unfold st1, handleRegenerateContent. rewrite P, N, S.
  cbn -[contentToText].
  split; [exact P|]. do 4 (split; [reflexivity|]).
  intros c t entries T E Hne Hclean.
  pose proof (contentToText_clean Hne Hclean) as Hr.
  unfold handleSaveSlideContent, currentSlide.
  cbn -[assign textToContent contentToText]. rewrite P, N, T, E.
  cbn -[assign textToContent contentToText].
  eexists. eexists. split; [reflexivity|].
  cbn -[assign textToContent contentToText].
  split; [apply nth_error_assign_same; exact L|].
  cbn -[textToContent contentToText].
  split; [reflexivity|].
  split; [|repeat split].
  destruct (contentToText entries) as [|d text] eqn:J.
  - cbn in Hr. congruence.
  - exact Hr.
Qed.

Lemma regenerate_then_save_witness :
  currentSlide sample_state = Some (sample_slide "quote" [lit "To be"])
  /\ exists st2 cur',
       handleSaveSlideContent
         (handleRegenerateContent (fun _ => Some sample_update) sample_state)
       = Some st2
       /\ currentSlide st2 = Some cur'
       /\ title cur' = lit "Hamlet"
       /\ content cur' = [lit "or not to be"].
Proof.
  split; [reflexivity|].
  destruct (@regenerate_then_save (fun _ => Some sample_update) sample_state
              _ sample_update eq_refl eq_refl)
    as (_ & _ & _ & _ & _ & H).
  assert (Hclean : Forall (fun e => trim e <> [] /\ ~ In 10%N e)
                          [lit "or not to be"]).
  { repeat constructor; try discriminate;
      simpl; intros F; repeat (destruct F as [F|F]; [discriminate F|]);
      exact F. }
  destruct (H 72%N (lit "amlet") [lit "or not to be"] eq_refl eq_refl
              ltac:(discriminate) Hclean)
    as (st2 & cur' & E & C & T & K & _).
  exists st2, cur'. repeat split; assumption.
Defined.

(** A refinement without a title or with an empty list keeps what the
    fields hold. *)
Example regenerate_keeps_fields :
  let empty := {| newTitle := None; newSubtitle := Some [];
                  newContent := Some []; newImagePrompt := None |} in
  let st := syncEditFields sample_state in
  let st1 := handleRegenerateContent (fun _ => Some empty) st in
  editTitle st1 = lit "Title" /\ editContentText st1 = lit "To be"
  /\ isModified st1 = true.
Proof. repeat split. Qed.

End Refinement.

(** ** More of the renderer *)

Section Rendering.

Lemma split_loop_plain fuel :
  forall piece s,
    no_dollar s = true ->
    split_loop math_pattern fuel piece s = [piece ++ s].
Proof.
  induction fuel as [|fuel IH]; intros piece s H; [reflexivity|].
  destruct s as [|c s]; cbn [split_loop]; [rewrite app_nil_r; reflexivity|].
  unfold no_dollar in H. cbn [forallb] in H.
  apply andb_true_iff in H. destruct H as [Hc Hs].
  apply negb_true_iff, N.eqb_neq in Hc.
  rewrite (@exec_plain c s Hc), (@IH (piece ++ [c]) s Hs), <- app_assoc.
  reflexivity.
Qed.

(** X20: a text without a dollar sign is shown as it is, in one plain
    span, line breaks included. *)
Theorem plain_text_one_segment (text : jsstring) :
  text <> [] -> no_dollar text = true ->
  SmartText (Some text) = Parts [PlainText text].
Proof.
  intros Hne H. destruct text as [|c text]; [congruence|].
  unfold SmartText.
  change (lit "$$") with (dollar :: lit "$").
  rewrite (@starts_no_dollar (c :: text) (lit "$") H). cbn [andb].
  unfold split.
  rewrite (@split_loop_plain (iterations [] (c :: text)) [] (c :: text) H).
  cbn [map app]. unfold render_part.
  change (lit "$$") with (dollar :: lit "$").
  change (lit "$") with [dollar].
  rewrite (@starts_no_dollar (c :: text) [dollar] H).
  rewrite (@starts_no_dollar (c :: text) [] H). reflexivity.
Qed.

Lemma plain_text_one_segment_witness :
  SmartText (Some (lit "Costs fell" ++ [10%N] ++ lit "by 5%"))
  = Parts [PlainText (lit "Costs fell" ++ [10%N] ++ lit "by 5%")].
Proof.
  apply plain_text_one_segment; [discriminate | reflexivity].
Defined.

Lemma quote_text_reads_first_entry_witness :
  exists size1 size2 body attribution,
    renderLayout quote_alone true false
    = QuoteCard (negb true) {| fontSize := size1; text := body |} attribution
    /\ renderLayout quote_with_extras true false
       = QuoteCard (negb true) {| fontSize := size2; text := body |}
           attribution
    /\ body = SmartText (first_entry (content quote_alone))
    /\ (true = true -> size1 = size2).
Proof.
  exact (@quote_text_reads_first_entry quote_alone quote_with_extras
           true false false eq_refl eq_refl eq_refl eq_refl).
Defined.

End Rendering.

(** ** The PDF export *)

Section ExportLoop.

Lemma firstn_snoc (A : Type) (l : list A) :
  forall n x, nth_error l n = Some x -> firstn (S n) l = firstn n l ++ [x].
Proof.
  induction l as [|a l IH]; intros [|n] x H; try discriminate H.
  - injection H as ->. reflexivity.
  - cbn [nth_error] in H. cbn [firstn app]. cbn [firstn] in IH.
    rewrite (IH n x H). reflexivity.
Qed.

Lemma capture_loop p st :
  presentation st = Some p ->
  forall n,
    (n <= length (Deck.slides p))%nat ->
    let r := fold_left capturePage (seq 0 n) ([], st) in
    fst r = map Some (firstn n (Deck.slides p))
    /\ presentation (snd r) = Some p
    /\ currentSlideIndex (snd r)
       = match n with O => currentSlideIndex st | S m => m end.
Proof.
  intros P. induction n as [|n IH]; intros L.
  - cbn. split; [reflexivity|]. split; [exact P | reflexivity].
  - cbn zeta. rewrite seq_S, fold_left_app. cbn [fold_left Nat.add].
    destruct (IH ltac:(lia)) as (F & Q & _). cbn zeta in F, Q.
    destruct (fold_left capturePage (seq 0 n) ([], st)) as [pages st'].
    cbn [fst snd] in F, Q. unfold capturePage. cbn [fst snd].
    cbn [presentation currentSlideIndex setCurrentSlideIndex].
    rewrite Q, F. split; [|split; reflexivity].
    destruct (nth_error (Deck.slides p) n) as [slide|] eqn:N;
      [|apply nth_error_None in N; lia].
    rewrite (@firstn_snoc _ (Deck.slides p) n slide N), map_app. reflexivity.
Qed.

(** X24: the PDF export captures every slide of the presentation once, in
    order, and leaves the last slide shown; the presentation itself is not
    changed. *)
Theorem export_captures_every_slide st p :
  presentation st = Some p ->
  fst (handleExportPDF st) = map Some (Deck.slides p)
  /\ presentation (snd (handleExportPDF st)) = Some p
  /\ currentSlideIndex (snd (handleExportPDF st))
     = match length (Deck.slides p) with
       | O => currentSlideIndex st
       | S last => last
       end.
Proof.
  intros P. unfold handleExportPDF. rewrite P. cbn zeta.
  destruct (@capture_loop p st P (length (Deck.slides p)) (Nat.le_refl _))
    as (F & Q & I).
  cbn zeta in F, Q, I. rewrite firstn_all in F.
  split; [exact F|]. split; [exact Q | exact I].
Qed.

Lemma export_captures_every_slide_witness :
  presentation sample_state = Some sample_presentation
  /\ fst (handleExportPDF sample_state)
     = map Some (Deck.slides sample_presentation)
  /\ currentSlideIndex (snd (handleExportPDF sample_state)) = 1%nat.
Proof.
  split; [reflexivity|].
  destruct (@export_captures_every_slide sample_state sample_presentation
              eq_refl) as (F & _ & I).
  split; [exact F | exact I].
Defined.

End ExportLoop.
